(** * video_transcriber.py: segmentation, transcription orchestration, ledgers

    A shallow embedding of the size-bounded splitter
    ([split_video_by_size]), the chunked transcription ([transcribe_audio],
    [process_video]), the retry loop of the analysis calls
    ([generate_sales_analysis]) and the two persisted records
    ([TotalCostTracker], the processed-id set) of [src/video_transcriber.py].

    Modelling conventions.
    - The file system is a finite map from path strings to files.  A file
      carries what the program observes of it: its byte size
      ([os.path.getsize]) and the duration MoviePy reports for it ([None]
      when [VideoFileClip] cannot open it).
    - Everything outside the process (the ffmpeg encoder behind
      [write_videofile], the transcription service, the chat service) is an
      oracle: a function from the number of calls made so far to the outcome
      of the next call.  Quantifying over the oracles covers every behaviour
      the outside world can show.
    - The world records the requests sent out ([enc_log], [svc_log]; the
      chat calls and sleeps of the analysis have a state of their own).
      [emitted] is a ghost log: one entry for every [parts.append] /
      [return [video_path]] of the splitter, holding the local variables
      [part_path] and [part_size] at that moment; the statements tie each
      entry to the file system and to the encoder's answers.
    - A [Path] object is identified with the string [str] renders it to.
    - A Python float is the rational it denotes, and an arithmetic
      operation on floats is the exact operation followed by [round64],
      the rounding of IEEE 754 binary64 (to nearest, ties to even,
      subnormals included).  Comparisons and [min] are exact.  Infinities,
      NaN and results beyond the largest finite float are outside the
      model.  Byte sizes and counters are unbounded integers, as in Python.
    - [split_video_by_size] recurses without a structural measure, so its
      model takes fuel; [None] means the fuel ran out before the call
      returned.  The interpreter's stack limit is not modelled. *)

From Stdlib Require Import ZArith QArith Qround Qminmax Qpower Qreduction Qfield.
From Stdlib Require Import String Ascii List Lia.
From stdpp Require Import gmap strings list sorting pretty.

Local Open Scope Z_scope.

(** ** Constants *)

(** [15 * 1024 * 1024], the literal of [split_video_by_size]. *)
Definition SPLIT_LIMIT : Z := 15 * 1024 * 1024.

(** [MAX_FILE_SIZE = 25 * 1024 * 1024]. *)
Definition MAX_FILE_SIZE : Z := 25 * 1024 * 1024.

(** [TEMP_DIR = Path('temp')]. *)
Definition TEMP_DIR : string := "temp".

(** [TEMP_DIR / name], rendered with [str]. *)
Definition in_temp (name : string) : string := TEMP_DIR +:+ "/" +:+ name.

(** [TEMP_DIR / f"part_{i+1}_of_{num_chunks}.mp4"], given [k = i+1]. *)
Definition part_file (k num_chunks : nat) : string :=
  in_temp ("part_" +:+ pretty k +:+ "_of_" +:+ pretty num_chunks +:+ ".mp4").

(** [TEMP_DIR / f"compressed_part_{i+1}_of_{num_chunks}.mp4"]. *)
Definition compressed_file (k num_chunks : nat) : string :=
  in_temp ("compressed_part_" +:+ pretty k +:+ "_of_" +:+ pretty num_chunks +:+ ".mp4").

(** ** Floating-point numbers *)

(** Python's [float] is IEEE 754 binary64.  A finite float is modelled by
    the rational it denotes; [x + y], [x * y] and [x / y] return the exact
    result rounded by [round64]. *)

(** [2 ** e] *)
Definition pow2 (e : Z) : Q := (2 ^ e)%Q.

(** The exponent of the binade of a positive rational: the [e] with
    [2 ** e <= q < 2 ** (e + 1)]. *)
Definition ilog2 (q : Q) : Z :=
  let l := Z.log2 (Qnum q) - Z.log2 (Zpos (Qden q)) in
  if Qle_bool (pow2 l) q then l else l - 1.

(** The nearest integer, a tie going to the even one. *)
Definition rne (q : Q) : Z :=
  let f := Qfloor q in
  match (q - inject_Z f ?= 1 # 2)%Q with
  | Lt => f
  | Gt => f + 1
  | Eq => if Z.even f then f else f + 1
  end.

(** A positive rational rounded to 53 significant bits, or to a multiple
    of [2 ** -1074] in the subnormal range. *)
Definition round_pos (q : Q) : Q :=
  let c := Z.max (ilog2 q - 52) (-1074) in
  (inject_Z (rne (q / pow2 c)) * pow2 c)%Q.

(** The binary64 number nearest to [q], ties to even. *)
Definition round64 (q : Q) : Q :=
  match Qnum q with
  | Z0 => 0%Q
  | Zpos _ => Qred (round_pos q)
  | Zneg _ => Qred (- round_pos (- q))
  end.

(** [x + y], [x * y], [x / y] on floats. *)
Definition b64_add (x y : Q) : Q := round64 (x + y).
Definition b64_mul (x y : Q) : Q := round64 (x * y).
Definition b64_div (x y : Q) : Q := round64 (x / y).

(** The rational is a binary64 number. *)
Definition is_float (q : Q) : Prop := (round64 q == q)%Q.

(** ** Files, requests, the world *)

Record file := File {
  size : Z;                  (* os.path.getsize *)
  duration : option Q        (* VideoFileClip(path).duration; None: cannot be opened *)
}.

(** The two quality profiles of [write_videofile]: bitrate 1000k / crf 28,
    then bitrate 500k / crf 32. *)
Inductive profile := FirstPass | SecondPass.

Record enc_request := Req {
  req_src : string;
  req_dst : string;
  req_start : Q;
  req_end : Q;
  req_profile : profile
}.

(** What one [subclip(...).write_videofile(dst, ...)] does: it may leave a
    file at [dst] (or leave the path as it was), and it may raise. *)
Record enc_outcome := Enc {
  enc_file : option file;
  enc_raises : bool
}.

(** Why a path entered the result list. *)
Inductive verdict :=
| Whole              (* the input itself, within the limit *)
| FirstPassFits      (* measured within the limit after the first profile *)
| SecondPassFits     (* measured within the limit after the second profile *)
| SecondPassFailed.  (* second profile raised or left no file: part kept as it is *)

Record emission := Emit {
  em_path : string;
  em_size : Z;
  em_why : verdict
}.

(** One answer of the transcription service. *)
Inductive svc_outcome :=
| SvcText (text : string)
| SvcError (message : string).

Record world := World {
  fs : gmap string file;
  enc_log : list enc_request;
  svc_log : list string;
  emitted : list emission
}.

Definition set_fs (w : world) (m : gmap string file) : world :=
  World m (enc_log w) (svc_log w) (emitted w).

Definition log_enc (w : world) (r : enc_request) : world :=
  World (fs w) (enc_log w ++ [r]) (svc_log w) (emitted w).

Definition log_svc (w : world) (p : string) : world :=
  World (fs w) (enc_log w) (svc_log w ++ [p]) (emitted w).

Definition emit (w : world) (p : string) (sz : Z) (v : verdict) : world :=
  World (fs w) (enc_log w) (svc_log w) (emitted w ++ [Emit p sz v]).

(** [os.remove(p)] guarded by [os.path.exists(p)]. *)
Definition remove_if_exists (w : world) (p : string) : world :=
  set_fs w (delete p (fs w)).

(** ** The splitter *)

(** [math.ceil(total_size / (15 * 1024 * 1024))].  The quotient of the two
    integers is a float, but its rounding cannot reach or cross an integer
    for a size below [2 ** 53] bytes: next to an integer [k] the quotients
    are [1 / 15728640] apart, more than half the spacing of the floats
    around [k].  So the ceiling is the one of the exact quotient. *)
Definition num_chunks_of (total_size : Z) : nat :=
  Z.to_nat (Qceiling (inject_Z total_size / inject_Z SPLIT_LIMIT)).

(** The loop body's [part_duration = total_duration / num_chunks],
    [start_time = i * part_duration] and
    [end_time = min((i + 1) * part_duration, total_duration)], in float
    arithmetic. *)
Definition part_duration (total_duration : Q) (num_chunks : nat) : Q :=
  b64_div total_duration (inject_Z (Z.of_nat num_chunks)).

Definition window (total_duration : Q) (num_chunks i : nat) : Q * Q :=
  let pd := part_duration total_duration num_chunks in
  (b64_mul (inject_Z (Z.of_nat i)) pd,
   Qmin (b64_mul (inject_Z (Z.of_nat (i + 1))) pd) total_duration).

Section Splitter.

Variable encoder : nat -> enc_outcome.

(** [subclip.write_videofile(dst, ...)] *)
Definition write_videofile (w : world) (r : enc_request) : world * bool :=
  let o := encoder (length (enc_log w)) in
  let w1 := log_enc w r in
  (match enc_file o with
   | Some f => set_fs w1 (<[req_dst r := f]> (fs w1))
   | None => w1
   end, enc_raises o).

(** One iteration of [for i in tqdm(range(num_chunks))].  [recurse] is the
    recursive call [split_video_by_size(str(part_path), chunk_duration // 2)]. *)
Definition split_part
    (recurse : world -> string -> Z -> option (world * list string))
    (video_path : string) (chunk_duration : Z)
    (total_duration : Q) (num_chunks : nat)
    (acc : world * list string) (i : nat) : option (world * list string) :=
  let '(w, parts) := acc in
  let '(start_time, end_time) := window total_duration num_chunks i in
  let part_path := part_file (i + 1) num_chunks in
  let '(w1, raised) :=
    write_videofile w (Req video_path part_path start_time end_time FirstPass) in
  if raised then Some (w1, parts)                       (* except: print *)
  else
    match fs w1 !! part_path with
    | None => Some (w1, parts)                          (* not created: continue *)
    | Some f =>
      let part_size := size f in
      if SPLIT_LIMIT <? part_size then
        let compressed_path := compressed_file (i + 1) num_chunks in
        let '(w2, raised2) :=
          write_videofile w1
            (Req video_path compressed_path start_time end_time SecondPass) in
        if raised2 then
          (* except: "continuar com o arquivo original" *)
          Some (emit w2 part_path part_size SecondPassFailed, parts ++ [part_path])
        else
          match fs w2 !! compressed_path with
          | None =>
            Some (emit w2 part_path part_size SecondPassFailed, parts ++ [part_path])
          | Some _ =>
            let w3 := remove_if_exists w2 part_path in
            (* part_path = compressed_path; part_size = getsize(part_path) *)
            match fs w3 !! compressed_path with
            | None =>
              Some (emit w3 compressed_path part_size SecondPassFailed,
                    parts ++ [compressed_path])
            | Some g =>
              let part_size := size g in
              if SPLIT_LIMIT <? part_size then
                match recurse w3 compressed_path (chunk_duration `div` 2) with
                | None => None
                | Some (w4, subparts) => Some (w4, parts ++ subparts)
                end
              else
                Some (emit w3 compressed_path part_size SecondPassFits,
                      parts ++ [compressed_path])
            end
          end
      else Some (emit w1 part_path part_size FirstPassFits, parts ++ [part_path])
    end.

(** The [for] loop: iterations run in order, threading world and [parts]. *)
Definition split_loop
    (recurse : world -> string -> Z -> option (world * list string))
    (video_path : string) (chunk_duration : Z)
    (total_duration : Q) (num_chunks : nat)
    (indices : list nat) (acc : world * list string)
    : option (world * list string) :=
  fold_left
    (fun (st : option (world * list string)) i =>
       match st with
       | None => None
       | Some a =>
         split_part recurse video_path chunk_duration total_duration num_chunks a i
       end)
    indices (Some acc).

Fixpoint split_video_by_size (fuel : nat) (w : world) (video_path : string)
    (chunk_duration : Z) : option (world * list string) :=
  match fuel with
  | O => None
  | S fuel' =>
    match fs w !! video_path with
    | None => Some (w, [])
    | Some f =>
      match duration f with
      | None => Some (w, [])                            (* outer except *)
      | Some total_duration =>
        let total_size := size f in
        if total_size <=? SPLIT_LIMIT then
          Some (emit w video_path total_size Whole, [video_path])
        else
          let num_chunks := num_chunks_of total_size in
          split_loop (split_video_by_size fuel') video_path chunk_duration
            total_duration num_chunks (seq 0 num_chunks) (w, [])
      end
    end
  end.

End Splitter.

(** ** The transcription orchestrator *)

(** [c.lower()] on the ASCII letters. *)
Definition ascii_lower (c : ascii) : ascii :=
  let n := N_of_ascii c in
  if ((65 <=? n) && (n <=? 90))%N then ascii_of_N (n + 32) else c.

(** Whether the byte [c] is [n]. *)
Definition is_byte (c : ascii) (n : N) : bool := (N_of_ascii c =? n)%N.

(** [s.lower()] on a string held as UTF-8, as far as ASCII can see it.
    Besides the ASCII capitals, two characters have an ASCII letter in
    their lower case: U+212A KELVIN SIGN (bytes E2 84 AA) becomes [k], and
    U+0130 (bytes C4 B0) becomes [i] followed by U+0307 (bytes CC 87).
    Every other character is left as it is: its lower case has no ASCII
    character, so whether an ASCII text occurs in the result, or starts
    it, is what it is for [str.lower()]. *)
Fixpoint lower (s : string) : string :=
  match s with
  | EmptyString => EmptyString
  | String c1 s1 =>
    let plain := String (ascii_lower c1) (lower s1) in
    match s1 with
    | EmptyString => plain
    | String c2 s2 =>
      if is_byte c1 196 && is_byte c2 176 then
        String "i" (String (ascii_of_N 204) (String (ascii_of_N 135) (lower s2)))
      else
        match s2 with
        | EmptyString => plain
        | String c3 s3 =>
          if is_byte c1 226 && is_byte c2 132 && is_byte c3 170
          then String "k" (lower s3)
          else plain
        end
    end
  end.

(** ["token limit" in str(e).lower()] *)
Definition token_limit_error (message : string) : bool :=
  match index 0 "token limit" (lower message) with
  | Some _ => true
  | None => false
  end.

(** The inline markers of [transcribe_audio]; [k], [l] are the 1-based
    numbers [i+1], [j+1] of the f-strings. *)
Definition chunk_missing (k : nat) : string :=
  "[Chunk " +:+ pretty k +:+ " não encontrado]".
Definition subchunk_missing (l : nat) : string :=
  "[Subchunk " +:+ pretty l +:+ " não encontrado]".
Definition part_failed (k : nat) : string :=
  "[Erro na transcrição da parte " +:+ pretty k +:+ "]".
Definition subpart_failed (k l : nat) : string :=
  "[Erro na transcrição da parte " +:+ pretty k +:+ "." +:+ pretty l +:+ "]".

(** The marker of [process_video] and its test [t.startswith(" [Falha")]. *)
Definition FAILURE_MARKER : string :=
  " [Falha na transcrição. Continua na próxima parte.] ".
Definition is_failure_marker (t : string) : bool := String.prefix " [Falha" t.

(** [enumerate(l)] *)
Definition enumerate {A} (l : list A) : list (nat * A) :=
  combine (seq 0 (length l)) l.

(** A call that returns a string or raises. *)
Inductive outcome :=
| Returned (text : string)
| Raised.

(** How the transcription phase of [process_video] ends. *)
Inductive video_outcome :=
| Transcript (full_transcript : string)
| FileNotFound            (* FileNotFoundError *)
| TranscriptionRaised     (* the direct transcribe_audio call raised *)
| SplitFailed             (* ValueError: "Falha ao dividir o vídeo ..." *)
| TotalLoss.              (* ValueError: "Todas as partes da transcrição falharam ..." *)

Section Orchestrator.

Variable encoder : nat -> enc_outcome.
Variable service : nat -> svc_outcome.

(** [openai.audio.transcriptions.create(model=..., file=open(p, 'rb'))] *)
Definition transcribe_call (w : world) (p : string) : world * svc_outcome :=
  (log_svc w p, service (length (svc_log w))).

(** Body of [for j, small_chunk in enumerate(smaller_chunks)]. *)
Definition transcribe_subchunk (i : nat) (acc : world * list string)
    (js : nat * string) : world * list string :=
  let '(w, transcripts) := acc in
  let '(j, small_chunk) := js in
  match fs w !! small_chunk with
  | None => (w, transcripts ++ [subchunk_missing (j + 1)])
  | Some _ =>
    let '(w1, r) := transcribe_call w small_chunk in
    (remove_if_exists w1 small_chunk,
     transcripts ++ [match r with
                     | SvcText t => t
                     | SvcError _ => subpart_failed (i + 1) (j + 1)
                     end])
  end.

(** Body of [for i, chunk_path in enumerate(chunks)]. *)
Definition transcribe_chunk (fuel : nat) (chunk_duration : Z)
    (acc : world * list string) (ic : nat * string)
    : option (world * list string) :=
  let '(w, transcripts) := acc in
  let '(i, chunk_path) := ic in
  match fs w !! chunk_path with
  | None => Some (w, transcripts ++ [chunk_missing (i + 1)])
  | Some _ =>
    let '(w1, r) := transcribe_call w chunk_path in
    match r with
    | SvcText t => Some (remove_if_exists w1 chunk_path, transcripts ++ [t])
    | SvcError e =>
      if token_limit_error e then
        match split_video_by_size encoder fuel w1 chunk_path (chunk_duration `div` 2) with
        | None => None
        | Some (w2, smaller_chunks) =>
          let '(w3, transcripts') :=
            fold_left (transcribe_subchunk i) (enumerate smaller_chunks)
                      (w2, transcripts) in
          Some (remove_if_exists w3 chunk_path, transcripts')
        end
      else
        Some (remove_if_exists w1 chunk_path, transcripts ++ [part_failed (i + 1)])
    end
  end.

Definition transcribe_chunks (fuel : nat) (chunk_duration : Z)
    (chunks : list (nat * string)) (acc : world * list string)
    : option (world * list string) :=
  fold_left
    (fun (st : option (world * list string)) ic =>
       match st with
       | None => None
       | Some a => transcribe_chunk fuel chunk_duration a ic
       end)
    chunks (Some acc).

(** [transcribe_audio(video_path)].  The usage counter it bumps is not
    part of the world: no property below reads it. *)
Definition transcribe_audio (fuel : nat) (w : world) (video_path : string)
    : option (world * outcome) :=
  match fs w !! video_path with
  | None => Some (w, Raised)                             (* FileNotFoundError *)
  | Some f =>
    match duration f with
    | None => Some (w, Raised)                           (* VideoFileClip raises *)
    | Some d =>
      let chunk_duration := 600 in
      if Qle_bool d (inject_Z chunk_duration) then
        let '(w1, r) := transcribe_call w video_path in
        Some (w1, match r with
                  | SvcText t => Returned t
                  | SvcError _ => Raised
                  end)
      else
        match split_video_by_size encoder fuel w video_path chunk_duration with
        | None => None
        | Some (w1, chunks) =>
          match transcribe_chunks fuel chunk_duration (enumerate chunks) (w1, []) with
          | None => None
          | Some (w2, transcripts) =>
            Some (w2, Returned (String.concat " " transcripts))
          end
        end
    end
  end.

(** Body of [for i, part in enumerate(parts, 1)] in [process_video]. *)
Definition transcribe_part (fuel : nat) (video_path : string)
    (acc : world * list string) (part : string)
    : option (world * list string) :=
  let '(w, all_transcripts) := acc in
  match fs w !! part with
  | None => Some (w, all_transcripts)                    (* continue *)
  | Some _ =>
    match transcribe_audio fuel w part with
    | None => None
    | Some (w1, r) =>
      Some (if String.eqb part video_path then w1 else remove_if_exists w1 part,
            all_transcripts ++ [match r with
                                | Returned t => t
                                | Raised => FAILURE_MARKER
                                end])
    end
  end.

Definition transcribe_parts (fuel : nat) (video_path : string)
    (parts : list string) (acc : world * list string)
    : option (world * list string) :=
  fold_left
    (fun (st : option (world * list string)) part =>
       match st with
       | None => None
       | Some a => transcribe_part fuel video_path a part
       end)
    parts (Some acc).

(** [process_video], from the existence check to [full_transcript]: the
    transcription phase.  What follows it in the source (the analysis
    calls, [save_results], the cost commit) and the [finally] clause that
    removes the input file are not part of this definition. *)
Definition process_video (fuel : nat) (w : world) (video_path : string)
    : option (world * video_outcome) :=
  match fs w !! video_path with
  | None => Some (w, FileNotFound)
  | Some f =>
    let file_size := size f in
    if file_size <=? MAX_FILE_SIZE then
      match transcribe_audio fuel w video_path with
      | None => None
      | Some (w1, Returned transcript) =>
        Some (w1, Transcript (String.concat " " [transcript]))
      | Some (w1, Raised) => Some (w1, TranscriptionRaised)
      end
    else
      match split_video_by_size encoder fuel w video_path 600 with
      | None => None
      | Some (w1, []) => Some (w1, SplitFailed)
      | Some (w1, parts) =>
        match transcribe_parts fuel video_path parts (w1, []) with
        | None => None
        | Some (w2, all_transcripts) =>
          if existsb (fun t => negb (is_failure_marker t)) all_transcripts
          then Some (w2, Transcript (String.concat " " all_transcripts))
          else Some (w2, TotalLoss)
        end
      end
  end.

End Orchestrator.

(** ** The retry loop of the analysis calls *)


(** One answer of [client.chat.completions.create]. *)
Inductive chat_outcome :=
| ChatText (content : string)
| ChatError (message : string).


Record chat_world := ChatWorld {
  chat_calls : nat;        (* calls made so far *)
  slept : list Z           (* arguments of time.sleep, oldest first *)
}.

Section Analysis.

Variable chat : nat -> chat_outcome.



End Analysis.

(** ** TotalCostTracker and its ledger file *)

(** What [TOTAL_COST_FILE] can look like to [load]: absent, present but
    not usable as a JSON object (empty, cut short), or a JSON object whose
    two keys may each be missing.  The total is a float: [json.dump]
    writes it with [repr], which [json.load] reads back to the same
    float. *)
Inductive ledger_file :=
| Missing
| Unreadable
| Stored (total_cost : option Q) (last_updated : option string).

Record tracker := Tracker {
  total_cost : Q;
  last_updated : string
}.

(** [load]: on any exception the fields keep their values. *)
Definition load (t : tracker) (disk : ledger_file) : tracker :=
  match disk with
  | Missing => t
  | Unreadable => t
  | Stored c u => Tracker (default 0%Q c) (default "" u)     (* data.get(key, default) *)
  end.

(** [TotalCostTracker()] *)
Definition new_tracker (disk : ledger_file) : tracker := load (Tracker 0 "") disk.

(** How one [open(TOTAL_COST_FILE, 'w')] ... [json.dump] goes. *)
Inductive write_fate :=
| Completes        (* opened, written, closed *)
| OpenRaises       (* open raises: the file is untouched *)
| DumpRaises       (* open truncated the file, the write raises part-way *)
| Killed.          (* open truncated the file, the process dies before the close *)

(** [save]: every exception is swallowed; [None] is a process that died. *)
Definition save (fate : write_fate) (t : tracker) (now : string)
    (disk : ledger_file) : option tracker * ledger_file :=
  match fate with
  | Completes => (Some t, Stored (Some (total_cost t)) (Some now))
  | OpenRaises => (Some t, disk)
  | DumpRaises => (Some t, Unreadable)
  | Killed => (None, Unreadable)
  end.

(** [add_cost]; [self.total_cost += cost] is a float addition; [now1],
    [now2] are the two readings of the clock. *)
Definition add_cost (fate : write_fate) (t : tracker) (cost : Q)
    (now1 now2 : string) (disk : ledger_file) : option tracker * ledger_file :=
  save fate (Tracker (b64_add (total_cost t) cost) now1) now2 disk.

(** The total a fresh process would start from. *)
Definition durable_total (disk : ledger_file) : Q := total_cost (new_tracker disk).

(** A deployment: processes that start, commit costs, and are restarted. *)
Inductive ledger_op :=
| Commit (fate : write_fate) (cost : Q) (now1 now2 : string)
| Relaunch.

Definition ledger_step (st : tracker * ledger_file) (op : ledger_op)
    : tracker * ledger_file :=
  let '(t, disk) := st in
  match op with
  | Commit fate cost now1 now2 =>
    match add_cost fate t cost now1 now2 disk with
    | (Some t', disk') => (t', disk')
    | (None, disk') => (new_tracker disk', disk')
    end
  | Relaunch => (new_tracker disk, disk)
  end.

(** A step that cannot damage the file: a commit of a non-negative cost
    whose write completes or whose [open] raises, or a restart. *)
Definition regular (op : ledger_op) : Prop :=
  match op with
  | Commit fate cost _ _ => (fate = Completes \/ fate = OpenRaises) /\ (0 <= cost)%Q
  | Relaunch => True
  end.

(** The ledger is in order: both totals are floats, and the file is not
    ahead of the tracker. *)
Definition ledger_ok (st : tracker * ledger_file) : Prop :=
  is_float (total_cost (fst st)) /\
  is_float (durable_total (snd st)) /\
  (durable_total (snd st) <= total_cost (fst st))%Q.

(** The durable totals seen after each step of a deployment. *)
Fixpoint durable_totals (st : tracker * ledger_file) (ops : list ledger_op) : list Q :=
  match ops with
  | [] => []
  | op :: rest =>
    let st' := ledger_step st op in
    durable_total (snd st') :: durable_totals st' rest
  end.

(** ** The processed-id record *)

(** The order of [sorted] on strings: strings are byte strings here (UTF-8),
    and their bytewise lexicographic order is the order of the code points. *)
Definition string_le (a b : string) : Prop := String.leb a b = true.

#[global] Instance string_le_dec : RelDecision string_le.
Proof. intros a b. unfold string_le. apply _. Defined.

#[global] Instance string_le_total : Total string_le.
Proof. intros a b. apply String.leb_total. Qed.

Section ProcessedIds.

(** [json.dump(id_list, f, indent=2)] and [json.load(f)] on an array of
    strings, over whatever the file holds; [None] is [JSONDecodeError],
    [truncated] is the file [open(..., 'w')] leaves when nothing more
    gets written. *)
Variable contents : Type.
Variable json_dump : list string -> contents.
Variable json_load : contents -> option (list string).
Variable truncated : contents.

(** [load_processed_ids], given what [PROCESSED_IDS_FILE] holds
    ([None]: no such file).  The file is taken to hold an array of strings
    or text that is not JSON, which is all [save_processed_ids] can leave;
    on other JSON values [set(id_list)] can raise, which is not modelled. *)
Definition load_processed_ids (disk : option contents) : gset string :=
  match disk with
  | None => ∅
  | Some c =>
    match json_load c with
    | Some id_list => list_to_set id_list
    | None => ∅
    end
  end.

(** [sorted(list(processed_ids))] *)
Definition sorted_ids (processed_ids : gset string) : list string :=
  merge_sort string_le (elements processed_ids).

(** [save_processed_ids]: every exception is swallowed. *)
Definition save_processed_ids (fate : write_fate) (processed_ids : gset string)
    (disk : option contents) : option contents :=
  let id_list := sorted_ids processed_ids in
  match fate with
  | Completes => Some (json_dump id_list)
  | OpenRaises => disk
  | DumpRaises | Killed => Some truncated
  end.

End ProcessedIds.

(** ** Predicates used in the statements *)

(** Call number [j] of the encoder, at or after call number [from], was
    asked to write [p] and left the file [f] there. *)
Definition written_by (encoder : nat -> enc_outcome) (log : list enc_request)
    (from : nat) (p : string) (f : file) : Prop :=
  exists j r,
    (from <= j)%nat /\ log !! j = Some r /\ req_dst r = p /\
    enc_file (encoder j) = Some f.

(** [f] is a file the file system held at [p] between [w] and [w']: the
    one [w] has there, or one an encoder call made since has written. *)
Definition held (encoder : nat -> enc_outcome) (w w' : world)
    (p : string) (f : file) : Prop :=
  fs w !! p = Some f \/
  written_by encoder (enc_log w') (length (enc_log w)) p f.

(** Between [w] and [w'] the second profile was run for the part at [p],
    and the call raised or left no file. *)
Definition second_pass_failed (encoder : nat -> enc_outcome) (w w' : world)
    (p : string) : Prop :=
  exists j r k n,
    (length (enc_log w) <= j)%nat /\ enc_log w' !! j = Some r /\
    p = part_file k n /\ req_dst r = compressed_file k n /\
    req_profile r = SecondPass /\
    (enc_raises (encoder j) = true \/ enc_file (encoder j) = None).

(** What stands behind an entry of the ghost log: the size it records is
    the size of a file held at its path, and that size is within the limit
    unless the second profile failed for the part. *)
Definition justified (encoder : nat -> enc_outcome) (w w' : world)
    (e : emission) : Prop :=
  (exists f, size f = em_size e /\ held encoder w w' (em_path e) f) /\
  (em_size e <= SPLIT_LIMIT \/ second_pass_failed encoder w w' (em_path e)).

(** The encoder log of [b] continues the one of [a]. *)
Definition log_grows (a b : world) : Prop :=
  exists more, enc_log b = enc_log a ++ more.

(** [b] is reached from [a]: the encoder log has only grown, and every
    file of [b] is one held since [a]. *)
Definition reached (encoder : nat -> enc_outcome) (a b : world) : Prop :=
  log_grows a b /\ forall p f, fs b !! p = Some f -> held encoder a b p f.

(** [parts] is the list of paths entered in the ghost log between [w] and
    [w'], and each entry is [justified]. *)
Definition accounted (encoder : nat -> enc_outcome) (w w' : world)
    (parts : list string) : Prop :=
  exists es,
    emitted w' = emitted w ++ es /\ parts = map em_path es /\
    Forall (justified encoder w w') es.

(** An encoder outcome that cannot lead to a recursive call: the call
    raises, or it writes a file within the limit. *)
Definition settles (o : enc_outcome) : bool :=
  enc_raises o ||
  match enc_file o with
  | Some f => size f <=? SPLIT_LIMIT
  | None => false
  end.

(** The request one loop iteration sends first. *)
Definition first_request (video_path : string) (total_duration : Q)
    (num_chunks i : nat) : enc_request :=
  let win := window total_duration num_chunks i in
  Req video_path (part_file (i + 1) num_chunks) (fst win) (snd win) FirstPass.

(** The sequence does not decrease. *)
Fixpoint nondecreasing (l : list Q) : Prop :=
  match l with
  | a :: ((b :: _) as rest) => (a <= b)%Q /\ nondecreasing rest
  | _ => True
  end.

(** The delays [retry_delay], [2 * retry_delay], [4 * retry_delay], ... *)
Definition backoff (retry_delay : Z) (k : nat) : list Z :=
  map (fun j => retry_delay * 2 ^ Z.of_nat j) (seq 0 k).


(** ** Scenarios used in the examples below *)

Definition MB : Z := 1024 * 1024.

(** A 20MB video of 700 s. *)
Definition w_c1 : world :=
  World {[ "temp/v.mp4" := File (20 * MB) (Some (700 # 1)) ]} [] [] [].

(** An encoder whose first profile yields 16MB for the first window, whose
    second profile then raises without writing, and whose every later call
    yields 5MB. *)
Definition enc_c1 (n : nat) : enc_outcome :=
  match n with
  | 0%nat => Enc (Some (File (16 * MB) (Some (350 # 1)))) false
  | 1%nat => Enc None true
  | _ => Enc (Some (File (5 * MB) (Some (350 # 1)))) false
  end.

(** An encoder whose second window stays at 16MB after both profiles, so
    that the splitter recurses on [compressed_part_2_of_2.mp4]; in the
    recursive call the first window needs the second profile. *)
Definition enc_reuse (n : nat) : enc_outcome :=
  match n with
  | 0%nat => Enc (Some (File (10 * MB) (Some (350 # 1)))) false
  | 1%nat => Enc (Some (File (20 * MB) (Some (350 # 1)))) false
  | 2%nat => Enc (Some (File (16 * MB) (Some (350 # 1)))) false
  | 3%nat => Enc (Some (File (16 * MB) (Some (175 # 1)))) false
  | 4%nat => Enc (Some (File (8 * MB) (Some (175 # 1)))) false
  | _ => Enc (Some (File (7 * MB) (Some (175 # 1)))) false
  end.

(** An encoder that never gets a part under the limit: every call writes a
    16MB file. *)
Definition stubborn (_ : nat) : enc_outcome :=
  Enc (Some (File (16 * MB) (Some (60 # 1)))) false.

(** An encoder that cuts 5MB parts of 350 s. *)
Definition enc_small (_ : nat) : enc_outcome :=
  Enc (Some (File (5 * MB) (Some (350 # 1)))) false.


(** A service that transcribes its first file and fails on every later one. *)
Definition svc_c3 (n : nat) : svc_outcome :=
  match n with
  | 0%nat => SvcText "ola"
  | _ => SvcError "500 internal error"
  end.

(** A 20MB video of 300 s. *)
Definition w_short : world :=
  World {[ "temp/v.mp4" := File (20 * MB) (Some (300 # 1)) ]} [] [] [].

(** A 10MB video of 700 s. *)
Definition w_c7 : world :=
  World {[ "temp/v.mp4" := File (10 * MB) (Some (700 # 1)) ]} [] [] [].

(** A service that answers every call with a token-limit error. *)
Definition svc_token_limit (_ : nat) : svc_outcome := SvcError "Token limit exceeded".



(** The float [770.9], and a 40MB video of that duration. *)
Definition d_c6 : Q := round64 (7709 # 10).

Definition w_c6 : world :=
  World {[ "temp/v.mp4" := File (40 * MB) (Some d_c6) ]} [] [] [].

(** A ledger holding 5 dollars. *)
Definition disk_c5 : ledger_file := Stored (Some (5 # 1)) (Some "2025-01-01 10:00:00").

(** ** Predicates for the further properties *)

(** The names the splitter writes under: [part_k_of_n.mp4] and
    [compressed_part_k_of_n.mp4] in [TEMP_DIR]. *)
Definition scratch_name (p : string) : Prop :=
  exists k n, p = part_file k n \/ p = compressed_file k n.

(** [b] has the files of [a] at every path that is not a scratch name. *)
Definition same_elsewhere (a b : world) : Prop :=
  forall p, ~ scratch_name p -> fs b !! p = fs a !! p.



(** ** The audio splitter *)

(** [TEMP_DIR / f"chunk_{i}.wav"] *)
Definition chunk_file (i : nat) : string :=
  in_temp ("chunk_" +:+ pretty i +:+ ".wav").

(** [audio.subclip(start_time, end_time).write_audiofile(dst, ...)] on the
    clip opened from [src]. *)
Record wav_request := Wav {
  wav_src : string;
  wav_dst : string;
  wav_start : Q;
  wav_end : Q
}.

Record audio_world := AudioWorld {
  a_fs : gmap string file;
  wav_log : list wav_request
}.

(** [math.ceil(duration / chunk_duration)].  As for [num_chunks_of], the
    rounding of the quotient cannot reach or cross an integer: a float
    [duration] above [k * chunk_duration] exceeds it by a full spacing of
    the floats there, which is more than half the spacing around [k] once
    divided. *)
Definition audio_num_chunks (total : Q) (chunk_duration : Z) : nat :=
  Z.to_nat (Qceiling (total / inject_Z chunk_duration)).

(** [start_time = i * chunk_duration],
    [end_time = min((i + 1) * chunk_duration, duration)]: products of
    integers, and an exact comparison. *)
Definition audio_window (total : Q) (chunk_duration : Z) (i : nat) : Q * Q :=
  (inject_Z (Z.of_nat i * chunk_duration),
   Qmin (inject_Z ((Z.of_nat i + 1) * chunk_duration)) total).

Section AudioSplitter.

Variable wav_encoder : nat -> enc_outcome.

(** Opening the clip, cutting it and writing the chunk: one answer of the
    encoder for the three together. *)
Definition write_audiofile (w : audio_world) (r : wav_request) : audio_world * bool :=
  let o := wav_encoder (List.length (wav_log w)) in
  (AudioWorld
     (match enc_file o with
      | Some f => <[wav_dst r := f]> (a_fs w)
      | None => a_fs w
      end)
     (wav_log w ++ [r]),
   enc_raises o).

(** Body of [for i in range(num_chunks)]. *)
Definition split_audio_chunk (audio_path : string) (chunk_duration : Z) (total : Q)
    (acc : audio_world * list string) (i : nat) : audio_world * list string :=
  let '(w, chunks) := acc in
  let '(start_time, end_time) := audio_window total chunk_duration i in
  let chunk_path := chunk_file i in
  let '(w1, raised) := write_audiofile w (Wav audio_path chunk_path start_time end_time) in
  if raised then (w1, chunks)                              (* except: print *)
  else
    match a_fs w1 !! chunk_path with
    | None => (w1, chunks)                                 (* not created: continue *)
    | Some _ => (w1, chunks ++ [chunk_path])
    end.

(** [split_audio(audio_path, chunk_duration)]; the file's [duration] is
    what [ffprobe] prints ([None]: [get_audio_duration] raises). *)
Definition split_audio (w : audio_world) (audio_path : string) (chunk_duration : Z)
    : audio_world * list string :=
  match a_fs w !! audio_path with
  | None => (w, [])
  | Some f =>
    match duration f with
    | None => (w, [])                                      (* outer except *)
    | Some total =>
      if chunk_duration =? 0 then (w, [])                  (* ZeroDivisionError *)
      else
        fold_left (split_audio_chunk audio_path chunk_duration total)
                  (seq 0 (audio_num_chunks total chunk_duration)) (w, [])
    end
  end.

End AudioSplitter.

(** The request of iteration [i]. *)
Definition audio_request (audio_path : string) (chunk_duration : Z) (total : Q)
    (i : nat) : wav_request :=
  Wav audio_path (chunk_file i)
      (fst (audio_window total chunk_duration i))
      (snd (audio_window total chunk_duration i)).

(** A 1500 s recording, and an encoder that fails on its second call. *)
Definition aw_example : audio_world :=
  AudioWorld {[ "temp/a.wav" := File (48 * MB) (Some (1500 # 1)) ]} [].

Definition wav_enc_example (n : nat) : enc_outcome :=
  match n with
  | 1%nat => Enc None true
  | _ => Enc (Some (File (19 * MB) (Some (600 # 1)))) false
  end.

(** ** The per-video usage counters *)

Module TranscriptionCounter.

Record t := Counter {
  total_seconds : Q;
  total_files : Z
}.

(** [__init__] and [reset] *)
Definition init : t := Counter 0%Q 0.
Definition reset (_ : t) : t := Counter 0%Q 0.

(** [total_seconds += duration_seconds] is a float addition. *)
Definition add_transcription (c : t) (duration_seconds : Q) : t :=
  Counter (b64_add (total_seconds c) duration_seconds) (total_files c + 1).

Definition get_minutes (c : t) : Q := b64_div (total_seconds c) 60.

(** [GPT4O_TRANSCRIBE_PRICE_PER_MINUTE = 0.006], the float. *)
Definition PRICE_PER_MINUTE : Q := round64 (6 # 1000).

Definition estimate_cost (c : t) : Q := b64_mul (get_minutes c) PRICE_PER_MINUTE.

End TranscriptionCounter.

Module TokenCounter.

(** [response.usage] *)
Record usage := Usage {
  u_total_tokens : Z;
  u_prompt_tokens : Z;
  u_completion_tokens : Z
}.

(** What [add_usage] finds on a response. *)
Inductive response :=
| NoUsageAttribute          (* hasattr(response, 'usage') is False *)
| UsageIsNone               (* the attribute is there and holds None *)
| HasUsage (u : usage).

Record t := Counter {
  total_tokens : Z;
  prompt_tokens : Z;
  completion_tokens : Z
}.

Definition init : t := Counter 0 0 0.
Definition reset (_ : t) : t := Counter 0 0 0.

(** [add_usage(response)]; [None] is the [AttributeError] of
    [response.usage.total_tokens] when [usage] is [None], raised before any
    field is changed. *)
Definition add_usage (c : t) (r : response) : option t :=
  match r with
  | NoUsageAttribute => Some c
  | UsageIsNone => None
  | HasUsage u =>
    Some (Counter (total_tokens c + u_total_tokens u)
                  (prompt_tokens c + u_prompt_tokens u)
                  (completion_tokens c + u_completion_tokens u))
  end.

(** Consecutive calls of [add_usage], up to the first that raises. *)
Fixpoint add_usages (c : t) (responses : list response) : option t :=
  match responses with
  | [] => Some c
  | r :: rest =>
    match add_usage c r with
    | Some c' => add_usages c' rest
    | None => None
    end
  end.

(** [GPT41_PROMPT_PRICE = 0.01], [GPT41_COMPLETION_PRICE = 0.03], the
    floats, per 1000 tokens. *)
Definition PROMPT_PRICE : Q := round64 (1 # 100).
Definition COMPLETION_PRICE : Q := round64 (3 # 100).

(** [(prompt_tokens / 1000) * 0.01 + (completion_tokens / 1000) * 0.03]:
    the quotients of integers are floats. *)
Definition estimate_cost (c : t) : Q :=
  b64_add (b64_mul (b64_div (inject_Z (prompt_tokens c)) 1000) PROMPT_PRICE)
          (b64_mul (b64_div (inject_Z (completion_tokens c)) 1000) COMPLETION_PRICE).

(** The usages carried by a list of responses. *)
Definition usages (responses : list response) : list usage :=
  flat_map (fun r => match r with HasUsage u => [u] | _ => [] end) responses.

End TokenCounter.

(** The sum of a list of integers. *)
Definition Zsum (l : list Z) : Z := fold_right Z.add 0 l.

(** ** Runs of the ledger *)

Definition ledger_run (st : tracker * ledger_file) (ops : list ledger_op)
    : tracker * ledger_file :=
  fold_left ledger_step ops st.

(** The costs committed by a run, in order. *)
Definition committed (ops : list ledger_op) : list Q :=
  flat_map (fun op => match op with Commit _ cost _ _ => [cost] | Relaunch => [] end) ops.

(** A step whose write, if any, completes. *)
Definition completes (op : ledger_op) : Prop :=
  match op with
  | Commit fate _ _ _ => fate = Completes
  | Relaunch => True
  end.

(** ** The polling loop of [main] *)

(** An entry of [get_video_files]: the keys [id] and [name]. *)
Record video := Video {
  video_id : string;
  video_name : string
}.

Record poll_state := Poll {
  poll_processed : gset string;      (* processed_ids *)
  poll_disk : option (list string);  (* PROCESSED_IDS_FILE, as the array it holds *)
  attempted : list string            (* ids handed to download and process_video *)
}.

(** [[v for v in video_files if v['id'] not in processed_ids]] *)
Definition new_videos (processed : gset string) (video_files : list video) : list video :=
  List.filter (fun v => negb (bool_decide (video_id v ∈ processed))) video_files.

(** The loop over [FOLDERS_TO_MONITOR] that builds [all_new_videos]; a
    listing that raises ([None]) ends the pass. *)
Fixpoint all_new_videos (processed : gset string) (listings : list (option (list video)))
    : option (list video) :=
  match listings with
  | [] => Some []
  | None :: _ => None
  | Some video_files :: rest =>
    match all_new_videos processed rest with
    | Some more => Some (new_videos processed video_files ++ more)
    | None => None
    end
  end.

Section Polling.

(** [handled k]: download and [process_video] of the [k]-th new video of
    the pass went through; [fates k]: how the write that follows goes. *)
Variable handled : nat -> bool.
Variable fates : nat -> write_fate.

(** Body of [for video in all_new_videos]. *)
Definition handle_video (st : poll_state) (kv : nat * video) : poll_state :=
  let '(k, v) := kv in
  if handled k then
    let processed := {[ video_id v ]} ∪ poll_processed st in      (* processed_ids.add *)
    Poll processed
         (save_processed_ids (list string) (fun l => l) [] (fates k) processed (poll_disk st))
         (attempted st ++ [video_id v])
  else
    Poll (poll_processed st) (poll_disk st) (attempted st ++ [video_id v]).

(** One pass of the [while True] body. *)
Definition poll_cycle (st : poll_state) (listings : list (option (list video)))
    : poll_state :=
  match all_new_videos (poll_processed st) listings with
  | None => st                                                    (* except: sleep *)
  | Some videos => fold_left handle_video (enumerate videos) st
  end.

End Polling.

(** A process started on the file the last one left:
    [processed_ids = load_processed_ids()]. *)
Definition restart (st : poll_state) : poll_state :=
  Poll (load_processed_ids (list string) Some (poll_disk st)) (poll_disk st) [].

(** The file holds the set the process holds. *)
Definition in_step (st : poll_state) : Prop :=
  load_processed_ids (list string) Some (poll_disk st) = poll_processed st.

(** ** File-name sanitisation of [download_file] *)

(** A Python string as the sequence of its code points. *)
Definition codepoints := list N.

Definition HYPHEN : N := 45.       (* '-' *)
Definition FULL_STOP : N := 46.    (* '.' *)
Definition SOLIDUS : N := 47.      (* '/' *)
Definition LOW_LINE : N := 95.     (* '_' *)

Section SafeFilename.

(** [c.isalnum()] on one code point. *)
Variable isalnum : N -> bool.

(** [c.isalnum() or c in ['-', '_', '.']] *)
Definition kept (c : N) : bool :=
  isalnum c || (c =? HYPHEN)%N || (c =? LOW_LINE)%N || (c =? FULL_STOP)%N.

(** [''.join(c if c.isalnum() or c in ['-', '_', '.'] else '_' for c in file_name)] *)
Definition safe_filename (file_name : codepoints) : codepoints :=
  map (fun c => if kept c then c else LOW_LINE) file_name.

End SafeFilename.

(** [isalnum] restricted to ASCII, for the examples. *)
Definition ascii_isalnum (c : N) : bool :=
  ((48 <=? c) && (c <=? 57) || (65 <=? c) && (c <=? 90) || (97 <=? c) && (c <=? 122))%N.

(** ** The fallback speaker labelling *)

Definition NEWLINE : string := String (ascii_of_nat 10) EmptyString.

(** [client_name = meeting_info.get('client_name', 'Cliente')], with
    "Cliente Não Identificado" turned into "Cliente". *)
Definition client_label (client_name : option string) : string :=
  let name := default "Cliente" client_name in
  if String.eqb name "Cliente Não Identificado" then "Cliente" else name.

(** [client_name if current_speaker == "Vendedor" else "Vendedor"] *)
Definition other_speaker (client current_speaker : string) : string :=
  if String.eqb current_speaker "Vendedor" then client else "Vendedor".

Section SpeakerLabels.

(** The regular-expression steps: [re.split(...)] of the transcript,
    [segment.strip()], and whether some [vendedor_patterns] entry is found
    in a segment. *)
Variable re_split : string -> list string.
Variable strip : string -> string.
Variable seller_pattern : string -> bool.

(** Body of [for i, segment in enumerate(segments)]: the state is
    [current_speaker] and the lines so far, each a speaker and a text. *)
Definition label_segment (client : string)
    (st : string * list (string * string)) (iseg : nat * string)
    : string * list (string * string) :=
  let '(current_speaker, formatted_lines) := st in
  let '(i, segment) := iseg in
  if String.eqb (strip segment) "" then st                      (* continue *)
  else
    let is_vendedor := (i =? 0)%nat || seller_pattern segment in
    let current_speaker :=
      if is_vendedor then current_speaker else other_speaker client current_speaker in
    (other_speaker client current_speaker,
     formatted_lines ++ [(current_speaker, strip segment)]).

Definition label_segments (client : string) (segments : list (nat * string))
    (st : string * list (string * string)) : string * list (string * string) :=
  fold_left (label_segment client) segments st.

(** [f"{current_speaker}: {segment.strip()}"] *)
Definition format_line (line : string * string) : string :=
  fst line +:+ ": " +:+ snd line.

Definition simple_speaker_identification (transcript : string)
    (client_name : option string) : string :=
  let client := client_label client_name in
  String.concat NEWLINE
    (map format_line
       (snd (label_segments client (enumerate (re_split transcript)) ("Vendedor", [])))).

(** The labelling read as a rule on consecutive lines: a segment at index 0
    or matching a seller pattern takes the other speaker than the line
    before it, any other segment repeats the speaker of the line before
    it; blank segments leave no line. *)
Fixpoint relabel (client previous : string) (segments : list (nat * string))
    : list (string * string) :=
  match segments with
  | [] => []
  | (i, segment) :: rest =>
    if String.eqb (strip segment) "" then relabel client previous rest
    else
      let speaker :=
        if (i =? 0)%nat || seller_pattern segment
        then other_speaker client previous else previous in
      (speaker, strip segment) :: relabel client speaker rest
  end.

End SpeakerLabels.

(** One of the two names the fallback labelling writes. *)
Definition speaker_name (client s : string) : Prop := s = "Vendedor" \/ s = client.

(** ** The retry loops of the speaker and ROI calls *)

(** [needle in s] for two [str]. *)
Fixpoint contains (needle s : string) : bool :=
  String.prefix needle s ||
  match s with
  | EmptyString => false
  | String _ rest => contains needle rest
  end.

(** One more call made. *)
Definition called (c : chat_world) : chat_world :=
  ChatWorld (S (chat_calls c)) (slept c).

Section Retry.

Context {A : Type}.

(** One pass through the [try] block: the value it returns, or the message
    of the exception that reaches the [except] clause. *)
Variable attempt_body : chat_world -> chat_world * (A + string).

(** What the [else] branch of the last [except] returns. *)
Variable last_resort : chat_world -> string -> A.

(** [for attempt in range(max_retries)] around the [try] block, given the
    attempts still to run; [identify_speakers] and [generate_roi_report]
    share this loop.  [None] is falling off the end of the loop. *)
Fixpoint retry_attempts (max_retries : nat) (attempts : list nat)
    (retry_delay : Z) (c : chat_world) : chat_world * option A :=
  match attempts with
  | [] => (c, None)
  | attempt :: rest =>
    match attempt_body c with
    | (c1, inl r) => (c1, Some r)
    | (c1, inr e) =>
      if (attempt <? max_retries - 1)%nat then
        retry_attempts max_retries rest (retry_delay * 2)
          (ChatWorld (chat_calls c1) (slept c1 ++ [retry_delay]))
      else
        (c1, Some (last_resort c1 e))
    end
  end.

End Retry.

Section Speakers.

Variable chat : nat -> chat_outcome.
Variable re_split : string -> list string.
Variable strip : string -> string.
Variable seller_pattern : string -> bool.

(** What [identify_speakers] makes of the answer's text for a given
    transcript and client name: the format check with its manual
    relabelling, the seller's name replaced, blank lines squeezed. *)
Variable tidy : string -> option string -> string -> string.

(** The [try] block of [identify_speakers]: one call; both [except]
    clauses, for [RateLimitError] and for [Exception], retry alike. *)
Definition speakers_attempt (transcript : string) (client_name : option string)
    (c : chat_world) : chat_world * (string + string) :=
  match chat (chat_calls c) with
  | ChatText content => (called c, inl (tidy transcript client_name content))
  | ChatError e => (called c, inr e)
  end.

(** [max_retries = 3], [retry_delay = 5]. *)
Definition identify_speakers (transcript : string) (client_name : option string)
    (c : chat_world) : chat_world * option string :=
  retry_attempts (speakers_attempt transcript client_name)
    (fun _ _ => simple_speaker_identification re_split strip seller_pattern
                  transcript client_name)
    3 (seq 0 3) 5 c.

End Speakers.

(** The fields of the extracted data that reach the report's header. *)
Record roi_fields := RoiFields {
  nome : string;
  produto_servico : string
}.

Definition ROI_HEADING : string := "**Relatório de ROI - Proposta ClaxClub**".

(** [cabeçalho] *)
Definition cabecalho (current_date : string) (f : roi_fields) : string :=
  ROI_HEADING +:+ NEWLINE +:+
  "Cliente: " +:+ nome f +:+ NEWLINE +:+
  "Produto/Serviço: " +:+ produto_servico f +:+ NEWLINE +:+
  "Data: " +:+ current_date +:+ NEWLINE +:+
  NEWLINE +:+ "---" +:+ NEWLINE +:+ NEWLINE.

(** The header is added when the answer names neither title. *)
Definition with_header (current_date : string) (f : roi_fields) (roi_content : string)
    : string :=
  if negb (contains "Relatório de ROI" roi_content)
     && negb (contains "ROI - ClaxClub" roi_content)
  then cabecalho current_date f +:+ roi_content
  else roi_content.

(** The report returned when the last attempt fails. *)
Definition roi_failure_report (current_date : string) (max_retries : nat) (e : string)
    : string :=
  ROI_HEADING +:+ NEWLINE +:+
  "Cliente: [NOME EMPRESÁRIO/A NÃO INFORMADO]" +:+ NEWLINE +:+
  "Produto/Serviço: [PRODUTO/SERVIÇO NÃO INFORMADO]" +:+ NEWLINE +:+
  "Data: " +:+ current_date +:+ NEWLINE +:+
  NEWLINE +:+ "---" +:+ NEWLINE +:+ NEWLINE +:+
  "# ❌ Relatório de ROI (GERAÇÃO FALHOU)" +:+ NEWLINE +:+ NEWLINE +:+
  "Não foi possível gerar o relatório de ROI após " +:+ pretty max_retries +:+
  " tentativas." +:+ NEWLINE +:+
  "Último erro: " +:+ e +:+ NEWLINE +:+ NEWLINE +:+
  "## 🔧 Recomendação" +:+ NEWLINE +:+
  "Por favor, verifique sua conexão com a internet e tente novamente mais tarde." +:+
  NEWLINE +:+
  "Se o problema persistir, entre em contato com o suporte técnico." +:+ NEWLINE.

Section RoiReport.

Variable chat : nat -> chat_outcome.

(** [time.strftime("%d/%m/%Y")] read in a given state. *)
Variable strftime : chat_world -> string.

(** From the extraction answer to the prompt's fields: [json.loads], on
    [JSONDecodeError] the text between the first brace and the last or
    the default dictionary, then the [.get] and [join] steps.  [inr] is an
    exception of these steps that reaches the outer [except], as when the
    answer decodes to a JSON list. *)
Variable prepare : string -> roi_fields + string.

(** The [try] block of [generate_roi_report]: the extraction call, the
    fields, the report call, the header. *)
Definition roi_attempt (c : chat_world) : chat_world * (string + string) :=
  let current_date := strftime c in
  match chat (chat_calls c) with
  | ChatError e => (called c, inr e)
  | ChatText content =>
    let c1 := called c in
    match prepare content with
    | inr e => (c1, inr e)
    | inl f =>
      match chat (chat_calls c1) with
      | ChatError e => (called c1, inr e)
      | ChatText roi_content => (called c1, inl (with_header current_date f roi_content))
      end
    end
  end.

(** [max_retries = 3], [retry_delay = 5]. *)
Definition generate_roi_report (c : chat_world) : chat_world * option string :=
  retry_attempts roi_attempt (fun c1 e => roi_failure_report (strftime c1) 3 e)
    3 (seq 0 3) 5 c.

End RoiReport.

(** Whether a report names one of the two titles. *)
Definition titled (report : string) : bool :=
  contains "Relatório de ROI" report || contains "ROI - ClaxClub" report.

(** An extraction that is answered and a report call that always fails. *)
Definition chat_report_fails (k : nat) : chat_outcome :=
  if Nat.even k then ChatText "{}" else ChatError "timeout".

(** ** The client name read off the file name *)

(** [s[n:]] *)
Fixpoint drop_chars (n : nat) (s : string) : string :=
  match n, s with
  | O, _ => s
  | S n', String _ rest => drop_chars n' rest
  | S _, EmptyString => EmptyString
  end.

(** [s.split(sep)[0]]: the text before the first [sep], all of [s] when
    [sep] does not occur. *)
Fixpoint before (sep s : string) : string :=
  if String.prefix sep s then EmptyString
  else match s with
       | EmptyString => EmptyString
       | String a rest => String a (before sep rest)
       end.

(** The text after the first [sep], if [sep] occurs. *)
Fixpoint after (sep s : string) : option string :=
  if String.prefix sep s then Some (drop_chars (String.length sep) s)
  else match s with
       | EmptyString => None
       | String _ rest => after sep rest
       end.

(** [s.split(sep, 1)] *)
Definition split_once (sep s : string) : list string :=
  match after sep s with
  | Some rest => [before sep s; rest]
  | None => [s]
  end.

Definition CLIENT_UNKNOWN : string := "Cliente Não Identificado".

Section ClientName.

(** [str.strip()] *)
Variable strip : string -> string.

Definition extract_client_name_from_filename (filename : string) : string :=
  if negb (contains " - " filename) then CLIENT_UNKNOWN
  else if String.prefix "claxclub" (lower filename) then
    let parts := split_once " - " filename in
    if (2 <=? List.length parts)%nat then
      let client_part := nth 1 parts EmptyString in
      let client_part :=
        if contains " - " client_part then before " - " client_part else client_part in
      let client_part :=
        if contains "(" client_part then strip (before "(" client_part) else client_part in
      client_part
    else CLIENT_UNKNOWN
  else CLIENT_UNKNOWN.

End ClientName.

(** [inner] occurs in [s] as a run of consecutive characters. *)
Definition substring_of (inner s : string) : Prop :=
  exists l r, s = l +:+ inner +:+ r.

(** * Properties *)

(** ** Rounding to binary64 *)

Lemma pow2_pos e : (0 < pow2 e)%Q.
Proof. apply Qpower_0_lt. reflexivity. Qed.

Lemma pow2_add a b : (pow2 (a + b) == pow2 a * pow2 b)%Q.
Proof. apply Qpower_plus. discriminate. Qed.

Lemma pow2_le a b : a <= b -> (pow2 a <= pow2 b)%Q.
Proof. intros H. apply Qpower_le_compat_l; [exact H|discriminate]. Qed.

Lemma pow2_lt_inv a b : (pow2 a < pow2 b)%Q -> a < b.
Proof. intros H. apply (Qpower_lt_compat_l_inv 2); [exact H|reflexivity]. Qed.

Lemma pow2_Z e : 0 <= e -> (pow2 e == inject_Z (2 ^ e))%Q.
Proof. intros H. symmetry. apply (Zpower_Qpower 2 e H). Qed.

Lemma pow2_split a b : (pow2 a == pow2 (a - b) * pow2 b)%Q.
Proof. rewrite <- pow2_add. replace (a - b + b) with a by lia. reflexivity. Qed.

Lemma Qdiv_pow2 q a b : (q * pow2 a / pow2 b == q * pow2 (a - b))%Q.
Proof.
  rewrite (pow2_split a b). field.
  intros H. pose proof (pow2_pos b) as Hp. rewrite H in Hp. discriminate.
Qed.

(** The binade exponent. *)
Lemma ilog2_spec q : (0 < q)%Q -> (pow2 (ilog2 q) <= q < pow2 (ilog2 q + 1))%Q.
Proof.
  intros Hq. destruct q as [a b].
  assert (Ha : 0 < a) by (unfold Qlt in Hq; simpl in Hq; lia).
  unfold ilog2. cbn [Qnum Qden].
  set (la := Z.log2 a). set (lb := Z.log2 (Z.pos b)).
  destruct (Z.log2_spec a Ha) as [Ha1 Ha2]. fold la in Ha1, Ha2.
  destruct (Z.log2_spec (Z.pos b) ltac:(lia)) as [Hb1 Hb2]. fold lb in Hb1, Hb2.
  assert (Hla : 0 <= la) by apply Z.log2_nonneg.
  assert (Hlb : 0 <= lb) by apply Z.log2_nonneg.
  assert (Hab : (a # b == inject_Z a / inject_Z (Z.pos b))%Q) by apply Qmake_Qdiv.
  assert (Hbpos : (0 < inject_Z (Z.pos b))%Q) by reflexivity.
  (* a / b < 2 ^ (la - lb + 1) *)
  assert (Hup : (a # b < pow2 (la - lb + 1))%Q).
  { rewrite Hab. apply Qlt_shift_div_r; [exact Hbpos|].
    rewrite (pow2_split (la - lb + 1) (- lb)).
    replace (la - lb + 1 - - lb) with (la + 1) by lia.
    unfold pow2 at 2. rewrite Qpower_opp. fold (pow2 lb).
    rewrite (pow2_Z (la + 1)) by lia. rewrite (pow2_Z lb) by lia.
    apply Qlt_le_trans with (inject_Z (2 ^ (la + 1))).
    - rewrite <- Zlt_Qlt. exact Ha2.
    - rewrite <- (Qmult_1_r (inject_Z (2 ^ (la + 1)))) at 1.
      rewrite <- Qmult_assoc. apply Qmult_le_l.
      + rewrite <- (pow2_Z (la + 1)) by lia. apply pow2_pos.
      + apply Qle_shift_div_l' || idtac.
        assert (Hp : (0 < inject_Z (2 ^ lb))%Q).
        { rewrite <- (pow2_Z lb) by lia. apply pow2_pos. }
        apply (Qmult_le_l _ _ (inject_Z (2 ^ lb)) Hp).
        rewrite Qmult_1_r, Qmult_assoc, Qmult_inv_r, Qmult_1_l.
        * rewrite <- Zle_Qle. exact Hb1.
        * intros E. rewrite E in Hp. discriminate. }
  (* 2 ^ (la - lb - 1) <= a / b *)
  assert (Hlow : (pow2 (la - lb - 1) <= a # b)%Q).
  { rewrite Hab. apply Qle_shift_div_l; [exact Hbpos|].
    rewrite (pow2_split (la - lb - 1) (- (lb + 1))).
    replace (la - lb - 1 - - (lb + 1)) with la by lia.
    unfold pow2 at 2. rewrite Qpower_opp. fold (pow2 (lb + 1)).
    rewrite (pow2_Z la) by lia. rewrite (pow2_Z (lb + 1)) by lia.
    assert (Hp : (0 < inject_Z (2 ^ (lb + 1)))%Q).
    { rewrite <- (pow2_Z (lb + 1)) by lia. apply pow2_pos. }
    apply Qle_trans with (inject_Z (2 ^ la)); [|rewrite <- Zle_Qle; exact Ha1].
    rewrite <- (Qmult_1_r (inject_Z (2 ^ la))) at 2.
    rewrite <- Qmult_assoc. apply Qmult_le_l.
    - rewrite <- (pow2_Z la) by lia. apply pow2_pos.
    - apply (Qmult_le_l _ _ (inject_Z (2 ^ (lb + 1))) Hp).
      rewrite Qmult_1_r, Qmult_assoc, Qmult_inv_r, Qmult_1_l.
      + rewrite <- Zle_Qle. lia.
      + intros E. rewrite E in Hp. discriminate. }
  destruct (Qle_bool (pow2 (la - lb)) (a # b)) eqn:E.
  - apply Qle_bool_iff in E. split; [exact E|exact Hup].
  - split; [exact Hlow|].
    replace (la - lb - 1 + 1) with (la - lb) by lia.
    apply Qnot_le_lt. intros H. apply Qle_bool_iff in H. congruence.
Qed.

Lemma ilog2_unique q e :
  (pow2 e <= q)%Q -> (q < pow2 (e + 1))%Q -> ilog2 q = e.
Proof.
  intros H1 H2.
  assert (Hq : (0 < q)%Q) by (apply Qlt_le_trans with (pow2 e); [apply pow2_pos|exact H1]).
  destruct (ilog2_spec q Hq) as [H3 H4].
  pose proof (pow2_lt_inv _ _ (Qle_lt_trans _ _ _ H1 H4)).
  pose proof (pow2_lt_inv _ _ (Qle_lt_trans _ _ _ H3 H2)).
  lia.
Qed.

Lemma ilog2_mono x y : (0 < x)%Q -> (x <= y)%Q -> ilog2 x <= ilog2 y.
Proof.
  intros Hx Hxy.
  assert (Hy : (0 < y)%Q) by (apply Qlt_le_trans with x; assumption).
  destruct (ilog2_spec x Hx) as [H1 _]. destruct (ilog2_spec y Hy) as [_ H2].
  pose proof (pow2_lt_inv _ _ (Qle_lt_trans _ _ _ (Qle_trans _ _ _ H1 Hxy) H2)). lia.
Qed.

Lemma ilog2_comp x y : (0 < x)%Q -> (x == y)%Q -> ilog2 x = ilog2 y.
Proof.
  intros Hx E. destruct (ilog2_spec x Hx) as [H1 H2]. symmetry.
  apply ilog2_unique; rewrite <- E; assumption.
Qed.

(** Rounding to the nearest integer. *)
Lemma rne_cases q : rne q = Qfloor q \/ rne q = Qfloor q + 1.
Proof.
  unfold rne. destruct (q - inject_Z (Qfloor q) ?= 1 # 2)%Q; auto.
  destruct (Z.even (Qfloor q)); auto.
Qed.

Lemma rne_comp x y : (x == y)%Q -> rne x = rne y.
Proof.
  intros E. unfold rne. rewrite (Qfloor_comp _ _ E).
  assert (E' : (x - inject_Z (Qfloor y) == y - inject_Z (Qfloor y))%Q) by (rewrite E; reflexivity).
  rewrite (Qcompare_comp _ _ E' (1 # 2) (1 # 2) (Qeq_refl _)). reflexivity.
Qed.

Lemma rne_Z k : rne (inject_Z k) = k.
Proof.
  unfold rne. rewrite Qfloor_Z.
  assert (E : (inject_Z k - inject_Z k ?= 1 # 2)%Q = Lt).
  { apply Qlt_alt. assert (E0 : (inject_Z k - inject_Z k == 0)%Q) by ring.
    rewrite E0. reflexivity. }
  rewrite E. reflexivity.
Qed.

Lemma rne_mono x y : (x <= y)%Q -> rne x <= rne y.
Proof.
  intros Hxy. pose proof (Qfloor_resp_le x y Hxy) as Hf.
  destruct (Z.eq_dec (Qfloor x) (Qfloor y)) as [E|NE].
  2:{ destruct (rne_cases x), (rne_cases y); lia. }
  unfold rne. rewrite <- E.
  assert (Hd : (x - inject_Z (Qfloor x) <= y - inject_Z (Qfloor x))%Q).
  { apply Qplus_le_l. exact Hxy. }
  destruct (y - inject_Z (Qfloor x) ?= 1 # 2)%Q eqn:Ey.
  - apply Qeq_alt in Ey. rewrite Ey in Hd.
    destruct (x - inject_Z (Qfloor x) ?= 1 # 2)%Q eqn:Ex.
    + lia.
    + destruct (Z.even (Qfloor x)); lia.
    + apply Qgt_alt in Ex. exfalso. apply (Qlt_not_le _ _ Ex). exact Hd.
  - apply Qlt_alt in Ey.
    assert (Ex : (x - inject_Z (Qfloor x) ?= 1 # 2)%Q = Lt).
    { apply Qlt_alt. apply Qle_lt_trans with (y - inject_Z (Qfloor x))%Q; assumption. }
    rewrite Ex. lia.
  - destruct (x - inject_Z (Qfloor x) ?= 1 # 2)%Q; [destruct (Z.even (Qfloor x))| |]; lia.
Qed.

Lemma rne_le_Z q k : (q <= inject_Z k)%Q -> rne q <= k.
Proof. intros H. rewrite <- (rne_Z k). apply rne_mono, H. Qed.

Lemma rne_ge_Z q k : (inject_Z k <= q)%Q -> k <= rne q.
Proof. intros H. rewrite <- (rne_Z k). apply rne_mono, H. Qed.

(** Rounding a positive rational. *)
Lemma round_pos_comp x y : (0 < x)%Q -> (x == y)%Q -> (round_pos x == round_pos y)%Q.
Proof.
  intros Hx E. unfold round_pos. rewrite (ilog2_comp x y Hx E).
  rewrite (rne_comp (x / pow2 _) (y / pow2 (Z.max (ilog2 y - 52) (-1074)))).
  - reflexivity.
  - rewrite E. reflexivity.
Qed.

Lemma round_pos_nonneg q : (0 < q)%Q -> (0 <= round_pos q)%Q.
Proof.
  intros Hq. unfold round_pos. apply Qmult_le_0_compat.
  - change 0%Q with (inject_Z 0). rewrite <- Zle_Qle. apply rne_ge_Z.
    apply Qle_shift_div_l; [apply pow2_pos|]. rewrite Qmult_0_l. apply Qlt_le_weak, Hq.
  - apply Qlt_le_weak, pow2_pos.
Qed.

Lemma round_pos_mono x y : (0 < x)%Q -> (x <= y)%Q -> (round_pos x <= round_pos y)%Q.
Proof.
  intros Hx Hxy.
  assert (Hy : (0 < y)%Q) by (apply Qlt_le_trans with x; assumption).
  pose proof (ilog2_mono x y Hx Hxy) as Hl.
  unfold round_pos.
  set (cx := Z.max (ilog2 x - 52) (-1074)). set (cy := Z.max (ilog2 y - 52) (-1074)).
  destruct (Z.eq_dec cx cy) as [E|NE].
  - rewrite <- E. apply Qmult_le_compat_r; [|apply Qlt_le_weak, pow2_pos].
    rewrite <- Zle_Qle. apply rne_mono.
    apply Qmult_le_compat_r; [exact Hxy|]. apply Qlt_le_weak, Qinv_lt_0_compat, pow2_pos.
  - assert (Hc : cx < cy) by lia.
    assert (Hcy : cy = ilog2 y - 52) by lia.
    assert (Hlt : ilog2 x < ilog2 y) by lia.
    destruct (ilog2_spec x Hx) as [_ Hx2]. destruct (ilog2_spec y Hy) as [Hy1 _].
    apply Qle_trans with (pow2 (ilog2 y)).
    + (* the rounded x stays below the start of the binade of y *)
      rewrite (pow2_split (ilog2 y) cx), (pow2_Z (ilog2 y - cx)) by lia.
      apply Qmult_le_compat_r; [|apply Qlt_le_weak, pow2_pos].
      rewrite <- Zle_Qle. apply rne_le_Z.
      apply Qle_shift_div_r; [apply pow2_pos|].
      rewrite <- (pow2_Z (ilog2 y - cx)) by lia. rewrite <- pow2_split.
      apply Qle_trans with (pow2 (ilog2 x + 1)); [apply Qlt_le_weak, Hx2|].
      apply pow2_le. lia.
    + rewrite (pow2_split (ilog2 y) cy) at 1.
      replace (ilog2 y - cy) with 52 by lia. rewrite (pow2_Z 52) by lia.
      apply Qmult_le_compat_r; [|apply Qlt_le_weak, pow2_pos].
      rewrite <- Zle_Qle. apply rne_ge_Z.
      apply Qle_shift_div_l; [apply pow2_pos|].
      rewrite <- (pow2_Z 52) by lia.
      replace 52 with (ilog2 y - cy) by lia. rewrite <- pow2_split. exact Hy1.
Qed.

(** A number with at most 53 significant bits above [2 ** -1074] is its
    own rounding. *)
Lemma round_pos_dyadic m c :
  0 < m <= 2 ^ 53 -> -1074 <= c ->
  (round_pos (inject_Z m * pow2 c) == inject_Z m * pow2 c)%Q.
Proof.
  intros [Hm Hm53] Hc.
  destruct (Z.log2_spec m Hm) as [Hl1 Hl2].
  assert (Hl0 : 0 <= Z.log2 m) by apply Z.log2_nonneg.
  assert (Hil : ilog2 (inject_Z m * pow2 c) = Z.log2 m + c).
  { apply ilog2_unique.
    - rewrite pow2_add, (pow2_Z (Z.log2 m)) by lia.
      apply Qmult_le_compat_r; [|apply Qlt_le_weak, pow2_pos].
      rewrite <- Zle_Qle. exact Hl1.
    - replace (Z.log2 m + c + 1) with (Z.log2 m + 1 + c) by lia.
      rewrite pow2_add, (pow2_Z (Z.log2 m + 1)) by lia.
      apply Qmult_lt_compat_r; [apply pow2_pos|].
      rewrite <- Zlt_Qlt. change (Z.succ (Z.log2 m)) with (Z.log2 m + 1) in Hl2. lia. }
  unfold round_pos. rewrite Hil.
  set (c' := Z.max (Z.log2 m + c - 52) (-1074)).
  assert (Hcase : Z.log2 m <= 52 \/ (m = 2 ^ 53 /\ Z.log2 m = 53)).
  { destruct (Z_le_gt_dec (Z.log2 m) 52) as [H|H]; [left; exact H|right].
    assert (Z.log2 m <= 53).
    { change 53 with (Z.log2 (2 ^ 53)). apply Z.log2_le_mono. exact Hm53. }
    assert (E : Z.log2 m = 53) by lia. split; [|exact E].
    rewrite E in Hl1. lia. }
  destruct Hcase as [Hsmall | [-> Hbig]].
  - assert (Hcc : c' <= c) by lia.
    assert (Ei : (inject_Z m * pow2 c / pow2 c' == inject_Z (m * 2 ^ (c - c')))%Q).
    { rewrite Qdiv_pow2, (pow2_Z (c - c')) by lia. rewrite inject_Z_mult. reflexivity. }
    rewrite (rne_comp _ _ Ei), rne_Z, inject_Z_mult.
    rewrite <- (pow2_Z (c - c')) by lia.
    rewrite <- Qmult_assoc, <- pow2_split. reflexivity.
  - assert (Hcc : c' = c + 1) by lia. rewrite Hcc.
    assert (Eh : (inject_Z (2 ^ 53) * pow2 c / pow2 (c + 1) == inject_Z (2 ^ 52))%Q).
    { rewrite Qdiv_pow2. replace (c - (c + 1)) with (-1) by lia. reflexivity. }
    rewrite (rne_comp _ _ Eh), rne_Z. rewrite (pow2_add c 1).
    assert (E1 : (pow2 1 == 2 # 1)%Q) by reflexivity. rewrite E1.
    change (inject_Z (2 ^ 52)) with (4503599627370496 # 1)%Q.
    change (inject_Z (2 ^ 53)) with (9007199254740992 # 1)%Q. ring.
Qed.

(** The mantissa of a rounding has at most 53 bits. *)
Lemma round_pos_mantissa q :
  (0 < q)%Q ->
  0 <= rne (q / pow2 (Z.max (ilog2 q - 52) (-1074))) <= 2 ^ 53.
Proof.
  intros Hq. destruct (ilog2_spec q Hq) as [_ H2].
  set (c := Z.max (ilog2 q - 52) (-1074)). split.
  - apply rne_ge_Z. apply Qle_shift_div_l; [apply pow2_pos|].
    rewrite Qmult_0_l. apply Qlt_le_weak, Hq.
  - apply rne_le_Z. apply Qle_shift_div_r; [apply pow2_pos|].
    rewrite <- (pow2_Z 53) by lia. rewrite <- pow2_add.
    apply Qle_trans with (pow2 (ilog2 q + 1)); [apply Qlt_le_weak, H2|].
    apply pow2_le. lia.
Qed.

Lemma round_pos_idem q :
  (0 < q)%Q -> (0 < round_pos q)%Q -> (round_pos (round_pos q) == round_pos q)%Q.
Proof.
  intros Hq Hr. pose proof (round_pos_mantissa q Hq) as [Hm0 Hm].
  unfold round_pos at 2 3. unfold round_pos in Hr.
  set (c := Z.max (ilog2 q - 52) (-1074)) in *.
  set (m := rne (q / pow2 c)) in *.
  apply round_pos_dyadic; [|lia].
  split; [|exact Hm].
  destruct (Z.eq_dec m 0) as [E|NE]; [|lia].
  rewrite E in Hr. rewrite Qmult_0_l in Hr. discriminate.
Qed.

(** The sign cases of [round64]. *)
Lemma Qnum_pos q : (0 < q)%Q -> exists p, Qnum q = Z.pos p.
Proof.
  intros H. unfold Qlt in H. simpl in H. destruct (Qnum q); try lia. eauto.
Qed.

Lemma Qnum_neg q : (q < 0)%Q -> exists p, Qnum q = Z.neg p.
Proof.
  intros H. unfold Qlt in H. simpl in H. destruct (Qnum q); try lia. eauto.
Qed.

Lemma Qnum_zero q : (q == 0)%Q -> Qnum q = 0.
Proof. intros H. unfold Qeq in H. simpl in H. lia. Qed.

Lemma round64_pos q : (0 < q)%Q -> (round64 q == round_pos q)%Q.
Proof.
  intros H. destruct (Qnum_pos q H) as [p E]. unfold round64. rewrite E. apply Qred_correct.
Qed.

Lemma round64_neg q : (q < 0)%Q -> (round64 q == - round_pos (- q))%Q.
Proof.
  intros H. destruct (Qnum_neg q H) as [p E]. unfold round64. rewrite E. apply Qred_correct.
Qed.

Lemma round64_zero q : (q == 0)%Q -> round64 q = 0%Q.
Proof. intros H. unfold round64. rewrite (Qnum_zero q H). reflexivity. Qed.

Lemma Qopp_pos q : (q < 0)%Q -> (0 < - q)%Q.
Proof. intros H. apply Qopp_lt_compat in H. exact H. Qed.

Lemma round64_nonneg q : (0 <= q)%Q -> (0 <= round64 q)%Q.
Proof.
  intros H. apply Qle_lteq in H. destruct H as [H|H].
  - rewrite (round64_pos q H). apply round_pos_nonneg, H.
  - rewrite (round64_zero q); [apply Qle_refl|symmetry; exact H].
Qed.

Lemma round64_nonpos q : (q <= 0)%Q -> (round64 q <= 0)%Q.
Proof.
  intros H. apply Qle_lteq in H. destruct H as [H|H].
  - rewrite (round64_neg q H).
    pose proof (round_pos_nonneg (- q) (Qopp_pos q H)) as Hn.
    apply Qopp_le_compat in Hn. exact Hn.
  - rewrite (round64_zero q H). apply Qle_refl.
Qed.

(** Rounding keeps the order. *)
Lemma round64_le x y : (x <= y)%Q -> (round64 x <= round64 y)%Q.
Proof.
  intros Hxy.
  destruct (Qlt_le_dec 0 x) as [Hx|Hx].
  - assert (Hy : (0 < y)%Q) by (apply Qlt_le_trans with x; assumption).
    rewrite (round64_pos x Hx), (round64_pos y Hy). apply round_pos_mono; assumption.
  - destruct (Qlt_le_dec y 0) as [Hy|Hy].
    + assert (Hx' : (x < 0)%Q) by (apply Qle_lt_trans with y; assumption).
      rewrite (round64_neg x Hx'), (round64_neg y Hy).
      apply Qopp_le_compat. apply round_pos_mono; [apply Qopp_pos, Hy|].
      apply Qopp_le_compat, Hxy.
    + apply Qle_trans with 0%Q; [apply round64_nonpos, Hx|apply round64_nonneg, Hy].
Qed.

Lemma round64_comp x y : (x == y)%Q -> (round64 x == round64 y)%Q.
Proof.
  intros E. apply Qle_antisym; apply round64_le; rewrite E; apply Qle_refl.
Qed.

(** A rounding is a float. *)
Lemma round64_idem q : is_float (round64 q).
Proof.
  unfold is_float.
  destruct (Qlt_le_dec 0 q) as [Hq|Hq].
  - pose proof (round_pos_nonneg q Hq) as Hn. apply Qle_lteq in Hn.
    rewrite (round64_comp _ _ (round64_pos q Hq)).
    destruct Hn as [Hn|Hn].
    + rewrite (round64_pos _ Hn), (round64_pos q Hq). apply round_pos_idem; assumption.
    + rewrite (round64_zero (round_pos q)) by (symmetry; exact Hn).
      rewrite (round64_pos q Hq). exact Hn.
  - apply Qle_lteq in Hq. destruct Hq as [Hq|Hq].
    + pose proof (round_pos_nonneg (- q) (Qopp_pos q Hq)) as Hn. apply Qle_lteq in Hn.
      rewrite (round64_comp _ _ (round64_neg q Hq)). rewrite (round64_neg q Hq).
      destruct Hn as [Hn|Hn].
      * assert (Hneg : (- round_pos (- q) < 0)%Q).
        { apply Qopp_lt_compat in Hn. exact Hn. }
        rewrite (round64_neg _ Hneg).
        rewrite (round_pos_comp (- - round_pos (- q)) (round_pos (- q))).
        -- rewrite (round_pos_idem (- q) (Qopp_pos q Hq) Hn). reflexivity.
        -- rewrite Qopp_involutive. exact Hn.
        -- apply Qopp_involutive.
      * rewrite (round64_zero (- round_pos (- q))).
        -- rewrite <- Hn. reflexivity.
        -- rewrite <- Hn. reflexivity.
    + rewrite (round64_zero q Hq). reflexivity.
Qed.

(** Integers of at most 53 bits are floats. *)
Lemma is_float_Z k : Z.abs k <= 2 ^ 53 -> is_float (inject_Z k).
Proof.
  intros Hk. unfold is_float.
  assert (Hone : forall m, 0 < m <= 2 ^ 53 ->
            (round_pos (inject_Z m) == inject_Z m)%Q).
  { intros m Hm.
    rewrite (round_pos_comp (inject_Z m) (inject_Z m * pow2 0)).
    - rewrite (round_pos_dyadic m 0 Hm) by lia. change (pow2 0) with 1%Q. ring.
    - change 0%Q with (inject_Z 0). rewrite <- Zlt_Qlt. lia.
    - change (pow2 0) with 1%Q. ring. }
  destruct (Z.lt_trichotomy k 0) as [H|[H|H]].
  - assert (Hq : (inject_Z k < 0)%Q) by (change 0%Q with (inject_Z 0); rewrite <- Zlt_Qlt; exact H).
    rewrite (round64_neg _ Hq).
    rewrite (round_pos_comp (- inject_Z k) (inject_Z (- k))).
    + rewrite Hone by lia. rewrite inject_Z_opp. ring.
    + apply Qopp_pos, Hq.
    + rewrite inject_Z_opp. reflexivity.
  - subst k. reflexivity.
  - assert (Hq : (0 < inject_Z k)%Q) by (change 0%Q with (inject_Z 0); rewrite <- Zlt_Qlt; exact H).
    rewrite (round64_pos _ Hq). apply Hone. lia.
Qed.

(** Adding a non-negative number to a float never gives less. *)
Lemma b64_add_ge x c : is_float x -> (0 <= c)%Q -> (x <= b64_add x c)%Q.
Proof.
  intros Hx Hc. unfold is_float in Hx. unfold b64_add.
  apply Qle_trans with (round64 x); [rewrite Hx; apply Qle_refl|].
  apply round64_le. rewrite <- (Qplus_0_r x) at 1. apply Qplus_le_r. exact Hc.
Qed.

(** ** The splitter: what enters the result list *)

Section SplitterFacts.

Variable encoder : nat -> enc_outcome.

Lemma split_loop_nil recurse vp cd d n acc :
  split_loop encoder recurse vp cd d n [] acc = Some acc.
Proof. reflexivity. Qed.

Lemma split_loop_cons recurse vp cd d n i l acc :
  split_loop encoder recurse vp cd d n (i :: l) acc =
  match split_part encoder recurse vp cd d n acc i with
  | None => None
  | Some a => split_loop encoder recurse vp cd d n l a
  end.
Proof.
  unfold split_loop. simpl.
  destruct (split_part encoder recurse vp cd d n acc i); [reflexivity|].
  induction l; simpl; auto.
Qed.

End SplitterFacts.

(** ** Frame properties of the splitter *)

Section Frame.

Variable encoder : nat -> enc_outcome.
Variable R : world -> world -> Prop.
Hypothesis R_refl : forall w, R w w.
Hypothesis R_trans : forall a b c, R a b -> R b c -> R a c.
Hypothesis R_log_enc : forall w r, R w (log_enc w r).
Hypothesis R_set_fs : forall w m, R w (set_fs w m).
Hypothesis R_emit : forall w p sz v, R w (emit w p sz v).

Ltac frame :=
  unfold remove_if_exists;
  repeat match goal with
  | |- R ?w ?w => apply R_refl
  | |- R _ (emit ?x _ _ _) => apply (R_trans _ x); [|apply R_emit]
  | |- R _ (set_fs ?x _) => apply (R_trans _ x); [|apply R_set_fs]
  | |- R _ (log_enc ?x _) => apply (R_trans _ x); [|apply R_log_enc]
  end.

Lemma write_videofile_frame w r : R w (fst (write_videofile encoder w r)).
Proof. unfold write_videofile. simpl. destruct (enc_file _); frame. Qed.

(** One iteration logs its first-profile request, and the world it ends
    in is reached from there. *)
Lemma split_part_frame_after_request recurse vp cd d n w parts i w' parts' :
  (forall w p c w' ps, recurse w p c = Some (w', ps) -> R w w') ->
  split_part encoder recurse vp cd d n (w, parts) i = Some (w', parts') ->
  R (log_enc w (first_request vp d n i)) w'.
Proof.
  intros Hrec. unfold split_part, first_request.
  destruct (window d n i) as [t0 t1]. simpl fst. simpl snd.
  set (r := Req vp (part_file (i+1) n) t0 t1 FirstPass).
  assert (H1 : R (log_enc w r) (fst (write_videofile encoder w r))).
  { unfold write_videofile. simpl. destruct (enc_file _); frame. }
  destruct (write_videofile encoder w r) as [w1 r1]. simpl in H1.
  destruct r1; [intros [= <- <-]; exact H1|].
  destruct (fs w1 !! part_file (i+1) n) as [f|]; [|intros [= <- <-]; exact H1].
  destruct (SPLIT_LIMIT <? size f).
  2:{ intros [= <- <-]. apply (R_trans _ w1); [exact H1|frame]. }
  pose proof (write_videofile_frame w1
    (Req vp (compressed_file (i+1) n) t0 t1 SecondPass)) as H2.
  destruct (write_videofile encoder w1 _) as [w2 r2]. simpl in H2.
  assert (H12 : R (log_enc w r) w2) by (apply (R_trans _ w1); assumption).
  destruct r2.
  { intros [= <- <-]. apply (R_trans _ w2); [exact H12|frame]. }
  destruct (fs w2 !! compressed_file (i+1) n).
  2:{ intros [= <- <-]. apply (R_trans _ w2); [exact H12|frame]. }
  destruct (fs (remove_if_exists w2 _) !! compressed_file (i+1) n) as [g|].
  2:{ intros [= <- <-]. apply (R_trans _ w2); [exact H12|frame]. }
  destruct (SPLIT_LIMIT <? size g).
  2:{ intros [= <- <-]. apply (R_trans _ w2); [exact H12|frame]. }
  destruct (recurse _ _ _) as [[w4 sub]|] eqn:Er; [|discriminate].
  intros [= <- <-]. apply Hrec in Er.
  apply (R_trans _ w2); [exact H12|].
  apply (R_trans _ (remove_if_exists w2 (part_file (i+1) n))); [frame|exact Er].
Qed.

Lemma split_part_frame recurse vp cd d n w parts i w' parts' :
  (forall w p c w' ps, recurse w p c = Some (w', ps) -> R w w') ->
  split_part encoder recurse vp cd d n (w, parts) i = Some (w', parts') ->
  R w w'.
Proof.
  intros Hrec E. apply (R_trans _ (log_enc w (first_request vp d n i))).
  - apply R_log_enc.
  - exact (split_part_frame_after_request _ _ _ _ _ _ _ _ _ _ Hrec E).
Qed.

Lemma split_loop_frame recurse vp cd d n :
  (forall w p c w' ps, recurse w p c = Some (w', ps) -> R w w') ->
  forall indices w parts w' parts',
  split_loop encoder recurse vp cd d n indices (w, parts) = Some (w', parts') ->
  R w w'.
Proof.
  intros Hrec. induction indices as [|i l IH]; intros w parts w' parts'.
  - rewrite split_loop_nil. intros [= <- <-]. apply R_refl.
  - rewrite split_loop_cons.
    destruct (split_part _ _ _ _ _ _ _ _) as [[w1 parts1]|] eqn:E; [|discriminate].
    intros Hl. apply (R_trans _ w1).
    + exact (split_part_frame _ _ _ _ _ _ _ _ _ _ Hrec E).
    + exact (IH _ _ _ _ Hl).
Qed.

Lemma split_video_by_size_frame fuel :
  forall w vp cd w' parts,
  split_video_by_size encoder fuel w vp cd = Some (w', parts) -> R w w'.
Proof.
  induction fuel as [|fuel IH]; intros w vp cd w' parts; simpl; [discriminate|].
  destruct (fs w !! vp) as [f|]; [|intros [= <- <-]; apply R_refl].
  destruct (duration f) as [d|]; [|intros [= <- <-]; apply R_refl].
  destruct (size f <=? SPLIT_LIMIT); [intros [= <- <-]; apply R_emit|].
  apply split_loop_frame. exact IH.
Qed.

End Frame.

Section EncoderLog.

Variable encoder : nat -> enc_outcome.

Lemma log_grows_refl a : log_grows a a.
Proof. exists []. symmetry. apply app_nil_r. Qed.

Lemma log_grows_trans a b c : log_grows a b -> log_grows b c -> log_grows a c.
Proof.
  intros [m1 H1] [m2 H2]. exists (m1 ++ m2). rewrite H2, H1. symmetry. apply app_assoc.
Qed.

Lemma log_grows_log_enc a r : log_grows a (log_enc a r).
Proof. exists [r]. reflexivity. Qed.

Lemma log_grows_set_fs a m : log_grows a (set_fs a m).
Proof. exists []. symmetry. apply app_nil_r. Qed.

Lemma log_grows_emit a p sz v : log_grows a (emit a p sz v).
Proof. exists []. symmetry. apply app_nil_r. Qed.

Lemma log_grows_length a b : log_grows a b -> (length (enc_log a) <= length (enc_log b))%nat.
Proof. intros [m ->]. rewrite length_app. lia. Qed.

(** The splitter only appends to the encoder log. *)
Lemma split_enc_log_grows fuel w vp cd w' parts :
  split_video_by_size encoder fuel w vp cd = Some (w', parts) -> log_grows w w'.
Proof.
  apply (split_video_by_size_frame encoder log_grows).
  - exact log_grows_refl.
  - exact log_grows_trans.
  - exact log_grows_log_enc.
  - exact log_grows_set_fs.
  - exact log_grows_emit.
Qed.

Lemma split_part_enc_log_grows fuel vp cd d n w parts i w' parts' :
  split_part encoder (split_video_by_size encoder fuel) vp cd d n (w, parts) i
    = Some (w', parts') ->
  log_grows (log_enc w (first_request vp d n i)) w'.
Proof.
  apply (split_part_frame_after_request encoder log_grows).
  - exact log_grows_refl.
  - exact log_grows_trans.
  - exact log_grows_log_enc.
  - exact log_grows_set_fs.
  - exact log_grows_emit.
  - intros a p c b ps. apply split_enc_log_grows.
Qed.

(** The first-profile requests of the loop appear in the log, in the
    order of the indices. *)
Lemma split_loop_requests fuel vp cd d n : forall indices w parts w' parts',
  split_loop encoder (split_video_by_size encoder fuel) vp cd d n indices (w, parts)
    = Some (w', parts') ->
  exists more, enc_log w' = enc_log w ++ more /\
               sublist (map (first_request vp d n) indices) more.
Proof.
  induction indices as [|i l IH]; intros w parts w' parts'.
  - rewrite split_loop_nil. intros [= <- <-]. exists []. split.
    + symmetry. apply app_nil_r.
    + constructor.
  - rewrite split_loop_cons.
    destruct (split_part _ _ _ _ _ _ _ _) as [[w1 parts1]|] eqn:E; [|discriminate].
    intros Hl. apply split_part_enc_log_grows in E. destruct E as [m1 H1].
    apply IH in Hl. destruct Hl as (m2 & H2 & Hsub).
    exists (first_request vp d n i :: m1 ++ m2). split.
    + rewrite H2, H1. simpl. rewrite <- !app_assoc. reflexivity.
    + simpl. apply sublist_skip. apply sublist_inserts_l. exact Hsub.
Qed.

End EncoderLog.

(** The splitter never calls the transcription service. *)
Lemma split_svc_log_same encoder fuel w vp cd w' parts :
  split_video_by_size encoder fuel w vp cd = Some (w', parts) ->
  svc_log w' = svc_log w.
Proof.
  apply (split_video_by_size_frame encoder (fun a b => svc_log b = svc_log a));
    try reflexivity.
  intros a b c H1 H2. congruence.
Qed.

(** ** C1: parts above the limit *)

Lemma part_file_neq_compressed_file k n : part_file k n <> compressed_file k n.
Proof. unfold part_file, compressed_file, in_temp, TEMP_DIR. simpl. discriminate. Qed.

(** C1, counterexample.  The input exceeds 15MB, the call returns, and the
    first path of the result names a 16MB file: the part is kept after the
    failed second profile, and nothing in the code is a floor. *)
Lemma split_returns_oversized_part :
  exists w' parts,
    split_video_by_size enc_c1 2 w_c1 "temp/v.mp4" 600 = Some (w', parts) /\
    parts = ["temp/part_1_of_2.mp4"; "temp/part_2_of_2.mp4"] /\
    (size <$> fs w' !! "temp/part_1_of_2.mp4") = Some (16 * MB) /\
    SPLIT_LIMIT < 16 * MB.
Proof.
  eexists _, _. split; [vm_compute; reflexivity|].
  split; [reflexivity|]. split; [vm_compute; reflexivity|]. reflexivity.
Qed.

Section SplitterEvidence.

Variable encoder : nat -> enc_outcome.

Lemma lookup_log_grows a b j r :
  log_grows a b -> enc_log a !! j = Some r -> enc_log b !! j = Some r.
Proof. intros [more ->] H. apply lookup_app_l_Some. exact H. Qed.

Lemma held_grows a b c p f :
  log_grows b c -> held encoder a b p f -> held encoder a c p f.
Proof.
  intros Hbc [H|(j & r & Hj & Hr & Hd & Hf)]; [left; exact H|right].
  exists j, r. repeat split; try assumption. exact (lookup_log_grows b c j r Hbc Hr).
Qed.

Lemma held_from a b c p f :
  reached encoder a b -> log_grows b c -> held encoder b c p f -> held encoder a c p f.
Proof.
  intros [Hab Hprov] Hbc [H|(j & r & Hj & Hr & Hd & Hf)].
  - apply (held_grows a b c p f Hbc). apply Hprov. exact H.
  - right. exists j, r. repeat split; try assumption.
    pose proof (log_grows_length a b Hab). lia.
Qed.

Lemma second_pass_failed_grows a b c p :
  log_grows b c -> second_pass_failed encoder a b p -> second_pass_failed encoder a c p.
Proof.
  intros Hbc (j & r & k & n & Hj & Hr & H). exists j, r, k, n.
  split; [exact Hj|]. split; [exact (lookup_log_grows b c j r Hbc Hr)|exact H].
Qed.

Lemma second_pass_failed_from a b c p :
  log_grows a b -> second_pass_failed encoder b c p -> second_pass_failed encoder a c p.
Proof.
  intros Hab (j & r & k & n & Hj & H). exists j, r, k, n.
  split; [|exact H]. pose proof (log_grows_length a b Hab). lia.
Qed.

Lemma justified_grows a b c e :
  log_grows b c -> justified encoder a b e -> justified encoder a c e.
Proof.
  intros Hbc [(f & Hs & Hh) Hw]. split.
  - exists f. split; [exact Hs|exact (held_grows a b c _ f Hbc Hh)].
  - destruct Hw as [Hw|Hw]; [left; exact Hw|right].
    exact (second_pass_failed_grows a b c _ Hbc Hw).
Qed.

Lemma justified_from a b c e :
  reached encoder a b -> log_grows b c -> justified encoder b c e -> justified encoder a c e.
Proof.
  intros Hab Hbc [(f & Hs & Hh) Hw]. split.
  - exists f. split; [exact Hs|exact (held_from a b c _ f Hab Hbc Hh)].
  - destruct Hw as [Hw|Hw]; [left; exact Hw|right].
    exact (second_pass_failed_from a b c _ (proj1 Hab) Hw).
Qed.

Lemma reached_refl a : reached encoder a a.
Proof. split; [apply log_grows_refl|]. intros p f H. left. exact H. Qed.

Lemma reached_trans a b c :
  reached encoder a b -> reached encoder b c -> reached encoder a c.
Proof.
  intros Hab [Hbc Hprov]. split; [exact (log_grows_trans a b c (proj1 Hab) Hbc)|].
  intros p f H. apply (held_from a b c p f Hab Hbc). apply Hprov. exact H.
Qed.

Lemma reached_emit a p sz v : reached encoder a (emit a p sz v).
Proof. split; [apply log_grows_emit|]. intros q f H. left. exact H. Qed.

Lemma reached_remove a p : reached encoder a (remove_if_exists a p).
Proof.
  split; [apply log_grows_set_fs|]. intros q f H. left.
  unfold remove_if_exists in H. simpl in H.
  apply lookup_delete_Some in H. exact (proj2 H).
Qed.

(** One encoder call: the request is logged at the number of the call, and
    the file it leaves, if any, is the one at its destination. *)
Lemma write_videofile_spec w r :
  let w1 := fst (write_videofile encoder w r) in
  let j := List.length (enc_log w) in
  enc_log w1 = enc_log w ++ [r] /\
  enc_log w1 !! j = Some r /\
  snd (write_videofile encoder w r) = enc_raises (encoder j) /\
  emitted w1 = emitted w /\
  (fs w1 !! req_dst r = None -> enc_file (encoder j) = None) /\
  reached encoder w w1.
Proof.
  unfold write_videofile. cbv zeta.
  destruct (enc_file (encoder (length (enc_log w)))) as [g|] eqn:Eg; simpl.
  - split; [reflexivity|]. split; [apply list_lookup_middle; reflexivity|].
    split; [reflexivity|]. split; [reflexivity|]. split.
    + rewrite lookup_insert_eq. discriminate.
    + split; [exists [r]; reflexivity|]. intros p f H. simpl in H.
      destruct (decide (p = req_dst r)) as [->|Hne].
      * rewrite lookup_insert_eq in H. injection H as <-. right.
        exists (length (enc_log w)), r. split; [lia|].
        split; [apply list_lookup_middle; reflexivity|]. split; [reflexivity|exact Eg].
      * rewrite lookup_insert_ne in H by congruence. left. exact H.
  - split; [reflexivity|]. split; [apply list_lookup_middle; reflexivity|].
    split; [reflexivity|]. split; [reflexivity|]. split; [reflexivity|].
    split; [exists [r]; reflexivity|]. intros p f H. left. exact H.
Qed.

Lemma accounted_nil a b : emitted b = emitted a -> accounted encoder a b [].
Proof. intros H. exists []. rewrite app_nil_r. repeat split; [exact H|constructor]. Qed.

Lemma accounted_one a b p sz v :
  emitted b = emitted a ++ [Emit p sz v] ->
  justified encoder a b (Emit p sz v) ->
  accounted encoder a b [p].
Proof.
  intros He Hj. exists [Emit p sz v]. split; [exact He|]. split; [reflexivity|].
  constructor; [exact Hj|constructor].
Qed.

Lemma accounted_app a b c ps qs :
  reached encoder a b -> reached encoder b c ->
  accounted encoder a b ps -> accounted encoder b c qs ->
  accounted encoder a c (ps ++ qs).
Proof.
  intros Hab Hbc (es1 & He1 & -> & Hf1) (es2 & He2 & -> & Hf2).
  exists (es1 ++ es2). split; [rewrite He2, He1, app_assoc; reflexivity|].
  split; [rewrite map_app; reflexivity|]. apply Forall_app. split.
  - eapply Forall_impl; [exact Hf1|]. intros e.
    exact (justified_grows a b c e (proj1 Hbc)).
  - eapply Forall_impl; [exact Hf2|]. intros e.
    exact (justified_from a b c e Hab (proj1 Hbc)).
Qed.

Lemma split_part_accounted recurse video_path cd d n w parts i w' parts' :
  (forall w p c w' ps, recurse w p c = Some (w', ps) ->
     reached encoder w w' /\ accounted encoder w w' ps) ->
  split_part encoder recurse video_path cd d n (w, parts) i = Some (w', parts') ->
  reached encoder w w' /\
  exists new, parts' = parts ++ new /\ accounted encoder w w' new.
Proof.
  intros Hrec. unfold split_part.
  destruct (window d n i) as [t0 t1].
  set (part_path := part_file (i + 1) n).
  set (compressed_path := compressed_file (i + 1) n).
  set (r1 := Req video_path part_path t0 t1 FirstPass).
  set (r2 := Req video_path compressed_path t0 t1 SecondPass).
  destruct (write_videofile_spec w r1) as (Hlog1 & Hat1 & Hraise1 & Hem1 & _ & K1).
  destruct (write_videofile encoder w r1) as [w1 raised1]. simpl in Hlog1, Hat1, Hraise1, Hem1, K1.
  assert (Hnone : reached encoder w w1 /\
            exists new, parts = parts ++ new /\ accounted encoder w w1 new).
  { split; [exact K1|]. exists []. rewrite app_nil_r. split; [reflexivity|].
    apply accounted_nil. exact Hem1. }
  destruct raised1; [intros [= <- <-]; exact Hnone|].
  destruct (fs w1 !! part_path) as [f|] eqn:Ef; [|intros [= <- <-]; exact Hnone].
  clear Hnone.
  assert (Hheld1 : held encoder w w1 part_path f) by (apply (proj2 K1); exact Ef).
  destruct (SPLIT_LIMIT <? size f) eqn:Ebig.
  2:{ intros [= <- <-]. apply Z.ltb_ge in Ebig.
      assert (K : reached encoder w (emit w1 part_path (size f) FirstPassFits)).
      { apply (reached_trans _ w1); [exact K1|apply reached_emit]. }
      split; [exact K|]. exists [part_path]. split; [reflexivity|].
      apply (accounted_one _ _ part_path (size f) FirstPassFits).
      - simpl. rewrite Hem1. reflexivity.
      - split; [|left; exact Ebig].
        exists f. split; [reflexivity|].
        apply (held_grows w w1); [apply log_grows_emit|exact Hheld1]. }
  destruct (write_videofile_spec w1 r2) as (Hlog2 & Hat2 & Hraise2 & Hem2 & Hleft2 & K2).
  destruct (write_videofile encoder w1 r2) as [w2 raised2].
  simpl in Hlog2, Hat2, Hraise2, Hem2, Hleft2, K2.
  assert (K12 : reached encoder w w2) by (apply (reached_trans _ w1); assumption).
  (* the part is kept as it is *)
  assert (Hkept : forall wk p,
            wk = emit w2 p (size f) SecondPassFailed ->
            p = part_path ->
            (enc_raises (encoder (List.length (enc_log w1))) = true \/
             enc_file (encoder (List.length (enc_log w1))) = None) ->
            reached encoder w wk /\
            exists new, parts ++ [p] = parts ++ new /\ accounted encoder w wk new).
  { intros wk p -> -> Hfail.
    assert (K : reached encoder w (emit w2 part_path (size f) SecondPassFailed)).
    { apply (reached_trans _ w2); [exact K12|apply reached_emit]. }
    split; [exact K|]. exists [part_path]. split; [reflexivity|].
    apply (accounted_one _ _ part_path (size f) SecondPassFailed).
    - simpl. rewrite Hem2, Hem1. reflexivity.
    - split.
      + exists f. split; [reflexivity|].
        apply (held_grows w w1); [|exact Hheld1].
        apply (log_grows_trans _ w2); [exact (proj1 K2)|apply log_grows_emit].
      + right. exists (List.length (enc_log w1)), r2, (i + 1)%nat, n.
        split; [exact (log_grows_length _ _ (proj1 K1))|].
        split; [exact Hat2|]. split; [reflexivity|]. split; [reflexivity|].
        split; [reflexivity|exact Hfail]. }
  destruct raised2.
  { intros [= <- <-]. apply (Hkept _ part_path eq_refl eq_refl). left. symmetry. exact Hraise2. }
  destruct (fs w2 !! compressed_path) as [g0|] eqn:Eg0.
  2:{ intros [= <- <-]. apply (Hkept _ part_path eq_refl eq_refl). right.
      apply Hleft2. reflexivity. }
  clear Hkept.
  assert (Eg : fs (remove_if_exists w2 part_path) !! compressed_path = Some g0).
  { unfold remove_if_exists. simpl.
    rewrite lookup_delete_ne by apply part_file_neq_compressed_file. exact Eg0. }
  rewrite Eg.
  assert (K3 : reached encoder w (remove_if_exists w2 part_path)).
  { apply (reached_trans _ w2); [exact K12|apply reached_remove]. }
  assert (Hem3 : emitted (remove_if_exists w2 part_path) = emitted w).
  { simpl. rewrite Hem2, Hem1. reflexivity. }
  destruct (SPLIT_LIMIT <? size g0) eqn:Ebig2.
  2:{ intros [= <- <-]. apply Z.ltb_ge in Ebig2.
      set (w3 := remove_if_exists w2 part_path) in *.
      assert (K : reached encoder w (emit w3 compressed_path (size g0) SecondPassFits)).
      { apply (reached_trans _ w3); [exact K3|apply reached_emit]. }
      split; [exact K|]. exists [compressed_path]. split; [reflexivity|].
      apply (accounted_one _ _ compressed_path (size g0) SecondPassFits).
      - simpl. simpl in Hem3. rewrite Hem3. reflexivity.
      - split; [|left; exact Ebig2].
        exists g0. split; [reflexivity|].
        apply (held_grows w w3); [apply log_grows_emit|].
        apply (proj2 K3). exact Eg. }
  destruct (recurse _ _ _) as [[w4 sub]|] eqn:Er; [|discriminate].
  intros [= <- <-]. destruct (Hrec _ _ _ _ _ Er) as [K4 Hsub].
  split; [exact (reached_trans _ _ _ K3 K4)|].
  exists sub. split; [reflexivity|].
  replace sub with ([] ++ sub) by reflexivity.
  apply (accounted_app w (remove_if_exists w2 part_path) w4); try assumption.
  apply accounted_nil. exact Hem3.
Qed.

Lemma split_loop_accounted recurse video_path cd d n :
  (forall w p c w' ps, recurse w p c = Some (w', ps) ->
     reached encoder w w' /\ accounted encoder w w' ps) ->
  forall indices w parts w' parts',
  split_loop encoder recurse video_path cd d n indices (w, parts) = Some (w', parts') ->
  reached encoder w w' /\
  exists new, parts' = parts ++ new /\ accounted encoder w w' new.
Proof.
  intros Hrec. induction indices as [|i l IH]; intros w parts w' parts'.
  - rewrite split_loop_nil. intros [= <- <-]. split; [apply reached_refl|].
    exists []. rewrite app_nil_r. split; [reflexivity|]. apply accounted_nil. reflexivity.
  - rewrite split_loop_cons.
    destruct (split_part _ _ _ _ _ _ _ _) as [[w1 parts1]|] eqn:E; [|discriminate].
    intros Hl.
    destruct (split_part_accounted _ _ _ _ _ _ _ _ _ _ Hrec E) as (K1 & new1 & -> & H1).
    destruct (IH _ _ _ _ Hl) as (K2 & new2 & -> & H2).
    split; [exact (reached_trans _ _ _ K1 K2)|].
    exists (new1 ++ new2). split; [rewrite app_assoc; reflexivity|].
    exact (accounted_app _ _ _ _ _ K1 K2 H1 H2).
Qed.

Lemma split_video_by_size_accounted fuel :
  forall w video_path cd w' parts,
  split_video_by_size encoder fuel w video_path cd = Some (w', parts) ->
  reached encoder w w' /\ accounted encoder w w' parts.
Proof.
  induction fuel as [|fuel IH]; intros w vp cd w' parts; simpl; [discriminate|].
  destruct (fs w !! vp) as [f|] eqn:Ef.
  2:{ intros [= <- <-]. split; [apply reached_refl|apply accounted_nil; reflexivity]. }
  destruct (duration f) as [d|].
  2:{ intros [= <- <-]. split; [apply reached_refl|apply accounted_nil; reflexivity]. }
  destruct (size f <=? SPLIT_LIMIT) eqn:E.
  { intros [= <- <-]. apply Z.leb_le in E. split; [apply reached_emit|].
    apply (accounted_one _ _ vp (size f) Whole); [reflexivity|].
    split; [|left; exact E]. exists f. split; [reflexivity|]. left. exact Ef. }
  intros Hl. destruct (split_loop_accounted _ _ _ _ _ IH _ _ _ _ _ Hl) as (K & new & -> & H).
  split; [exact K|exact H].
Qed.

End SplitterEvidence.

(** C1, as amended.  Every path in the returned list was appended with a
    measured size, the size of a file the file system held at that path
    during the call: the file there at the start, or one written there by
    an encoder call of the run.  That size is at most 15MB, unless the
    path is a part for which the second profile was run and raised or left
    no file. *)
Theorem split_parts_within_or_kept encoder fuel w video_path chunk_duration w' parts :
  split_video_by_size encoder fuel w video_path chunk_duration = Some (w', parts) ->
  exists es,
    emitted w' = emitted w ++ es /\
    parts = map em_path es /\
    Forall (fun e =>
      (exists f, size f = em_size e /\ held encoder w w' (em_path e) f) /\
      (em_size e <= SPLIT_LIMIT \/ second_pass_failed encoder w w' (em_path e))) es.
Proof.
  intros H. exact (proj2 (split_video_by_size_accounted encoder fuel _ _ _ _ _ H)).
Qed.

Lemma split_parts_within_or_kept_witness :
  exists w' es,
    split_video_by_size enc_c1 2 w_c1 "temp/v.mp4" 600
      = Some (w', ["temp/part_1_of_2.mp4"; "temp/part_2_of_2.mp4"]) /\
    emitted w' = es /\
    Forall (fun e =>
      (exists f, size f = em_size e /\ held enc_c1 w_c1 w' (em_path e) f) /\
      (em_size e <= SPLIT_LIMIT \/ second_pass_failed enc_c1 w_c1 w' (em_path e))) es.
Proof.
  eassert (E : split_video_by_size enc_c1 2 w_c1 "temp/v.mp4" 600 = Some (_, _))
    by (vm_compute; reflexivity).
  destruct (split_parts_within_or_kept _ _ _ _ _ _ _ E) as (es & He & _ & Hf).
  eexists _, es. split; [exact E|]. split; [exact He|exact Hf].
Defined.

(** The sizes above are those measured when a path is appended.  A
    recursive call reuses the file names of the call above it: here it
    overwrites [part_1_of_2.mp4], already in the result, and then removes it
    after the second profile, so the first path returned names no file. *)
Lemma returned_path_can_dangle :
  exists w' parts,
    split_video_by_size enc_reuse 2 w_c1 "temp/v.mp4" 600 = Some (w', parts) /\
    parts = ["temp/part_1_of_2.mp4"; "temp/compressed_part_1_of_2.mp4";
             "temp/part_2_of_2.mp4"] /\
    fs w' !! "temp/part_1_of_2.mp4" = None.
Proof.
  eexists _, _. split; [vm_compute; reflexivity|].
  split; [reflexivity|]. vm_compute. reflexivity.
Qed.

(** ** Chunk count and time windows *)

Lemma num_chunks_of_div total_size :
  0 <= total_size ->
  Z.of_nat (num_chunks_of total_size) = (total_size + SPLIT_LIMIT - 1) / SPLIT_LIMIT.
Proof.
  intros Hpos. unfold num_chunks_of.
  assert (E : Qceiling (inject_Z total_size / inject_Z SPLIT_LIMIT)
              = - ((- total_size) / 15728640)).
  { unfold Qdiv. change (/ inject_Z SPLIT_LIMIT)%Q with (1 # 15728640)%Q.
    unfold Qceiling, Qfloor, Qmult, Qopp, inject_Z. cbn [Qnum Qden].
    rewrite Z.mul_1_r. reflexivity. }
  rewrite E. unfold SPLIT_LIMIT.
  rewrite Z2Nat.id; Z.div_mod_to_equations; lia.
Qed.

(** [num_chunks] is the ceiling of [total_size / 15MB]. *)
Lemma num_chunks_of_ceiling total_size :
  0 <= total_size ->
  (Z.of_nat (num_chunks_of total_size) - 1) * SPLIT_LIMIT < total_size
    <= Z.of_nat (num_chunks_of total_size) * SPLIT_LIMIT.
Proof.
  intros Hpos. rewrite (num_chunks_of_div _ Hpos). unfold SPLIT_LIMIT.
  Z.div_mod_to_equations. lia.
Qed.

Lemma num_chunks_of_ge_2 total_size :
  SPLIT_LIMIT < total_size -> (2 <= num_chunks_of total_size)%nat.
Proof.
  intros Hbig.
  assert (Hpos : 0 <= total_size) by (unfold SPLIT_LIMIT in Hbig; lia).
  pose proof (num_chunks_of_ceiling _ Hpos) as [_ H].
  unfold SPLIT_LIMIT in *. lia.
Qed.

Section Windows.

Variable d : Q.
Variable n : nat.
Hypothesis d_nonneg : (0 <= d)%Q.

Lemma part_duration_nonneg : (0 <= part_duration d n)%Q.
Proof.
  unfold part_duration, b64_div. apply round64_nonneg.
  apply Qmult_le_0_compat; [exact d_nonneg|].
  apply Qinv_le_0_compat. change 0%Q with (inject_Z 0). rewrite <- Zle_Qle. lia.
Qed.

Lemma window_start i :
  fst (window d n i) = b64_mul (inject_Z (Z.of_nat i)) (part_duration d n).
Proof. reflexivity. Qed.

(** The first window starts at 0. *)
Lemma window_first_start : fst (window d n 0) = 0%Q.
Proof.
  rewrite window_start. unfold b64_mul. apply round64_zero.
  change (inject_Z (Z.of_nat 0)) with 0%Q. apply Qmult_0_l.
Qed.

(** A window ends where the next one starts, or at [d] if that comes
    first. *)
Lemma window_end_chain i :
  snd (window d n i) = Qmin (fst (window d n (i + 1))) d.
Proof. reflexivity. Qed.

Lemma window_end_within i : (snd (window d n i) <= d)%Q.
Proof. rewrite window_end_chain. apply Q.le_min_r. Qed.

(** The starts never decrease. *)
Lemma window_starts_monotone i j :
  (i <= j)%nat -> (fst (window d n i) <= fst (window d n j))%Q.
Proof.
  intros Hij. rewrite !window_start. unfold b64_mul. apply round64_le.
  apply Qmult_le_compat_r; [|exact part_duration_nonneg].
  rewrite <- Zle_Qle. lia.
Qed.

(** No window reaches into a later one. *)
Lemma windows_disjoint i j :
  (i < j)%nat -> (snd (window d n i) <= fst (window d n j))%Q.
Proof.
  intros Hij. rewrite window_end_chain.
  apply Qle_trans with (fst (window d n (i + 1))); [apply Q.le_min_l|].
  apply window_starts_monotone. lia.
Qed.

End Windows.

(** ** C2: when the splitter returns *)

Section Termination.

Variable encoder : nat -> enc_outcome.
Variable T : nat.
Hypothesis settled : forall k, (T <= k)%nat -> settles (encoder k) = true.

Lemma split_part_returns fuel recurse vp cd d n w parts i :
  (forall w p c, (T - length (enc_log w) < fuel)%nat -> is_Some (recurse w p c)) ->
  (T - length (enc_log w) < S fuel)%nat ->
  is_Some (split_part encoder recurse vp cd d n (w, parts) i).
Proof.
  intros Hrec Hfuel. unfold split_part.
  destruct (window d n i) as [t0 t1].
  unfold write_videofile at 1.
  destruct (encoder (length (enc_log w))) as [file1 raises1] eqn:E1.
  cbn [enc_file enc_raises].
  destruct raises1; [eexists; reflexivity|].
  match goal with |- context [ fs ?x !! _ ] => set (w1 := x) end.
  assert (L1 : length (enc_log w1) = S (length (enc_log w))).
  { subst w1. destruct file1; simpl; rewrite length_app; simpl; lia. }
  destruct (fs w1 !! part_file (i+1) n) as [f|]; [|eexists; reflexivity].
  destruct (SPLIT_LIMIT <? size f); [|eexists; reflexivity].
  unfold write_videofile.
  destruct (encoder (length (enc_log w1))) as [file2 raises2] eqn:E2.
  cbn [enc_file enc_raises].
  destruct raises2; [eexists; reflexivity|].
  match goal with |- context [ fs ?x !! compressed_file _ _ ] => set (w2 := x) end.
  destruct (fs w2 !! compressed_file (i+1) n) as [c|] eqn:Ec; [|eexists; reflexivity].
  destruct (fs (remove_if_exists w2 _) !! compressed_file (i+1) n) as [g|] eqn:Eg;
    [|eexists; reflexivity].
  destruct (SPLIT_LIMIT <? size g) eqn:Ebig; [|eexists; reflexivity].
  (* a recursive call: the second profile left an oversized file, so the
     encoder had not settled yet *)
  assert (Hlt : (S (length (enc_log w)) < T)%nat).
  { destruct (le_lt_dec T (S (length (enc_log w)))) as [Hle|]; [exfalso|assumption].
    rewrite <- L1 in Hle. apply settled in Hle. rewrite E2 in Hle.
    unfold settles in Hle. cbn [enc_file enc_raises] in Hle.
    destruct file2 as [f2|]; [|discriminate]. simpl in Hle.
    unfold remove_if_exists in Eg. simpl in Eg.
    apply lookup_delete_Some in Eg as [_ Eg].
    subst w2. simpl in Eg. rewrite lookup_insert_eq in Eg. injection Eg as <-.
    lia. }
  assert (L3 : length (enc_log (remove_if_exists w2 (part_file (i+1) n)))
               = S (S (length (enc_log w)))).
  { subst w2. destruct file2; simpl; rewrite length_app, L1; simpl; lia. }
  destruct (Hrec (remove_if_exists w2 (part_file (i+1) n))
              (compressed_file (i+1) n) (cd `div` 2)) as [[w4 sub] ->].
  { rewrite L3. lia. }
  eexists; reflexivity.
Qed.

Lemma split_loop_returns fuel vp cd d n :
  (forall w p c, (T - length (enc_log w) < fuel)%nat ->
                 is_Some (split_video_by_size encoder fuel w p c)) ->
  forall indices w parts,
  (T - length (enc_log w) < S fuel)%nat ->
  is_Some (split_loop encoder (split_video_by_size encoder fuel) vp cd d n
             indices (w, parts)).
Proof.
  intros Hrec. induction indices as [|i l IH]; intros w parts Hfuel.
  - rewrite split_loop_nil. eexists; reflexivity.
  - rewrite split_loop_cons.
    destruct (split_part_returns fuel _ vp cd d n w parts i Hrec Hfuel)
      as [[w1 parts1] E].
    rewrite E. apply IH.
    apply split_part_enc_log_grows, log_grows_length in E.
    simpl in E. rewrite length_app in E. simpl in E. lia.
Qed.

Lemma split_video_by_size_returns fuel : forall w vp cd,
  (T - length (enc_log w) < fuel)%nat ->
  is_Some (split_video_by_size encoder fuel w vp cd).
Proof.
  induction fuel as [|fuel IH]; intros w vp cd Hfuel; [lia|].
  simpl.
  destruct (fs w !! vp) as [f|]; [|eexists; reflexivity].
  destruct (duration f) as [d|]; [|eexists; reflexivity].
  destruct (size f <=? SPLIT_LIMIT); [eexists; reflexivity|].
  apply split_loop_returns; assumption.
Qed.

End Termination.

Lemma split_loop_stuck encoder recurse vp cd d n l :
  fold_left
    (fun (st : option (world * list string)) i =>
       match st with
       | None => None
       | Some a => split_part encoder recurse vp cd d n a i
       end) l None = None.
Proof. induction l; simpl; auto. Qed.

Lemma stubborn_never_returns fuel : forall w vp cd f,
  fs w !! vp = Some f ->
  SPLIT_LIMIT < size f ->
  is_Some (duration f) ->
  split_video_by_size stubborn fuel w vp cd = None.
Proof.
  induction fuel as [|fuel IH]; intros w vp cd f Hf Hbig [d Hd]; [reflexivity|].
  simpl. rewrite Hf, Hd.
  destruct (size f <=? SPLIT_LIMIT) eqn:E; [lia|].
  pose proof (num_chunks_of_ge_2 _ Hbig) as Hn.
  destruct (num_chunks_of (size f)) as [|n]; [lia|].
  change (seq 0 (S n)) with (0%nat :: seq 1 n).
  rewrite split_loop_cons.
  assert (Hpart : split_part stubborn (split_video_by_size stubborn fuel) vp cd d (S n)
                    (w, []) 0 = None); [|rewrite Hpart; reflexivity].
  unfold split_part. destruct (window d (S n) 0) as [t0 t1].
  unfold write_videofile, stubborn. cbn [enc_file enc_raises].
  simpl fs. rewrite lookup_insert_eq. cbn [size].
  change (SPLIT_LIMIT <? 16 * MB) with true. cbv iota.
  simpl fs. rewrite lookup_insert_eq.
  unfold remove_if_exists. simpl fs.
  rewrite lookup_delete_ne by apply part_file_neq_compressed_file.
  rewrite lookup_insert_eq. cbn [size].
  change (SPLIT_LIMIT <? 16 * MB) with true. cbv iota.
  erewrite IH; [reflexivity| | |].
  - simpl fs. rewrite lookup_delete_ne by apply part_file_neq_compressed_file.
    apply lookup_insert_eq.
  - reflexivity.
  - eexists; reflexivity.
Qed.

(** C2, counterexample.  On a 20MB video, with the encoder that writes 16MB
    whatever the profile, the call does not return for any amount of fuel:
    every level recurses on its first compressed part. *)
Lemma split_unbounded_recursion :
  fs w_c1 !! "temp/v.mp4" = Some (File (20 * MB) (Some (700 # 1))) /\
  forall fuel, split_video_by_size stubborn fuel w_c1 "temp/v.mp4" 600 = None.
Proof.
  split; [reflexivity|]. intros fuel.
  apply (stubborn_never_returns fuel w_c1 "temp/v.mp4" 600 (File (20 * MB) (Some (700 # 1)))).
  - reflexivity.
  - reflexivity.
  - eexists; reflexivity.
Qed.

(** C2, as amended.  There is no depth or duration floor; the call returns
    once the encoder has settled: if from its [T]-th call on every encoder
    call raises or writes a file of at most 15MB, then [T + 1] levels of
    recursion are enough, whatever the input and the files already there. *)
Theorem split_returns_once_encoder_settles encoder T w video_path chunk_duration :
  (forall k, (T <= k)%nat -> settles (encoder k) = true) ->
  exists w' parts,
    split_video_by_size encoder (S T) w video_path chunk_duration = Some (w', parts).
Proof.
  intros Hs.
  destruct (split_video_by_size_returns encoder T Hs (S T) w video_path chunk_duration)
    as [[w' parts] E]; [lia|].
  exists w', parts. exact E.
Qed.

Lemma split_returns_once_encoder_settles_witness :
  exists w' parts,
    split_video_by_size enc_c1 3 w_c1 "temp/v.mp4" 600 = Some (w', parts).
Proof.
  apply (split_returns_once_encoder_settles enc_c1 2).
  intros [|[|k]] Hk; [lia|lia|reflexivity].
Defined.

(** The splitter never reads [chunk_duration]: it only halves it and hands
    it to the recursive call. *)
Lemma split_part_ignores_chunk_duration encoder recurse vp c1 c2 d n acc i :
  (forall w p a b, recurse w p a = recurse w p b) ->
  split_part encoder recurse vp c1 d n acc i =
  split_part encoder recurse vp c2 d n acc i.
Proof.
  intros Hrec. unfold split_part. destruct acc as [w parts].
  destruct (window d n i) as [t0 t1].
  destruct (write_videofile encoder w _) as [w1 r1].
  destruct r1; [reflexivity|].
  destruct (fs w1 !! part_file (i+1) n) as [f|]; [|reflexivity].
  destruct (SPLIT_LIMIT <? size f); [|reflexivity].
  destruct (write_videofile encoder w1 _) as [w2 r2].
  destruct r2; [reflexivity|].
  destruct (fs w2 !! compressed_file (i+1) n); [|reflexivity].
  destruct (fs (remove_if_exists w2 _) !! compressed_file (i+1) n) as [g|]; [|reflexivity].
  destruct (SPLIT_LIMIT <? size g); [|reflexivity].
  rewrite (Hrec _ _ (c1 `div` 2) (c2 `div` 2)). reflexivity.
Qed.

Lemma split_loop_ignores_chunk_duration encoder recurse vp c1 c2 d n :
  (forall w p a b, recurse w p a = recurse w p b) ->
  forall indices acc,
  split_loop encoder recurse vp c1 d n indices acc =
  split_loop encoder recurse vp c2 d n indices acc.
Proof.
  intros Hrec. induction indices as [|i l IH]; intros acc; [reflexivity|].
  rewrite !split_loop_cons.
  rewrite (split_part_ignores_chunk_duration encoder recurse vp c1 c2 d n acc i Hrec).
  destruct (split_part encoder recurse vp c2 d n acc i); [apply IH|reflexivity].
Qed.

Lemma split_ignores_chunk_duration encoder fuel : forall w vp c1 c2,
  split_video_by_size encoder fuel w vp c1 = split_video_by_size encoder fuel w vp c2.
Proof.
  induction fuel as [|fuel IH]; intros w vp c1 c2; [reflexivity|].
  simpl. destruct (fs w !! vp) as [f|]; [|reflexivity].
  destruct (duration f) as [d|]; [|reflexivity].
  destruct (size f <=? SPLIT_LIMIT); [reflexivity|].
  apply split_loop_ignores_chunk_duration. intros a p x y. apply IH.
Qed.

(** A file within the limit is handed back as it is, whatever
    [chunk_duration] says. *)
Lemma split_small_file_is_identity encoder fuel w vp cd f d :
  fs w !! vp = Some f ->
  duration f = Some d ->
  size f <= SPLIT_LIMIT ->
  split_video_by_size encoder (S fuel) w vp cd = Some (emit w vp (size f) Whole, [vp]).
Proof.
  intros Hf Hd Hs. simpl. rewrite Hf, Hd.
  destruct (size f <=? SPLIT_LIMIT) eqn:E; [reflexivity|lia].
Qed.

(** ** C6: the time windows *)

(** C6, counterexample.  A 40MB video of 770.9 s is cut in three; with
    an encoder that gets every part under the limit the loop sends three
    requests, and the last of them ends at [3 * (770.9 / 3)], which in
    float arithmetic is 770.8999999999999: the end of the video is in no
    window. *)
Lemma last_window_ends_before_the_duration :
  exists w' parts last_end,
    split_video_by_size enc_small 1 w_c6 "temp/v.mp4" 600 = Some (w', parts) /\
    num_chunks_of (40 * MB) = 3%nat /\
    (req_end <$> enc_log w' !! 2%nat) = Some last_end /\
    List.length (enc_log w') = 3%nat /\
    last_end = snd (window d_c6 3 2) /\
    last_end = (3390454055410073 # 4398046511104)%Q /\
    d_c6 = (6780908110820147 # 8796093022208)%Q /\
    (last_end < d_c6)%Q.
Proof.
  eexists _, _, _. split; [vm_compute; reflexivity|].
  split; [vm_compute; reflexivity|].
  split; [vm_compute; reflexivity|].
  split; [vm_compute; reflexivity|].
  split; [vm_compute; reflexivity|].
  split; [reflexivity|]. split; [vm_compute; reflexivity|]. reflexivity.
Qed.

(** C6, as amended.  For a video above 15MB with duration [d >= 0]:
    [num_chunks] is the ceiling of [size / 15MB]; window [i] is
    [[i * pd, min ((i+1) * pd, d)]] with [pd = d / num_chunks], all in float
    arithmetic.  The first window starts at 0; the starts never decrease;
    each window ends where the next one starts or at [d], whichever comes
    first, so no window reaches into a later one and none ends after [d].
    These windows, in this order, are what the loop asks the encoder to
    cut, and it does ask once the encoder has settled.  That the last
    window ends at [d] is not among these facts: it does not hold. *)
Theorem split_windows_end_to_end total_size d :
  SPLIT_LIMIT < total_size ->
  (0 <= d)%Q ->
  let n := num_chunks_of total_size in
  let pd := b64_div d (inject_Z (Z.of_nat n)) in
  ((Z.of_nat n - 1) * SPLIT_LIMIT < total_size <= Z.of_nat n * SPLIT_LIMIT) /\
  (forall i, window d n i =
     (b64_mul (inject_Z (Z.of_nat i)) pd,
      Qmin (b64_mul (inject_Z (Z.of_nat (i + 1))) pd) d)) /\
  fst (window d n 0) = 0%Q /\
  (forall i, snd (window d n i) = Qmin (fst (window d n (i + 1))) d) /\
  (forall i j, (i <= j)%nat -> (fst (window d n i) <= fst (window d n j))%Q) /\
  (forall i j, (i < j)%nat -> (snd (window d n i) <= fst (window d n j))%Q) /\
  (forall i, (snd (window d n i) <= d)%Q) /\
  (forall encoder fuel w video_path chunk_duration w' parts,
     fs w !! video_path = Some (File total_size (Some d)) ->
     split_video_by_size encoder fuel w video_path chunk_duration = Some (w', parts) ->
     exists more,
       enc_log w' = enc_log w ++ more /\
       sublist (map (first_request video_path d n) (seq 0 n)) more) /\
  (forall encoder T w video_path chunk_duration,
     fs w !! video_path = Some (File total_size (Some d)) ->
     (forall k, (T <= k)%nat -> settles (encoder k) = true) ->
     exists w' parts more,
       split_video_by_size encoder (S T) w video_path chunk_duration = Some (w', parts) /\
       enc_log w' = enc_log w ++ more /\
       sublist (map (first_request video_path d n) (seq 0 n)) more).
Proof.
  intros Hbig Hd n pd.
  assert (Hpos : 0 <= total_size) by (unfold SPLIT_LIMIT in Hbig; lia).
  assert (Hlog : forall encoder fuel w video_path chunk_duration w' parts,
     fs w !! video_path = Some (File total_size (Some d)) ->
     split_video_by_size encoder fuel w video_path chunk_duration = Some (w', parts) ->
     exists more,
       enc_log w' = enc_log w ++ more /\
       sublist (map (first_request video_path d n) (seq 0 n)) more).
  { intros encoder fuel w vp cd w' parts Hf Hrun.
    destruct fuel as [|fuel]; [discriminate|].
    simpl in Hrun. rewrite Hf in Hrun. cbn [duration size] in Hrun.
    destruct (total_size <=? SPLIT_LIMIT) eqn:E; [lia|].
    apply split_loop_requests in Hrun. exact Hrun. }
  split; [apply num_chunks_of_ceiling; exact Hpos|].
  split; [reflexivity|].
  split; [apply window_first_start|].
  split; [intros i; apply window_end_chain|].
  split; [intros i j Hij; apply window_starts_monotone; assumption|].
  split; [intros i j Hij; apply windows_disjoint; assumption|].
  split; [intros i; apply window_end_within|].
  split; [exact Hlog|].
  intros encoder T w vp cd Hf Hs.
  destruct (split_video_by_size_returns encoder T Hs (S T) w vp cd) as [[w' parts] E]; [lia|].
  destruct (Hlog encoder (S T) w vp cd w' parts Hf E) as (more & Hm & Hsub).
  exists w', parts, more. split; [exact E|]. split; [exact Hm|exact Hsub].
Qed.

Lemma split_windows_end_to_end_witness :
  snd (window (700 # 1) (num_chunks_of (20 * MB)) 0)
    = Qmin (fst (window (700 # 1) (num_chunks_of (20 * MB)) 1)) (700 # 1) /\
  (snd (window (700 # 1) (num_chunks_of (20 * MB)) 1) <= 700 # 1)%Q.
Proof.
  assert (Hbig : SPLIT_LIMIT < 20 * MB) by reflexivity.
  assert (Hd : (0 <= 700 # 1)%Q) by (unfold Qle; simpl; lia).
  destruct (split_windows_end_to_end (20 * MB) (700 # 1) Hbig Hd)
    as (_ & _ & _ & Hchain & _ & _ & Hend & _).
  split; [exact (Hchain 0%nat) | exact (Hend 1%nat)].
Defined.

(** ** The orchestrator *)

Section OrchestratorFacts.

Variable encoder : nat -> enc_outcome.
Variable service : nat -> svc_outcome.









End OrchestratorFacts.

(** ** C3: total loss *)



(** ** C9: files within the 25MB ceiling *)

(** C9, counterexample.  A 20MB video of 700 s is within the 25MB ceiling,
    yet [transcribe_audio] finds it longer than 600 s and has it split:
    two encoder requests, two calls of the service. *)
Lemma small_file_is_split_when_long :
  exists w' r,
    20 * MB <= MAX_FILE_SIZE /\
    process_video enc_small svc_c3 2 w_c1 "temp/v.mp4" = Some (w', r) /\
    svc_log w' = ["temp/part_1_of_2.mp4"; "temp/part_2_of_2.mp4"] /\
    List.length (enc_log w') = 2%nat.
Proof.
  eexists _, _. split; [discriminate|].
  split; [vm_compute; reflexivity|]. split; reflexivity.
Qed.

(** C9, as amended.  A file of at most 25MB whose duration is at most 600 s
    is sent to the service whole, in one call, and nothing is encoded: the
    world afterwards is the one before, plus that call. *)
Theorem short_small_file_one_call encoder service fuel w video_path f d :
  fs w !! video_path = Some f ->
  size f <= MAX_FILE_SIZE ->
  duration f = Some d ->
  (d <= 600)%Q ->
  process_video encoder service fuel w video_path =
    Some (log_svc w video_path,
          match service (List.length (svc_log w)) with
          | SvcText t => Transcript t
          | SvcError _ => TranscriptionRaised
          end) /\
  svc_log (log_svc w video_path) = svc_log w ++ [video_path] /\
  enc_log (log_svc w video_path) = enc_log w /\
  fs (log_svc w video_path) = fs w.
Proof.
  intros Hf Hsize Hd Hshort. split; [|repeat split].
  unfold process_video. rewrite Hf.
  destruct (size f <=? MAX_FILE_SIZE) eqn:E; [|lia].
  unfold transcribe_audio. rewrite Hf, Hd.
  assert (Hle : Qle_bool d (inject_Z 600) = true) by (apply Qle_bool_iff; exact Hshort).
  rewrite Hle. unfold transcribe_call.
  destruct (service (List.length (svc_log w))); reflexivity.
Qed.

Lemma short_small_file_one_call_witness :
  process_video enc_small svc_c3 0 w_short "temp/v.mp4"
    = Some (log_svc w_short "temp/v.mp4", Transcript "ola").
Proof.
  refine (proj1 (short_small_file_one_call enc_small svc_c3 0 w_short "temp/v.mp4"
                   (File (20 * MB) (Some (300 # 1))) (300 # 1) _ _ _ _)).
  - reflexivity.
  - discriminate.
  - reflexivity.
  - discriminate.
Defined.

(** ** C7: the re-split after a token-limit error *)

Lemma token_limit_error_example : token_limit_error "Token limit exceeded" = true.
Proof. reflexivity. Qed.

(** The test lower-cases the message as Python does: U+212A KELVIN SIGN
    counts as a [k]. *)
Lemma token_limit_error_kelvin_sign : token_limit_error "TOKEN LIMIT" = true.
Proof. reflexivity. Qed.

(** C7.  When the service answers a chunk of at most 15MB with a
    token-limit error, the "re-split" hands back the chunk itself: nothing
    is encoded, and the same file is sent to the service a second time. *)
Theorem resplit_resends_same_chunk
    encoder service fuel chunk_duration w transcripts i chunk_path f d e :
  fs w !! chunk_path = Some f ->
  duration f = Some d ->
  size f <= SPLIT_LIMIT ->
  service (List.length (svc_log w)) = SvcError e ->
  token_limit_error e = true ->
  exists w',
    transcribe_chunk encoder service (S fuel) chunk_duration (w, transcripts) (i, chunk_path)
      = Some (w', transcripts ++
                  [match service (S (List.length (svc_log w))) with
                   | SvcText t => t
                   | SvcError _ => subpart_failed (i + 1) 1
                   end]) /\
    svc_log w' = svc_log w ++ [chunk_path; chunk_path] /\
    enc_log w' = enc_log w.
Proof.
  intros Hf Hd Hsize Hsvc Htok.
  unfold transcribe_chunk. rewrite Hf. unfold transcribe_call at 1. rewrite Hsvc, Htok.
  rewrite (split_small_file_is_identity encoder fuel (log_svc w chunk_path) chunk_path
             (chunk_duration `div` 2) f d Hf Hd Hsize).
  unfold enumerate. simpl fold_left. rewrite Hf. unfold transcribe_call. simpl.
  rewrite length_app. simpl. rewrite Nat.add_1_r.
  eexists. split; [reflexivity|]. simpl. rewrite <- app_assoc. split; reflexivity.
Qed.

Lemma resplit_resends_same_chunk_witness :
  exists w',
    transcribe_chunk enc_small svc_token_limit 1 600 (w_c7, []) (0%nat, "temp/v.mp4")
      = Some (w', [subpart_failed 1 1]) /\
    svc_log w' = ["temp/v.mp4"; "temp/v.mp4"] /\
    enc_log w' = [].
Proof.
  refine (resplit_resends_same_chunk enc_small svc_token_limit 0 600 w_c7 [] 0
            "temp/v.mp4" (File (10 * MB) (Some (700 # 1))) (700 # 1)
            "Token limit exceeded" _ _ _ _ _).
  - reflexivity.
  - reflexivity.
  - discriminate.
  - reflexivity.
  - reflexivity.
Defined.

(** The same input through [transcribe_audio]: the transcript is the
    marker of sub-part 1.1, after two calls on the unchanged file. *)
Lemma token_limit_run :
  exists w',
    transcribe_audio enc_small svc_token_limit 1 w_c7 "temp/v.mp4"
      = Some (w', Returned (subpart_failed 1 1)) /\
    svc_log w' = ["temp/v.mp4"; "temp/v.mp4"] /\
    enc_log w' = [].
Proof. eexists. split; [vm_compute; reflexivity|]. split; reflexivity. Qed.

(** ** C8: attempts and backoff *)

Section AnalysisFacts.

Variable chat : nat -> chat_outcome.

Lemma backoff_S retry_delay k :
  backoff retry_delay (S k) = retry_delay :: backoff (retry_delay * 2) k.
Proof.
  unfold backoff. simpl seq. simpl map. f_equal; [lia|].
  rewrite <- seq_shift, map_map. apply map_ext. intros j.
  rewrite Nat2Z.inj_succ, Z.pow_succ_r by lia. lia.
Qed.



End AnalysisFacts.




(** ** C4, C5: the cost ledger *)

Lemma is_float_0 : is_float 0.
Proof. reflexivity. Qed.

Lemma is_float_b64_add x y : is_float (b64_add x y).
Proof. apply round64_idem. Qed.

(** A step that cannot damage the file keeps the ledger in order and does
    not lower the total on file. *)
Lemma ledger_step_ok st op :
  ledger_ok st -> regular op ->
  ledger_ok (ledger_step st op) /\
  (durable_total (snd st) <= durable_total (snd (ledger_step st op)))%Q.
Proof.
  destruct st as [t disk]. intros (Ht & Hd & Hle) Hop. simpl in Ht, Hd, Hle.
  destruct op as [fate cost now1 now2|]; simpl in Hop.
  - destruct Hop as [[-> | ->] Hcost].
    + change (ledger_step (t, disk) (Commit Completes cost now1 now2))
        with (Tracker (b64_add (total_cost t) cost) now1,
              Stored (Some (b64_add (total_cost t) cost)) (Some now2)).
      change (durable_total (snd (Tracker (b64_add (total_cost t) cost) now1,
                Stored (Some (b64_add (total_cost t) cost)) (Some now2))))
        with (b64_add (total_cost t) cost).
      split.
      * split; [apply is_float_b64_add|]. split; [apply is_float_b64_add|apply Qle_refl].
      * simpl snd. apply Qle_trans with (total_cost t); [exact Hle|].
        apply b64_add_ge; assumption.
    + change (ledger_step (t, disk) (Commit OpenRaises cost now1 now2))
        with (Tracker (b64_add (total_cost t) cost) now1, disk).
      split; [|apply Qle_refl].
      split; [apply is_float_b64_add|]. split; [exact Hd|].
      simpl. apply Qle_trans with (total_cost t); [exact Hle|].
      apply b64_add_ge; assumption.
  - change (ledger_step (t, disk) Relaunch) with (new_tracker disk, disk).
    split; [|apply Qle_refl].
    split; [exact Hd|]. split; [exact Hd|apply Qle_refl].
Qed.

Lemma durable_totals_nondecreasing : forall ops st,
  ledger_ok st -> Forall regular ops ->
  nondecreasing (durable_total (snd st) :: durable_totals st ops).
Proof.
  induction ops as [|op ops IH]; intros st Hok Hreg; [exact I|].
  inversion Hreg as [|? ? Hop Hrest]; subst.
  destruct (ledger_step_ok st op Hok Hop) as [Hok' Hle].
  change (durable_totals st (op :: ops))
    with (durable_total (snd (ledger_step st op)) :: durable_totals (ledger_step st op) ops).
  split; [exact Hle|]. apply IH; assumption.
Qed.

(** C4, counterexample.  The ledger holds 5; [add_cost(1)] is called and
    returns, the tracker holding 6, but the write fails after [open]
    emptied the file and [save] swallows the exception: a process started
    afterwards reads a total of 0. *)
Lemma swallowed_write_failure_lowers_the_ledger :
  exists t' disk',
    add_cost DumpRaises (new_tracker disk_c5) (1 # 1)
             "2025-01-02 10:00:00" "2025-01-02 10:00:00" disk_c5 = (Some t', disk') /\
    (0 <= 1 # 1)%Q /\
    durable_total disk_c5 = (5 # 1)%Q /\
    total_cost t' = (6 # 1)%Q /\
    durable_total disk' = 0%Q /\
    (durable_total disk' < durable_total disk_c5)%Q.
Proof.
  eexists _, _. split; [reflexivity|]. split; [discriminate|].
  split; [reflexivity|]. split; [vm_compute; reflexivity|].
  split; reflexivity.
Qed.

(** C4, as amended.  A call of [add_cost] with a non-negative cost leaves
    the tracker with the float sum of the old total and the cost, which is
    not below the old total, however the write to the file goes.  Over the
    life of a deployment that starts from the ledger file (absent or not),
    commits non-negative costs and restarts at will, the total on file
    after each step is not below the one before, as long as every write
    completes or fails at [open]; a completed write leaves on file the
    tracker's new total. *)
Theorem ledger_total_never_decreases :
  (forall fate t cost now1 now2 disk t' disk',
     (0 <= cost)%Q ->
     is_float (total_cost t) ->
     add_cost fate t cost now1 now2 disk = (Some t', disk') ->
     (total_cost t <= total_cost t')%Q /\
     total_cost t' = b64_add (total_cost t) cost) /\
  (forall disk ops,
     is_float (durable_total disk) ->
     Forall regular ops ->
     nondecreasing (durable_total disk :: durable_totals (new_tracker disk, disk) ops)) /\
  (forall t disk cost now1 now2,
     durable_total (snd (ledger_step (t, disk) (Commit Completes cost now1 now2)))
       = b64_add (total_cost t) cost).
Proof.
  split; [|split].
  - intros fate t cost now1 now2 disk t' disk' Hcost Hfloat Hadd.
    assert (Ht' : t' = Tracker (b64_add (total_cost t) cost) now1).
    { destruct fate; unfold add_cost, save in Hadd; congruence. }
    subst t'. cbn [total_cost]. split; [|reflexivity].
    apply b64_add_ge; assumption.
  - intros disk ops Hfloat Hreg.
    apply (durable_totals_nondecreasing ops (new_tracker disk, disk)); [|exact Hreg].
    split; [exact Hfloat|]. split; [exact Hfloat|apply Qle_refl].
  - intros t disk cost now1 now2. reflexivity.
Qed.

Lemma ledger_total_never_decreases_witness :
  nondecreasing
    (durable_total Missing ::
     durable_totals (new_tracker Missing, Missing)
       [Commit Completes (3 # 100) "2025-01-01 10:00:00" "2025-01-01 10:00:00";
        Relaunch;
        Commit OpenRaises (2 # 100) "2025-01-02 09:00:00" "2025-01-02 09:00:00";
        Commit Completes (1 # 100) "2025-01-02 10:00:00" "2025-01-02 10:00:01"]).
Proof.
  apply (proj1 (proj2 ledger_total_never_decreases)).
  - reflexivity.
  - repeat constructor; discriminate.
Defined.

(** C5, counterexample.  The process dies inside [save], after
    [open(..., 'w')] emptied the file: what is left is neither the old
    record nor the new one, and the next process starts from 0. *)
Lemma interrupted_save_loses_the_ledger :
  exists disk',
    add_cost Killed (new_tracker disk_c5) (1 # 1)
             "2025-01-02 10:00:00" "2025-01-02 10:00:00" disk_c5 = (None, disk') /\
    disk' <> disk_c5 /\
    (forall stamp, disk' <> Stored (Some (b64_add (5 # 1) (1 # 1))) stamp) /\
    total_cost (new_tracker disk') = 0%Q /\
    ~ (durable_total disk' == 5 # 1)%Q /\
    ~ (durable_total disk' == 6 # 1)%Q.
Proof.
  exists Unreadable. repeat split; try discriminate.
Qed.

(** C5, as amended.  [add_cost] writes the ledger in place before it
    returns.  When the write completes the file holds the new total and the
    time of the write; when [open] raises the file is as before; when the
    write is cut short after [open] the file is left unusable and a new
    process starts from 0.  In every case a new process starts from the new
    total, the old one, or 0. *)
Theorem add_cost_writes_in_place fate t cost now1 now2 disk :
  let new_total := b64_add (total_cost t) cost in
  let result := add_cost fate t cost now1 now2 disk in
  match fate with
  | Completes =>
    result = (Some (Tracker new_total now1), Stored (Some new_total) (Some now2)) /\
    durable_total (snd result) = new_total
  | OpenRaises =>
    result = (Some (Tracker new_total now1), disk)
  | DumpRaises =>
    result = (Some (Tracker new_total now1), Unreadable) /\
    durable_total (snd result) = 0%Q
  | Killed =>
    result = (None, Unreadable) /\
    durable_total (snd result) = 0%Q
  end /\
  (durable_total (snd result) = new_total \/
   durable_total (snd result) = durable_total disk \/
   durable_total (snd result) = 0%Q).
Proof.
  destruct fate; cbv zeta; unfold add_cost, save; cbn [snd]; repeat split; auto.
Qed.

(** ** C10: the processed-id record *)

(** C10.  With a JSON codec that reads back the arrays it writes: saving a
    set of ids and loading the file gives the set back; what is written is
    the sorted list of its elements. *)
Theorem processed_ids_round_trip
    (contents : Type) (json_dump : list string -> contents)
    (json_load : contents -> option (list string)) (truncated : contents)
    (processed_ids : gset string) (disk : option contents) :
  (forall id_list, json_load (json_dump id_list) = Some id_list) ->
  load_processed_ids contents json_load
    (save_processed_ids contents json_dump truncated Completes processed_ids disk)
    = processed_ids /\
  save_processed_ids contents json_dump truncated Completes processed_ids disk
    = Some (json_dump (sorted_ids processed_ids)) /\
  Sorted string_le (sorted_ids processed_ids) /\
  sorted_ids processed_ids ≡ₚ elements processed_ids.
Proof.
  intros Hcodec. unfold save_processed_ids, load_processed_ids, sorted_ids.
  rewrite Hcodec. repeat split.
  - rewrite (list_to_set_perm_L _ _ (merge_sort_Permutation string_le _)).
    apply list_to_set_elements_L.
  - apply Sorted_merge_sort. apply _.
  - apply merge_sort_Permutation.
Qed.

Lemma processed_ids_round_trip_witness :
  load_processed_ids (list string) Some
    (save_processed_ids (list string) (fun l => l) [] Completes
       ({[ "1AbC" ]} ∪ {[ "0xYz" ]}) None)
  = {[ "1AbC" ]} ∪ {[ "0xYz" ]}.
Proof.
  apply (processed_ids_round_trip (list string) (fun l => l) Some []).
  intros id_list. reflexivity.
Defined.

(** * Further properties *)

(** ** The splitter and the files it is not given *)

Section SplitterFootprint.

Variable encoder : nat -> enc_outcome.

Lemma same_elsewhere_refl a : same_elsewhere a a.
Proof. intros p _. reflexivity. Qed.

Lemma same_elsewhere_trans a b c :
  same_elsewhere a b -> same_elsewhere b c -> same_elsewhere a c.
Proof. intros H1 H2 p Hp. rewrite (H2 p Hp). apply H1. exact Hp. Qed.

Lemma same_elsewhere_emit a p sz v : same_elsewhere a (emit a p sz v).
Proof. intros q _. reflexivity. Qed.

Lemma same_elsewhere_remove a p :
  scratch_name p -> same_elsewhere a (remove_if_exists a p).
Proof.
  intros Hp q Hq. unfold remove_if_exists. simpl.
  apply lookup_delete_ne. intros ->. contradiction.
Qed.

Lemma same_elsewhere_write a r :
  scratch_name (req_dst r) -> same_elsewhere a (fst (write_videofile encoder a r)).
Proof.
  intros Hp q Hq. unfold write_videofile. simpl.
  destruct (enc_file _); simpl; [|reflexivity].
  apply lookup_insert_ne. intros E. rewrite E in Hp. contradiction.
Qed.

Lemma scratch_part k n : scratch_name (part_file k n).
Proof. exists k, n. left. reflexivity. Qed.

Lemma scratch_compressed k n : scratch_name (compressed_file k n).
Proof. exists k, n. right. reflexivity. Qed.

Lemma split_part_same_elsewhere recurse vp cd d n w parts i w' parts' :
  (forall w p c w' ps, recurse w p c = Some (w', ps) -> same_elsewhere w w') ->
  split_part encoder recurse vp cd d n (w, parts) i = Some (w', parts') ->
  same_elsewhere w w'.
Proof.
  intros Hrec. unfold split_part.
  destruct (window d n i) as [t0 t1].
  pose proof (same_elsewhere_write w (Req vp (part_file (i+1) n) t0 t1 FirstPass)
                (scratch_part _ _)) as H1.
  destruct (write_videofile encoder w _) as [w1 r1]. simpl in H1.
  destruct r1; [intros [= <- <-]; exact H1|].
  destruct (fs w1 !! part_file (i+1) n) as [f|]; [|intros [= <- <-]; exact H1].
  destruct (SPLIT_LIMIT <? size f).
  2:{ intros [= <- <-]. exact H1. }
  pose proof (same_elsewhere_write w1 (Req vp (compressed_file (i+1) n) t0 t1 SecondPass)
                (scratch_compressed _ _)) as H2.
  destruct (write_videofile encoder w1 _) as [w2 r2]. simpl in H2.
  assert (H12 : same_elsewhere w w2) by (eapply same_elsewhere_trans; eassumption).
  destruct r2; [intros [= <- <-]; exact H12|].
  destruct (fs w2 !! compressed_file (i+1) n); [|intros [= <- <-]; exact H12].
  assert (H3 : same_elsewhere w (remove_if_exists w2 (part_file (i+1) n))).
  { eapply same_elsewhere_trans; [exact H12|].
    apply same_elsewhere_remove, scratch_part. }
  destruct (fs (remove_if_exists w2 _) !! compressed_file (i+1) n) as [g|].
  2:{ intros [= <- <-]. exact H3. }
  destruct (SPLIT_LIMIT <? size g).
  2:{ intros [= <- <-]. exact H3. }
  destruct (recurse _ _ _) as [[w4 sub]|] eqn:Er; [|discriminate].
  intros [= <- <-]. apply Hrec in Er.
  eapply same_elsewhere_trans; eassumption.
Qed.

Lemma split_loop_same_elsewhere recurse vp cd d n :
  (forall w p c w' ps, recurse w p c = Some (w', ps) -> same_elsewhere w w') ->
  forall indices w parts w' parts',
  split_loop encoder recurse vp cd d n indices (w, parts) = Some (w', parts') ->
  same_elsewhere w w'.
Proof.
  intros Hrec. induction indices as [|i l IH]; intros w parts w' parts'.
  - rewrite split_loop_nil. intros [= <- <-]. apply same_elsewhere_refl.
  - rewrite split_loop_cons.
    destruct (split_part _ _ _ _ _ _ _ _) as [[w1 parts1]|] eqn:E; [|discriminate].
    intros Hl. eapply same_elsewhere_trans.
    + exact (split_part_same_elsewhere _ _ _ _ _ _ _ _ _ _ Hrec E).
    + exact (IH _ _ _ _ Hl).
Qed.

Lemma split_same_elsewhere fuel : forall w vp cd w' parts,
  split_video_by_size encoder fuel w vp cd = Some (w', parts) ->
  same_elsewhere w w'.
Proof.
  induction fuel as [|fuel IH]; intros w vp cd w' parts; simpl; [discriminate|].
  destruct (fs w !! vp) as [f|]; [|intros [= <- <-]; apply same_elsewhere_refl].
  destruct (duration f) as [d|]; [|intros [= <- <-]; apply same_elsewhere_refl].
  destruct (size f <=? SPLIT_LIMIT); [intros [= <- <-]; apply same_elsewhere_emit|].
  apply split_loop_same_elsewhere. exact IH.
Qed.

End SplitterFootprint.

Lemma prefix_app (s t : string) : String.prefix s (s +:+ t) = true.
Proof.
  induction s as [|a s IH]; simpl.
  - destruct t; reflexivity.
  - destruct (ascii_dec a a); [exact IH|congruence].
Qed.

Lemma not_scratch_name p :
  String.prefix "temp/part_" p = false ->
  String.prefix "temp/compressed_part_" p = false ->
  ~ scratch_name p.
Proof.
  intros H1 H2 (k & n & [-> | ->]).
  - change (part_file k n)
      with ("temp/part_" +:+ (pretty k +:+ "_of_" +:+ pretty n +:+ ".mp4")) in H1.
    rewrite prefix_app in H1. discriminate.
  - change (compressed_file k n)
      with ("temp/compressed_part_" +:+ (pretty k +:+ "_of_" +:+ pretty n +:+ ".mp4")) in H2.
    rewrite prefix_app in H2. discriminate.
Qed.

(** X1.  Whatever the encoder does and however deep the recursion goes,
    [split_video_by_size] writes and removes only files named
    [temp/part_..] or [temp/compressed_part_..]: every file under another
    name, the source video among them, is after the call what it was
    before. *)
Theorem split_touches_only_its_part_files encoder fuel w video_path chunk_duration w' parts p :
  split_video_by_size encoder fuel w video_path chunk_duration = Some (w', parts) ->
  String.prefix "temp/part_" p = false ->
  String.prefix "temp/compressed_part_" p = false ->
  fs w' !! p = fs w !! p.
Proof.
  intros Hrun H1 H2.
  apply (split_same_elsewhere encoder fuel w video_path chunk_duration w' parts Hrun).
  apply not_scratch_name; assumption.
Qed.

Lemma split_touches_only_its_part_files_witness :
  exists w',
    fs w' !! "temp/v.mp4" = fs w_c1 !! "temp/v.mp4".
Proof.
  eassert (E : split_video_by_size enc_reuse 2 w_c1 "temp/v.mp4" 600 = Some (_, _))
    by (vm_compute; reflexivity).
  eexists.
  exact (split_touches_only_its_part_files _ _ _ _ _ _ _ "temp/v.mp4" E eq_refl eq_refl).
Defined.

(** X2.  [split_video_by_size] never reads [chunk_duration]: two calls that
    differ only in it do the same thing and return the same list. *)
Theorem split_result_independent_of_chunk_duration encoder fuel w video_path c1 c2 :
  split_video_by_size encoder fuel w video_path c1 =
  split_video_by_size encoder fuel w video_path c2.
Proof. apply split_ignores_chunk_duration. Qed.

(** X3.  [split_video_by_size] never calls the transcription service, and
    what it adds to the encoder's log comes after what was there. *)
Theorem split_leaves_service_alone encoder fuel w video_path chunk_duration w' parts :
  split_video_by_size encoder fuel w video_path chunk_duration = Some (w', parts) ->
  svc_log w' = svc_log w /\
  exists more, enc_log w' = enc_log w ++ more.
Proof.
  intros Hrun. split.
  - exact (split_svc_log_same _ _ _ _ _ _ _ Hrun).
  - exact (split_enc_log_grows _ _ _ _ _ _ _ Hrun).
Qed.

Lemma split_leaves_service_alone_witness :
  exists w',
    svc_log w' = svc_log w_c1 /\
    exists more, enc_log w' = enc_log w_c1 ++ more.
Proof.
  eassert (E : split_video_by_size enc_c1 2 w_c1 "temp/v.mp4" 600 = Some (_, _))
    by (vm_compute; reflexivity).
  eexists.
  exact (split_leaves_service_alone _ _ _ _ _ _ _ E).
Defined.

(** ** The chunk loop of [transcribe_audio] *)

Section ChunkLoop.

Variable encoder : nat -> enc_outcome.
Variable service : nat -> svc_outcome.


Lemma transcribe_chunks_cons fuel cd ic l acc :
  transcribe_chunks encoder service fuel cd (ic :: l) acc =
  match transcribe_chunk encoder service fuel cd acc ic with
  | None => None
  | Some a => transcribe_chunks encoder service fuel cd l a
  end.
Proof.
  unfold transcribe_chunks. simpl.
  destruct (transcribe_chunk encoder service fuel cd acc ic); [reflexivity|].
  induction l; simpl; auto.
Qed.



End ChunkLoop.



(** X5.  Given a playable video longer than 600 s and of at most 15MB,
    [transcribe_audio] treats the video itself as its only chunk and removes
    it like any temporary part: whatever the service answers, the call
    returns a transcript and the file it was given is gone. *)
Theorem transcribe_audio_removes_small_long_input encoder service fuel w video_path f d :
  fs w !! video_path = Some f ->
  duration f = Some d ->
  (600 < d)%Q ->
  size f <= SPLIT_LIMIT ->
  exists w' t,
    transcribe_audio encoder service (S fuel) w video_path = Some (w', Returned t) /\
    fs w' !! video_path = None /\
    enc_log w' = enc_log w.
Proof.
  intros Hf Hd Hlong Hsmall. unfold transcribe_audio. rewrite Hf, Hd.
  assert (Hgate : Qle_bool d (inject_Z 600) = false).
  { destruct (Qle_bool d (inject_Z 600)) eqn:E; [|reflexivity].
    apply Qle_bool_iff in E. exfalso. apply (Qlt_not_le _ _ Hlong). exact E. }
  rewrite Hgate.
  rewrite (split_small_file_is_identity encoder fuel w video_path 600 f d Hf Hd Hsmall).
  unfold enumerate. simpl combine. rewrite transcribe_chunks_cons.
  unfold transcribe_chunk. simpl fs. rewrite Hf. unfold transcribe_call at 1.
  destruct (service _) as [t|e].
  - eexists _, _. split; [reflexivity|]. split; [apply lookup_delete_eq|reflexivity].
  - destruct (token_limit_error e).
    + match goal with
      | |- context [split_video_by_size encoder (S fuel) ?w1 video_path ?c] =>
        rewrite (split_small_file_is_identity encoder fuel w1 video_path c f d Hf Hd Hsmall)
      end.
      unfold enumerate. simpl fold_left. rewrite Hf. unfold transcribe_call.
      eexists _, _. split; [reflexivity|]. split; [apply lookup_delete_eq|reflexivity].
    + eexists _, _. split; [reflexivity|]. split; [apply lookup_delete_eq|reflexivity].
Qed.

Lemma transcribe_audio_removes_small_long_input_witness :
  exists w' t,
    transcribe_audio enc_small svc_token_limit 1 w_c7 "temp/v.mp4" = Some (w', Returned t) /\
    fs w' !! "temp/v.mp4" = None /\
    enc_log w' = enc_log w_c7.
Proof.
  refine (transcribe_audio_removes_small_long_input enc_small svc_token_limit 0 w_c7
            "temp/v.mp4" (File (10 * MB) (Some (700 # 1))) (700 # 1) _ _ _ _).
  - reflexivity.
  - reflexivity.
  - reflexivity.
  - discriminate.
Defined.

(** ** The audio splitter *)

Section AudioWindows.

Variable total : Q.
Variable chunk_duration : Z.
Hypothesis total_pos : (0 < total)%Q.
Hypothesis chunk_pos : 0 < chunk_duration.

Let n : Z := Qceiling (total / inject_Z chunk_duration).

Lemma chunk_Q_pos : (0 < inject_Z chunk_duration)%Q.
Proof. change 0%Q with (inject_Z 0). rewrite <- Zlt_Qlt. exact chunk_pos. Qed.

Lemma total_as_quotient :
  (total == total / inject_Z chunk_duration * inject_Z chunk_duration)%Q.
Proof.
  field. intros H. pose proof chunk_Q_pos as Hp. rewrite H in Hp. inversion Hp.
Qed.

(** [n] chunks cover the recording, [n - 1] do not. *)
Lemma audio_chunks_cover : (total <= inject_Z (n * chunk_duration))%Q.
Proof.
  rewrite inject_Z_mult.
  apply (Qle_trans _ (total / inject_Z chunk_duration * inject_Z chunk_duration)).
  - apply Qle_lteq. right. exact total_as_quotient.
  - apply Qmult_le_compat_r; [apply Qle_ceiling|apply Qlt_le_weak, chunk_Q_pos].
Qed.

Lemma audio_chunks_needed : (inject_Z ((n - 1) * chunk_duration) < total)%Q.
Proof.
  rewrite inject_Z_mult.
  apply (Qlt_le_trans _ (total / inject_Z chunk_duration * inject_Z chunk_duration)).
  - apply Qmult_lt_compat_r; [exact chunk_Q_pos|apply Qceiling_lt].
  - apply Qle_lteq. right. symmetry. exact total_as_quotient.
Qed.

Lemma audio_n_pos : 0 < n.
Proof.
  pose proof audio_chunks_cover as H.
  assert (Hlt : (inject_Z 0 < inject_Z (n * chunk_duration))%Q).
  { eapply Qlt_le_trans; [exact total_pos|exact H]. }
  rewrite <- Zlt_Qlt in Hlt. nia.
Qed.

Lemma audio_num_chunks_Z : Z.of_nat (audio_num_chunks total chunk_duration) = n.
Proof. unfold audio_num_chunks. fold n. pose proof audio_n_pos. lia. Qed.

(** The start of window [i] lies inside the recording. *)
Lemma audio_start_inside i :
  Z.of_nat i < n -> (inject_Z (Z.of_nat i * chunk_duration) < total)%Q.
Proof.
  intros Hi. eapply Qle_lt_trans; [|exact audio_chunks_needed].
  rewrite <- Zle_Qle. nia.
Qed.

Lemma audio_window_end_inner i :
  Z.of_nat i + 1 < n ->
  (snd (audio_window total chunk_duration i)
     == inject_Z ((Z.of_nat i + 1) * chunk_duration))%Q.
Proof.
  intros Hi. unfold audio_window. simpl snd. apply Q.min_l.
  apply Qlt_le_weak. eapply Qle_lt_trans; [|exact audio_chunks_needed].
  rewrite <- Zle_Qle. nia.
Qed.

Lemma audio_window_end_last i :
  Z.of_nat i + 1 = n -> (snd (audio_window total chunk_duration i) == total)%Q.
Proof.
  intros Hi. unfold audio_window. simpl snd. apply Q.min_r.
  rewrite Hi. exact audio_chunks_cover.
Qed.

Lemma audio_window_nonempty i :
  Z.of_nat i < n ->
  (fst (audio_window total chunk_duration i) < snd (audio_window total chunk_duration i))%Q.
Proof.
  intros Hi. unfold audio_window. simpl fst. simpl snd.
  apply Q.min_glb_lt.
  - rewrite <- Zlt_Qlt. nia.
  - apply audio_start_inside. exact Hi.
Qed.

Lemma audio_window_length i :
  (snd (audio_window total chunk_duration i) - fst (audio_window total chunk_duration i)
     <= inject_Z chunk_duration)%Q.
Proof.
  unfold audio_window. simpl fst. simpl snd.
  apply (Qle_trans _ (inject_Z ((Z.of_nat i + 1) * chunk_duration)
                      - inject_Z (Z.of_nat i * chunk_duration))).
  - unfold Qminus. apply Qplus_le_l. apply Q.le_min_l.
  - unfold Qminus. rewrite <- inject_Z_opp, <- inject_Z_plus, <- Zle_Qle. lia.
Qed.

End AudioWindows.

Lemma string_length_app (s t : string) :
  String.length (s +:+ t) = (String.length s + String.length t)%nat.
Proof. induction s as [|a s IH]; simpl; [reflexivity|]. rewrite IH. reflexivity. Qed.

Lemma string_app_inj_r (t : string) : forall s1 s2, s1 +:+ t = s2 +:+ t -> s1 = s2.
Proof.
  induction s1 as [|a s1 IH]; intros [|b s2] H; simpl in H.
  - reflexivity.
  - apply (f_equal String.length) in H.
    rewrite !string_length_app in H. simpl in H. lia.
  - apply (f_equal String.length) in H.
    rewrite !string_length_app in H. simpl in H. lia.
  - change (String a (s1 +:+ t) = String b (s2 +:+ t)) in H.
    injection H as -> H. f_equal. apply IH. exact H.
Qed.

Lemma chunk_file_inj i j : chunk_file i = chunk_file j -> i = j.
Proof.
  intros H.
  change (chunk_file i) with ("temp/chunk_" +:+ (pretty i +:+ ".wav")) in H.
  change (chunk_file j) with ("temp/chunk_" +:+ (pretty j +:+ ".wav")) in H.
  apply String.app_inj, string_app_inj_r in H.
  exact (pretty_nat_inj _ _ H).
Qed.

Section AudioLoop.

Variable wav_encoder : nat -> enc_outcome.

(** One iteration: the request is the one of its window, the chunk is
    returned if the call did not raise and the file is there. *)
Lemma split_audio_chunk_spec audio_path cd total w chunks i :
  let st := split_audio_chunk wav_encoder audio_path cd total (w, chunks) i in
  let o := wav_encoder (List.length (wav_log w)) in
  wav_log (fst st) = wav_log w ++ [audio_request audio_path cd total i] /\
  (forall p, p <> chunk_file i -> a_fs (fst st) !! p = a_fs w !! p) /\
  (snd st = chunks /\ (enc_raises o = true \/ enc_file o = None) \/
   snd st = chunks ++ [chunk_file i] /\ enc_raises o = false /\
   is_Some (a_fs (fst st) !! chunk_file i)).
Proof.
  cbv zeta. unfold split_audio_chunk, write_audiofile, audio_request.
  destruct (audio_window total cd i) as [t0 t1]. cbn [fst snd wav_dst].
  assert (Hfs : forall p, p <> chunk_file i ->
            match enc_file (wav_encoder (List.length (wav_log w))) with
            | Some f => <[chunk_file i := f]> (a_fs w)
            | None => a_fs w
            end !! p = a_fs w !! p).
  { intros p Hp. destruct (enc_file _); [|reflexivity].
    apply lookup_insert_ne. congruence. }
  destruct (enc_raises (wav_encoder (List.length (wav_log w)))) eqn:Er.
  - cbn [fst snd wav_log a_fs]. split; [reflexivity|]. split; [exact Hfs|].
    left. split; [reflexivity|left; reflexivity].
  - cbn [fst snd wav_log a_fs].
    destruct (enc_file (wav_encoder (List.length (wav_log w)))) as [g|] eqn:Eg.
    + rewrite lookup_insert_eq. cbn [fst snd wav_log a_fs].
      split; [reflexivity|]. split; [exact Hfs|]. right.
      split; [reflexivity|]. split; [reflexivity|].
      rewrite lookup_insert_eq. eexists; reflexivity.
    + destruct (a_fs w !! chunk_file i) eqn:Ec; cbn [fst snd wav_log a_fs].
      * split; [reflexivity|]. split; [exact Hfs|]. right.
        split; [reflexivity|]. split; [reflexivity|]. rewrite Ec. eexists; reflexivity.
      * split; [reflexivity|]. split; [exact Hfs|]. left.
        split; [reflexivity|right; reflexivity].
Qed.

Lemma split_audio_loop_spec audio_path cd total : forall m a w chunks,
  let st := fold_left (split_audio_chunk wav_encoder audio_path cd total)
                      (seq a m) (w, chunks) in
  wav_log (fst st) = wav_log w ++ map (audio_request audio_path cd total) (seq a m) /\
  exists new,
    snd st = chunks ++ new /\
    sublist new (map chunk_file (seq a m)) /\
    (forall p, (forall i, (a <= i < a + m)%nat -> p <> chunk_file i) ->
       a_fs (fst st) !! p = a_fs w !! p) /\
    (forall c, In c new -> is_Some (a_fs (fst st) !! c)) /\
    (forall i, In (chunk_file i) new ->
       (a <= i < a + m)%nat /\
       enc_raises (wav_encoder (List.length (wav_log w) + (i - a))) = false) /\
    (forall i, (a <= i < a + m)%nat ->
       enc_raises (wav_encoder (List.length (wav_log w) + (i - a))) = false ->
       is_Some (enc_file (wav_encoder (List.length (wav_log w) + (i - a)))) ->
       In (chunk_file i) new).
Proof.
  induction m as [|m IH]; intros a w chunks; cbv zeta.
  - simpl. rewrite app_nil_r. split; [reflexivity|]. exists []. rewrite app_nil_r.
    split; [reflexivity|]. split; [apply sublist_nil|]. split; [intros; reflexivity|].
    split; [intros c []|]. split; [intros i []|]. intros i Hi. lia.
  - cbn [seq fold_left].
    destruct (split_audio_chunk_spec audio_path cd total w chunks a)
      as (Hlog1 & Hkeep & Hchunks).
    destruct (split_audio_chunk wav_encoder audio_path cd total (w, chunks) a)
      as [w1 chunks1]. cbn [fst snd] in Hlog1, Hkeep, Hchunks.
    destruct (IH (S a) w1 chunks1) as (Hlog & new & Hnew & Hsub & Hframe & Hexist & Hfrom & Hinto).
    assert (Hlen : List.length (wav_log w1) = S (List.length (wav_log w))).
    { rewrite Hlog1, length_app. simpl. lia. }
    assert (Hidx : forall i, (S a <= i)%nat ->
              (List.length (wav_log w1) + (i - S a) = List.length (wav_log w) + (i - a))%nat)
      by (intros i Hi; lia).
    split.
    { rewrite Hlog, Hlog1, <- app_assoc. reflexivity. }
    assert (Hothers : forall j, (S a <= j < S a + m)%nat -> chunk_file a <> chunk_file j).
    { intros j Hj E. apply chunk_file_inj in E. lia. }
    assert (Hframe' : forall p, (forall i, (a <= i < a + S m)%nat -> p <> chunk_file i) ->
              a_fs (fst (fold_left (split_audio_chunk wav_encoder audio_path cd total)
                           (seq (S a) m) (w1, chunks1))) !! p = a_fs w !! p).
    { intros p Hp. rewrite Hframe.
      - apply Hkeep. apply Hp. lia.
      - intros j Hj. apply Hp. lia. }
    replace (List.length (wav_log w) + (a - a))%nat with (List.length (wav_log w)) in *
      by lia.
    destruct Hchunks as [[-> Hfail] | (-> & Hok & Hthere)].
    + exists new. split; [exact Hnew|]. split.
      { simpl. apply sublist_cons. exact Hsub. }
      split; [exact Hframe'|]. split; [exact Hexist|]. split.
      * intros i Hi. destruct (Hfrom i Hi) as [Hr Ha]. rewrite Hidx in Ha by lia.
        split; [lia|exact Ha].
      * intros i Hi Hr Hw. destruct (Nat.eq_dec i a) as [->|Hne].
        -- replace (List.length (wav_log w) + (a - a))%nat
             with (List.length (wav_log w)) in Hr, Hw by lia.
           destruct Hfail as [Hfail|Hfail]; [congruence|].
           rewrite Hfail in Hw. destruct Hw as [? Hw]. discriminate.
        -- apply Hinto; [lia| |]; rewrite Hidx by lia; assumption.
    + exists (chunk_file a :: new). split.
      { rewrite Hnew, <- app_assoc. reflexivity. }
      split.
      { simpl. apply sublist_skip. exact Hsub. }
      split; [exact Hframe'|]. split.
      { intros c [<- | Hc].
        - rewrite (Hframe _ Hothers). exact Hthere.
        - apply Hexist. exact Hc. }
      split.
      * intros i [E | Hi].
        -- apply chunk_file_inj in E. subst i.
           replace (List.length (wav_log w) + (a - a))%nat
             with (List.length (wav_log w)) by lia.
           split; [lia|exact Hok].
        -- destruct (Hfrom i Hi) as [Hr Ha]. rewrite Hidx in Ha by lia.
           split; [lia|exact Ha].
      * intros i Hi Hr Hw. destruct (Nat.eq_dec i a) as [->|Hne]; [left; reflexivity|].
        right. apply Hinto; [lia| |]; rewrite Hidx by lia; assumption.
Qed.

End AudioLoop.

(** X6.  For a recording of positive duration and a positive
    [chunk_duration], the requests [split_audio] sends are, in order, one
    per window for [ceil(duration / chunk_duration)] windows, request [i]
    asking for window [i] to be written to [chunk_i.wav]; the first window
    starts at 0, each one is non-empty and at most [chunk_duration] long,
    each ends where the next one starts, and the last one ends at the
    duration. *)
Theorem split_audio_windows_partition
    wav_encoder w audio_path chunk_duration f total :
  a_fs w !! audio_path = Some f ->
  duration f = Some total ->
  (0 < total)%Q ->
  0 < chunk_duration ->
  let n := audio_num_chunks total chunk_duration in
  let win := audio_window total chunk_duration in
  let w' := fst (split_audio wav_encoder w audio_path chunk_duration) in
  wav_log w' = wav_log w ++
    map (fun i => Wav audio_path (chunk_file i) (fst (win i)) (snd (win i))) (seq 0 n) /\
  (0 < n)%nat /\
  (inject_Z ((Z.of_nat n - 1) * chunk_duration) < total
     <= inject_Z (Z.of_nat n * chunk_duration))%Q /\
  fst (win 0%nat) = inject_Z 0 /\
  (snd (win (n - 1)%nat) == total)%Q /\
  (forall i, (i < n)%nat -> (fst (win i) < snd (win i))%Q) /\
  (forall i, (snd (win i) - fst (win i) <= inject_Z chunk_duration)%Q) /\
  (forall i, (i + 1 < n)%nat -> (snd (win i) == fst (win (i + 1)%nat))%Q).
Proof.
  intros Hf Hd Htotal Hchunk n win w'.
  pose proof (audio_num_chunks_Z total chunk_duration Htotal Hchunk) as Hn.
  pose proof (audio_n_pos total chunk_duration Htotal Hchunk) as Hpos.
  fold n in Hn.
  split.
  { subst w'. unfold split_audio. rewrite Hf, Hd.
    destruct (chunk_duration =? 0) eqn:E; [lia|]. fold n.
    exact (proj1 (split_audio_loop_spec wav_encoder audio_path chunk_duration total
                    n 0%nat w [])). }
  split; [lia|]. split.
  { rewrite Hn. split.
    - apply audio_chunks_needed; assumption.
    - apply audio_chunks_cover; assumption. }
  split; [reflexivity|]. split.
  { apply audio_window_end_last; try assumption. lia. }
  split.
  { intros i Hi. apply audio_window_nonempty; try assumption. lia. }
  split.
  { intros i. apply audio_window_length. }
  intros i Hi. subst win.
  rewrite (audio_window_end_inner total chunk_duration Hchunk i) by lia.
  unfold audio_window. simpl fst.
  replace (Z.of_nat (i + 1)) with (Z.of_nat i + 1) by lia. reflexivity.
Qed.

Lemma split_audio_windows_partition_witness :
  wav_log (fst (split_audio wav_enc_example aw_example "temp/a.wav" 600))
    = [Wav "temp/a.wav" "temp/chunk_0.wav" (0 # 1) (600 # 1);
       Wav "temp/a.wav" "temp/chunk_1.wav" (600 # 1) (1200 # 1);
       Wav "temp/a.wav" "temp/chunk_2.wav" (1200 # 1) (1500 # 1)].
Proof.
  assert (Ht : (0 < 1500 # 1)%Q) by reflexivity.
  assert (Hc : 0 < 600) by reflexivity.
  exact (proj1 (split_audio_windows_partition wav_enc_example aw_example "temp/a.wav" 600
                  (File (48 * MB) (Some (1500 # 1))) (1500 # 1) eq_refl eq_refl Ht Hc)).
Defined.

(** X7.  [split_audio] on a readable recording with a non-zero
    [chunk_duration] sends the encoder one request per window, request [i]
    for [chunk_i.wav].  The paths it returns are [chunk_i.wav] names in
    increasing order of [i], without repetition, each naming a file that
    exists when the call returns.  A returned chunk is one whose call did
    not raise, and a chunk whose call wrote its file without raising is
    returned; the others are left out without a word.  Files under other
    names are left as they were. *)
Theorem split_audio_returns_existing_chunks
    wav_encoder w audio_path chunk_duration f total :
  a_fs w !! audio_path = Some f ->
  duration f = Some total ->
  chunk_duration <> 0 ->
  let n := audio_num_chunks total chunk_duration in
  let w' := fst (split_audio wav_encoder w audio_path chunk_duration) in
  let chunks := snd (split_audio wav_encoder w audio_path chunk_duration) in
  let answer i := wav_encoder (List.length (wav_log w) + i)%nat in
  wav_log w' = wav_log w ++ map (audio_request audio_path chunk_duration total) (seq 0 n) /\
  sublist chunks (map chunk_file (seq 0 n)) /\
  NoDup chunks /\
  (List.length chunks <= n)%nat /\
  (forall c, In c chunks -> is_Some (a_fs w' !! c)) /\
  (forall i, In (chunk_file i) chunks ->
     (i < n)%nat /\ enc_raises (answer i) = false) /\
  (forall i, (i < n)%nat -> enc_raises (answer i) = false ->
     is_Some (enc_file (answer i)) -> In (chunk_file i) chunks) /\
  (forall p, (forall i, p <> chunk_file i) -> a_fs w' !! p = a_fs w !! p).
Proof.
  intros Hf Hd Hcd n w' chunks answer. subst w' chunks. unfold split_audio.
  rewrite Hf, Hd. destruct (chunk_duration =? 0) eqn:E; [lia|]. fold n.
  destruct (split_audio_loop_spec wav_encoder audio_path chunk_duration total
              n 0%nat w [])
    as (Hlog & new & Hnew & Hsub & Hframe & Hexist & Hfrom & Hinto).
  simpl in Hnew. rewrite Hnew.
  split; [exact Hlog|]. split; [exact Hsub|]. split.
  { apply (sublist_NoDup _ _ (NoDup_fmap_2_strong chunk_file (seq 0 n)
             (fun x y _ _ => chunk_file_inj x y) (NoDup_seq 0 n)) Hsub). }
  split.
  { rewrite (sublist_length _ _ Hsub), length_map, length_seq. reflexivity. }
  split; [exact Hexist|]. split.
  { intros i Hi. destruct (Hfrom i Hi) as [Hr Ha]. subst answer. cbv beta.
    rewrite Nat.sub_0_r in Ha. split; [lia|exact Ha]. }
  split.
  { intros i Hi Hr Hw. apply Hinto; [lia| |]; rewrite Nat.sub_0_r; assumption. }
  intros p Hp. apply Hframe. intros i _. apply Hp.
Qed.

Lemma split_audio_returns_existing_chunks_witness :
  snd (split_audio wav_enc_example aw_example "temp/a.wav" 600)
    = ["temp/chunk_0.wav"; "temp/chunk_2.wav"] /\
  NoDup (snd (split_audio wav_enc_example aw_example "temp/a.wav" 600)).
Proof.
  split; [vm_compute; reflexivity|].
  refine (proj1 (proj2 (proj2 (split_audio_returns_existing_chunks wav_enc_example
            aw_example "temp/a.wav" 600 (File (48 * MB) (Some (1500 # 1))) (1500 # 1)
            _ _ _)))).
  - reflexivity.
  - reflexivity.
  - discriminate.
Defined.

(** ** The ledger as a running sum *)

Lemma ledger_run_sum : forall ops t disk,
  total_cost t = durable_total disk ->
  Forall completes ops ->
  durable_total (snd (ledger_run (t, disk) ops))
    = fold_left b64_add (committed ops) (durable_total disk) /\
  total_cost (fst (ledger_run (t, disk) ops)) = durable_total (snd (ledger_run (t, disk) ops)).
Proof.
  induction ops as [|op ops IH]; intros t disk Hagree Hops.
  - simpl. split; [reflexivity|exact Hagree].
  - inversion Hops as [|? ? Hop Hrest]; subst.
    destruct op as [fate cost now1 now2|].
    + simpl in Hop. subst fate.
      change (ledger_run (t, disk) (Commit Completes cost now1 now2 :: ops))
        with (ledger_run (Tracker (b64_add (total_cost t) cost) now1,
                          Stored (Some (b64_add (total_cost t) cost)) (Some now2)) ops).
      destruct (IH (Tracker (b64_add (total_cost t) cost) now1)
                  (Stored (Some (b64_add (total_cost t) cost)) (Some now2)) eq_refl Hrest)
        as [Hsum Hsame].
      split; [|exact Hsame]. rewrite Hsum.
      change (durable_total (Stored (Some (b64_add (total_cost t) cost)) (Some now2)))
        with (b64_add (total_cost t) cost).
      rewrite Hagree. reflexivity.
    + change (ledger_run (t, disk) (Relaunch :: ops))
        with (ledger_run (new_tracker disk, disk) ops).
      exact (IH (new_tracker disk) disk eq_refl Hrest).
Qed.

(** X8.  Over a deployment whose writes complete, whatever the costs and
    however often the process restarts, the total on file is the total the
    file held at the start with the committed costs added to it one after
    the other, in the order of the commits and in float arithmetic; and the
    running process holds the same total as the file. *)
Theorem ledger_is_running_sum disk ops :
  Forall completes ops ->
  durable_total (snd (ledger_run (new_tracker disk, disk) ops))
    = fold_left b64_add (committed ops) (durable_total disk) /\
  total_cost (fst (ledger_run (new_tracker disk, disk) ops))
    = durable_total (snd (ledger_run (new_tracker disk, disk) ops)).
Proof. intros Hops. apply ledger_run_sum; [reflexivity|exact Hops]. Qed.

Lemma ledger_is_running_sum_witness :
  durable_total (snd (ledger_run (new_tracker disk_c5, disk_c5)
    [Commit Completes (round64 (3 # 100)) "2025-01-01 10:00:00" "2025-01-01 10:00:00";
     Relaunch;
     Commit Completes (round64 (-1 # 100)) "2025-01-02 10:00:00" "2025-01-02 10:00:01"]))
  = (5652017532349973 # 1125899906842624)%Q.
Proof.
  refine (eq_trans (proj1 (ledger_is_running_sum disk_c5
    [Commit Completes (round64 (3 # 100)) "2025-01-01 10:00:00" "2025-01-01 10:00:00";
     Relaunch;
     Commit Completes (round64 (-1 # 100)) "2025-01-02 10:00:00" "2025-01-02 10:00:01"]
    _)) _).
  - repeat constructor.
  - vm_compute. reflexivity.
Defined.

(** ** The usage counters *)

Lemma transcription_counter_fold : forall durations c,
  TranscriptionCounter.total_seconds
    (fold_left TranscriptionCounter.add_transcription durations c)
    = fold_left b64_add durations (TranscriptionCounter.total_seconds c) /\
  TranscriptionCounter.total_files
    (fold_left TranscriptionCounter.add_transcription durations c)
    = TranscriptionCounter.total_files c + Z.of_nat (List.length durations).
Proof.
  induction durations as [|d l IH]; intros c.
  - simpl. split; [reflexivity|lia].
  - cbn [fold_left List.length]. destruct (IH (TranscriptionCounter.add_transcription c d))
      as [Hs Hf]. split.
    + rewrite Hs. reflexivity.
    + rewrite Hf. cbn [TranscriptionCounter.add_transcription
                       TranscriptionCounter.total_files]. lia.
Qed.

(** A float sum that starts at a float is a float, and is not negative
    when nothing added to it is. *)
Lemma float_sum_is_float : forall l x, is_float x -> is_float (fold_left b64_add l x).
Proof.
  induction l as [|d l IH]; intros x Hx; [exact Hx|].
  cbn [fold_left]. apply IH. apply round64_idem.
Qed.

Lemma float_sum_nonneg : forall l x,
  (0 <= x)%Q -> Forall (fun d => (0 <= d)%Q) l -> (0 <= fold_left b64_add l x)%Q.
Proof.
  induction l as [|d l IH]; intros x Hx Hl; [exact Hx|].
  inversion Hl as [|? ? Hd Hrest]; subst. cbn [fold_left]. apply IH; [|exact Hrest].
  apply round64_nonneg. change 0%Q with (0 + 0)%Q. apply Qplus_le_compat; assumption.
Qed.

Lemma b64_div_le x y z : (0 < z)%Q -> (x <= y)%Q -> (b64_div x z <= b64_div y z)%Q.
Proof.
  intros Hz Hxy. apply round64_le. apply Qmult_le_compat_r; [exact Hxy|].
  apply Qlt_le_weak, Qinv_lt_0_compat, Hz.
Qed.

Lemma b64_mul_le x y z : (0 <= z)%Q -> (x <= y)%Q -> (b64_mul x z <= b64_mul y z)%Q.
Proof. intros Hz Hxy. apply round64_le. apply Qmult_le_compat_r; assumption. Qed.

Lemma b64_mul_nonneg x y : (0 <= x)%Q -> (0 <= y)%Q -> (0 <= b64_mul x y)%Q.
Proof. intros Hx Hy. apply round64_nonneg. apply Qmult_le_0_compat; assumption. Qed.

Lemma b64_div_nonneg x y : (0 <= x)%Q -> (0 < y)%Q -> (0 <= b64_div x y)%Q.
Proof.
  intros Hx Hy. apply round64_nonneg. apply Qmult_le_0_compat; [exact Hx|].
  apply Qlt_le_weak, Qinv_lt_0_compat, Hy.
Qed.

Lemma b64_add_nonneg x y : (0 <= x)%Q -> (0 <= y)%Q -> (0 <= b64_add x y)%Q.
Proof.
  intros Hx Hy. apply round64_nonneg. change 0%Q with (0 + 0)%Q.
  apply Qplus_le_compat; assumption.
Qed.

Lemma transcription_price_nonneg : (0 <= TranscriptionCounter.PRICE_PER_MINUTE)%Q.
Proof. apply round64_nonneg. discriminate. Qed.

Lemma transcription_estimate_le c1 c2 :
  (TranscriptionCounter.total_seconds c1 <= TranscriptionCounter.total_seconds c2)%Q ->
  (TranscriptionCounter.estimate_cost c1 <= TranscriptionCounter.estimate_cost c2)%Q.
Proof.
  intros H. unfold TranscriptionCounter.estimate_cost, TranscriptionCounter.get_minutes.
  apply b64_mul_le; [exact transcription_price_nonneg|].
  apply b64_div_le; [reflexivity|exact H].
Qed.

(** The audio counter after a [reset] and a run of additions. *)
Lemma transcription_counter_after_reset stale durations :
  let c := fold_left TranscriptionCounter.add_transcription durations
             (TranscriptionCounter.reset stale) in
  TranscriptionCounter.total_seconds c = fold_left b64_add durations 0%Q /\
  TranscriptionCounter.total_files c = Z.of_nat (List.length durations) /\
  c = fold_left TranscriptionCounter.add_transcription durations TranscriptionCounter.init /\
  is_float (TranscriptionCounter.total_seconds c) /\
  (Forall (fun d => (0 <= d)%Q) durations ->
     (0 <= TranscriptionCounter.total_seconds c)%Q /\
     (0 <= TranscriptionCounter.estimate_cost c)%Q) /\
  (forall d, (0 <= d)%Q ->
     (TranscriptionCounter.estimate_cost c
        <= TranscriptionCounter.estimate_cost (TranscriptionCounter.add_transcription c d))%Q).
Proof.
  intros c.
  destruct (transcription_counter_fold durations (TranscriptionCounter.reset stale))
    as [Hs Hf].
  fold c in Hs, Hf. cbn [TranscriptionCounter.reset TranscriptionCounter.total_seconds
                         TranscriptionCounter.total_files] in Hs, Hf.
  assert (Hfloat : is_float (TranscriptionCounter.total_seconds c)).
  { rewrite Hs. apply float_sum_is_float. exact is_float_0. }
  split; [exact Hs|]. split; [rewrite Hf; lia|]. split; [reflexivity|].
  split; [exact Hfloat|]. split.
  - intros Hpos.
    assert (H0 : (0 <= TranscriptionCounter.total_seconds c)%Q).
    { rewrite Hs. apply float_sum_nonneg; [apply Qle_refl|exact Hpos]. }
    split; [exact H0|].
    unfold TranscriptionCounter.estimate_cost, TranscriptionCounter.get_minutes.
    apply b64_mul_nonneg; [|exact transcription_price_nonneg].
    apply b64_div_nonneg; [exact H0|reflexivity].
  - intros d Hd. apply transcription_estimate_le.
    cbn [TranscriptionCounter.add_transcription TranscriptionCounter.total_seconds].
    apply b64_add_ge; assumption.
Qed.

(** X9.  After a [reset], however the counter stood before, the seconds
    counted are the durations added since, summed in order in float
    arithmetic, and the files counted are their number: no earlier video
    leaks into the figures of the current one.  With no negative duration
    the seconds and the estimate are not negative, and adding a
    non-negative duration never lowers the estimate. *)
Theorem transcription_counter_counts_since_reset stale durations :
  let c := fold_left TranscriptionCounter.add_transcription durations
             (TranscriptionCounter.reset stale) in
  TranscriptionCounter.total_seconds c = fold_left b64_add durations 0%Q /\
  TranscriptionCounter.total_files c = Z.of_nat (List.length durations) /\
  c = fold_left TranscriptionCounter.add_transcription durations TranscriptionCounter.init /\
  is_float (TranscriptionCounter.total_seconds c) /\
  (Forall (fun d => (0 <= d)%Q) durations ->
     (0 <= TranscriptionCounter.total_seconds c)%Q /\
     (0 <= TranscriptionCounter.estimate_cost c)%Q) /\
  (forall d, (0 <= d)%Q ->
     (TranscriptionCounter.estimate_cost c
        <= TranscriptionCounter.estimate_cost (TranscriptionCounter.add_transcription c d))%Q).
Proof. exact (transcription_counter_after_reset stale durations). Qed.

Lemma transcription_counter_counts_since_reset_witness :
  (0 <= TranscriptionCounter.estimate_cost
          (fold_left TranscriptionCounter.add_transcription [350 # 1; 350 # 1]
             (TranscriptionCounter.reset (TranscriptionCounter.Counter (1234 # 1) 7))))%Q.
Proof.
  refine (proj2 (proj1 (proj2 (proj2 (proj2 (proj2
           (transcription_counter_counts_since_reset
              (TranscriptionCounter.Counter (1234 # 1) 7) [350 # 1; 350 # 1]))))) _)).
  repeat constructor; discriminate.
Defined.

Lemma token_counter_fold : forall responses c,
  Forall (fun r => r <> TokenCounter.UsageIsNone) responses ->
  TokenCounter.add_usages c responses
    = Some (TokenCounter.Counter
              (TokenCounter.total_tokens c
               + Zsum (map TokenCounter.u_total_tokens (TokenCounter.usages responses)))
              (TokenCounter.prompt_tokens c
               + Zsum (map TokenCounter.u_prompt_tokens (TokenCounter.usages responses)))
              (TokenCounter.completion_tokens c
               + Zsum (map TokenCounter.u_completion_tokens (TokenCounter.usages responses)))).
Proof.
  induction responses as [|r l IH]; intros c Hok.
  - simpl. rewrite !Z.add_0_r. destruct c; reflexivity.
  - inversion Hok as [|? ? Hr Hl]; subst.
    destruct r as [| |u]; [|contradiction|].
    + exact (IH c Hl).
    + cbn [TokenCounter.add_usages TokenCounter.add_usage]. rewrite (IH _ Hl).
      unfold TokenCounter.usages, Zsum.
      cbn [TokenCounter.total_tokens TokenCounter.prompt_tokens
           TokenCounter.completion_tokens flat_map app map fold_right].
      f_equal. f_equal; lia.
Qed.

Lemma token_counter_raises : forall responses c,
  In TokenCounter.UsageIsNone responses -> TokenCounter.add_usages c responses = None.
Proof.
  induction responses as [|r l IH]; intros c Hin; [destruct Hin|].
  destruct r as [| |u].
  - destruct Hin as [Hin|Hin]; [discriminate|]. exact (IH c Hin).
  - reflexivity.
  - destruct Hin as [Hin|Hin]; [discriminate|].
    cbn [TokenCounter.add_usages TokenCounter.add_usage]. apply IH. exact Hin.
Qed.

Lemma token_estimate_nonneg c :
  0 <= TokenCounter.prompt_tokens c -> 0 <= TokenCounter.completion_tokens c ->
  (0 <= TokenCounter.estimate_cost c)%Q.
Proof.
  intros Hp Hc. unfold TokenCounter.estimate_cost.
  assert (Hz : forall z, 0 <= z -> (0 <= inject_Z z)%Q).
  { intros z Hz. change 0%Q with (inject_Z 0). rewrite <- Zle_Qle. exact Hz. }
  apply b64_add_nonneg; apply b64_mul_nonneg;
    try (apply round64_nonneg; discriminate);
    (apply b64_div_nonneg; [apply Hz; assumption|reflexivity]).
Qed.

(** The token counter after a [reset] and a run of responses. *)
Lemma token_counter_after_reset stale responses :
  (Forall (fun r => r <> TokenCounter.UsageIsNone) responses ->
   TokenCounter.add_usages (TokenCounter.reset stale) responses
     = Some (TokenCounter.Counter
               (Zsum (map TokenCounter.u_total_tokens (TokenCounter.usages responses)))
               (Zsum (map TokenCounter.u_prompt_tokens (TokenCounter.usages responses)))
               (Zsum (map TokenCounter.u_completion_tokens
                          (TokenCounter.usages responses))))) /\
  (In TokenCounter.UsageIsNone responses ->
   TokenCounter.add_usages (TokenCounter.reset stale) responses = None) /\
  (forall c, 0 <= TokenCounter.prompt_tokens c -> 0 <= TokenCounter.completion_tokens c ->
     (0 <= TokenCounter.estimate_cost c)%Q).
Proof.
  split; [|split].
  - intros Hok. rewrite (token_counter_fold responses _ Hok). reflexivity.
  - apply token_counter_raises.
  - exact token_estimate_nonneg.
Qed.

(** X10.  After a [reset], however the counter stood before, the three
    token counts are the sums over the responses since that carry a
    [usage]; a response without the attribute changes nothing; a response
    whose [usage] is [None] makes [add_usage] raise.  The estimate of a
    counter with no negative count is not negative. *)
Theorem token_counter_counts_since_reset stale responses :
  (Forall (fun r => r <> TokenCounter.UsageIsNone) responses ->
   TokenCounter.add_usages (TokenCounter.reset stale) responses
     = Some (TokenCounter.Counter
               (Zsum (map TokenCounter.u_total_tokens (TokenCounter.usages responses)))
               (Zsum (map TokenCounter.u_prompt_tokens (TokenCounter.usages responses)))
               (Zsum (map TokenCounter.u_completion_tokens
                          (TokenCounter.usages responses))))) /\
  (In TokenCounter.UsageIsNone responses ->
   TokenCounter.add_usages (TokenCounter.reset stale) responses = None) /\
  (forall c, 0 <= TokenCounter.prompt_tokens c -> 0 <= TokenCounter.completion_tokens c ->
     (0 <= TokenCounter.estimate_cost c)%Q).
Proof. exact (token_counter_after_reset stale responses). Qed.

Lemma token_counter_counts_since_reset_witness :
  TokenCounter.add_usages (TokenCounter.reset (TokenCounter.Counter 900 600 300))
    [TokenCounter.HasUsage (TokenCounter.Usage 150 100 50);
     TokenCounter.NoUsageAttribute;
     TokenCounter.HasUsage (TokenCounter.Usage 30 20 10)]
  = Some (TokenCounter.Counter 180 120 60).
Proof.
  refine (proj1 (token_counter_counts_since_reset (TokenCounter.Counter 900 600 300)
            [TokenCounter.HasUsage (TokenCounter.Usage 150 100 50);
             TokenCounter.NoUsageAttribute;
             TokenCounter.HasUsage (TokenCounter.Usage 30 20 10)]) _).
  repeat constructor; discriminate.
Defined.

(** ** The polling loop *)

Lemma new_videos_fresh processed video_files v :
  In v (new_videos processed video_files) -> video_id v ∉ processed.
Proof.
  unfold new_videos. rewrite filter_In. intros [_ H].
  apply negb_true_iff, bool_decide_eq_false in H. exact H.
Qed.

Lemma all_new_videos_fresh processed : forall listings videos v,
  all_new_videos processed listings = Some videos ->
  In v videos -> video_id v ∉ processed.
Proof.
  induction listings as [|[files|] rest IH]; intros videos v; simpl.
  - intros [= <-] [].
  - destruct (all_new_videos processed rest) as [more|]; [|discriminate].
    intros [= <-] Hin. apply in_app_or in Hin as [Hin|Hin].
    + exact (new_videos_fresh _ _ _ Hin).
    + exact (IH more v eq_refl Hin).
  - discriminate.
Qed.

Section PollingFacts.

Variable handled : nat -> bool.
Variable fates : nat -> write_fate.

(** What the loop over the new videos does to the state. *)
Lemma handle_videos_spec : forall (l : list (nat * video)) st,
  let st' := fold_left (handle_video handled fates) l st in
  attempted st' = attempted st ++ map (fun kv => video_id (snd kv)) l /\
  poll_processed st ⊆ poll_processed st' /\
  (forall id, id ∈ poll_processed st' ->
     id ∈ poll_processed st \/
     exists k v, In (k, v) l /\ handled k = true /\ video_id v = id) /\
  (forall k v, In (k, v) l -> handled k = true -> video_id v ∈ poll_processed st').
Proof.
  induction l as [|[k v] l IH]; intros st; cbn [fold_left].
  - simpl. rewrite app_nil_r. split; [reflexivity|].
    split; [apply elem_of_subseteq; auto|]. split; [auto|intros ? ? []].
  - destruct (IH (handle_video handled fates st (k, v))) as (Hatt & Hsub & Hfrom & Hin).
    cbv zeta in *. rewrite Hatt. unfold handle_video in *.
    destruct (handled k) eqn:Hk; simpl in *.
    + split; [rewrite <- app_assoc; reflexivity|]. split.
      { apply elem_of_subseteq. intros x Hx.
        apply (proj1 (elem_of_subseteq _ _) Hsub). apply elem_of_union. right. exact Hx. }
      split.
      * intros id Hid. destruct (Hfrom id Hid) as [H|(k' & v' & H1 & H2 & H3)].
        -- apply elem_of_union in H as [H|H]; [|left; exact H].
           apply elem_of_singleton in H. right. exists k, v. auto.
        -- right. exists k', v'. auto.
      * intros k' v' [[= <- <-]|H] Hk'.
        -- apply (proj1 (elem_of_subseteq _ _) Hsub).
           apply elem_of_union. left. apply elem_of_singleton. reflexivity.
        -- exact (Hin k' v' H Hk').
    + split; [rewrite <- app_assoc; reflexivity|]. split; [exact Hsub|]. split.
      * intros id Hid. destruct (Hfrom id Hid) as [H|(k' & v' & H1 & H2 & H3)].
        -- left. exact H.
        -- right. exists k', v'. auto.
      * intros k' v' [[= <- <-]|H] Hk'; [congruence|].
        exact (Hin k' v' H Hk').
Qed.

(** With completed writes the file follows the set video by video. *)
Lemma handle_videos_in_step : forall (l : list (nat * video)) st,
  (forall k, fates k = Completes) ->
  in_step st ->
  in_step (fold_left (handle_video handled fates) l st).
Proof.
  induction l as [|[k v] l IH]; intros st Hf Hst; cbn [fold_left]; [exact Hst|].
  apply IH; [exact Hf|]. unfold handle_video, in_step.
  destruct (handled k); [|exact Hst].
  simpl. rewrite Hf. simpl. unfold sorted_ids.
  rewrite (list_to_set_perm_L _ _ (merge_sort_Permutation string_le _)).
  apply list_to_set_elements_L.
Qed.

End PollingFacts.

Lemma In_enumerate_snd {A} (l : list A) k x : In (k, x) (enumerate l) -> In x l.
Proof. unfold enumerate. apply in_combine_r. Qed.

Lemma map_snd_enumerate {A B} (f : A -> B) (l : list A) :
  map (fun kv => f (snd kv)) (enumerate l) = map f l.
Proof.
  unfold enumerate. generalize 0%nat. induction l as [|x l IH]; intros n; simpl.
  - reflexivity.
  - f_equal. apply IH.
Qed.

(** What one pass of the polling loop does to the state. *)
Lemma poll_cycle_spec handled fates st listings :
  let st' := poll_cycle handled fates st listings in
  exists batch,
    attempted st' = attempted st ++ batch /\
    (forall id, In id batch -> id ∉ poll_processed st) /\
    poll_processed st ⊆ poll_processed st' /\
    (forall id, id ∈ poll_processed st' -> id ∈ poll_processed st \/ In id batch) /\
    (forall videos k v,
       all_new_videos (poll_processed st) listings = Some videos ->
       In (k, v) (enumerate videos) -> handled k = true ->
       video_id v ∈ poll_processed st') /\
    (all_new_videos (poll_processed st) listings = None -> st' = st).
Proof.
  intros st'. unfold st', poll_cycle.
  destruct (all_new_videos (poll_processed st) listings) as [videos|] eqn:Hall.
  - destruct (handle_videos_spec handled fates (enumerate videos) st)
      as (Hatt & Hsub & Hfrom & Hin).
    cbv zeta in *. exists (map video_id videos).
    rewrite map_snd_enumerate in Hatt.
    split; [exact Hatt|]. split.
    { intros id Hid. apply in_map_iff in Hid as (v & <- & Hv).
      exact (all_new_videos_fresh _ _ _ _ Hall Hv). }
    split; [exact Hsub|]. split.
    { intros id Hid. destruct (Hfrom id Hid) as [H|(k & v & H1 & _ & <-)]; [left; exact H|].
      right. apply in_map. exact (In_enumerate_snd _ _ _ H1). }
    split; [|discriminate].
    intros videos' k v [= <-] Hkv Hk. exact (Hin k v Hkv Hk).
  - exists []. rewrite app_nil_r. split; [reflexivity|].
    split; [intros id []|]. split; [apply elem_of_subseteq; auto|].
    split; [intros id H; left; exact H|]. split; [discriminate|reflexivity].
Qed.


(** X13.  When the writes of [save_processed_ids] complete, the file
    follows the processed set video by video, so a process restarted after
    a pass loads exactly the set the last one held, and its next pass hands
    none of those ids to processing again. *)
Theorem restart_does_not_repeat handled fates handled' fates' st listings listings' :
  (forall k, fates k = Completes) ->
  in_step st ->
  let st1 := poll_cycle handled fates st listings in
  let st2 := poll_cycle handled' fates' (restart st1) listings' in
  poll_processed (restart st1) = poll_processed st1 /\
  (forall id, id ∈ poll_processed st1 -> ~ In id (attempted st2)).
Proof.
  intros Hf Hst st1 st2.
  assert (Hstep : in_step st1).
  { unfold st1, poll_cycle.
    destruct (all_new_videos (poll_processed st) listings); [|exact Hst].
    apply handle_videos_in_step; assumption. }
  split; [exact Hstep|].
  intros id Hid Hin.
  destruct (poll_cycle_spec handled' fates' (restart st1) listings')
    as (batch & Hatt & Hfresh & _).
  fold st2 in Hatt. rewrite Hatt in Hin. simpl in Hin.
  apply (Hfresh id Hin). unfold restart. simpl. rewrite Hstep. exact Hid.
Qed.

Lemma restart_does_not_repeat_witness :
  let st1 := poll_cycle (fun _ => true) (fun _ => Completes) (Poll ∅ None [])
               [Some [Video "1AbC" "ClaxClub - Ana.mp4"]] in
  let st2 := poll_cycle (fun _ => true) (fun _ => Completes) (restart st1)
               [Some [Video "1AbC" "ClaxClub - Ana.mp4"; Video "0xYz" "Rui - demo.mp4"]] in
  poll_processed (restart st1) = poll_processed st1 /\
  (forall id, id ∈ poll_processed st1 -> ~ In id (attempted st2)).
Proof.
  apply (restart_does_not_repeat (fun _ => true) (fun _ => Completes)
           (fun _ => true) (fun _ => Completes) (Poll ∅ None [])).
  - intros k. reflexivity.
  - reflexivity.
Defined.

(** ** The sanitised download name *)

Section SafeFilenameFacts.

Variable isalnum : N -> bool.

Lemma kept_low_line : kept isalnum LOW_LINE = true.
Proof. unfold kept. rewrite N.eqb_refl, orb_true_r. reflexivity. Qed.

Lemma safe_char_kept c : kept isalnum (if kept isalnum c then c else LOW_LINE) = true.
Proof. destruct (kept isalnum c) eqn:E; [exact E|exact kept_low_line]. Qed.

Lemma safe_filename_kept file_name :
  Forall (fun c => kept isalnum c = true) (safe_filename isalnum file_name).
Proof.
  unfold safe_filename. induction file_name as [|c l IH]; simpl; constructor.
  - apply safe_char_kept.
  - exact IH.
Qed.

Lemma safe_filename_fixes_kept file_name :
  Forall (fun c => kept isalnum c = true) file_name ->
  safe_filename isalnum file_name = file_name.
Proof.
  unfold safe_filename. induction 1 as [|c l Hc _ IH]; simpl; [reflexivity|].
  rewrite Hc, IH. reflexivity.
Qed.

End SafeFilenameFacts.

(** X14.  The name [download_file] saves under has as many characters as
    the Drive name, each of them alphanumeric or one of [-], [_], [.];
    characters that already qualify are kept as they are, so sanitising
    twice changes nothing more.  As [/] is not alphanumeric, the name holds
    no path separator. *)
Theorem safe_filename_has_no_separator isalnum file_name :
  isalnum SOLIDUS = false ->
  List.length (safe_filename isalnum file_name) = List.length file_name /\
  Forall (fun c => kept isalnum c = true) (safe_filename isalnum file_name) /\
  ~ In SOLIDUS (safe_filename isalnum file_name) /\
  safe_filename isalnum (safe_filename isalnum file_name) = safe_filename isalnum file_name /\
  (forall i c, nth_error file_name i = Some c -> kept isalnum c = true ->
     nth_error (safe_filename isalnum file_name) i = Some c).
Proof.
  intros Hsol.
  split; [apply length_map|].
  split; [apply safe_filename_kept|].
  split.
  { intros Hin. pose proof (safe_filename_kept isalnum file_name) as Hall.
    rewrite List.Forall_forall in Hall. specialize (Hall _ Hin).
    unfold kept in Hall. rewrite Hsol in Hall. discriminate. }
  split; [apply safe_filename_fixes_kept, safe_filename_kept|].
  intros i c Hi Hc. unfold safe_filename. rewrite nth_error_map, Hi. simpl.
  rewrite Hc. reflexivity.
Qed.

Lemma safe_filename_has_no_separator_witness :
  ~ In SOLIDUS (safe_filename ascii_isalnum [46; 46; 47; 97; 32; 98; 46; 109; 112; 52]%N).
Proof.
  exact (proj1 (proj2 (proj2 (safe_filename_has_no_separator ascii_isalnum
           [46; 46; 47; 97; 32; 98; 46; 109; 112; 52]%N eq_refl)))).
Defined.

(** ** The fallback speaker labelling *)

Section SpeakerFacts.

Variable re_split : string -> list string.
Variable strip : string -> string.
Variable seller_pattern : string -> bool.
Variable client : string.
Hypothesis client_not_seller : client <> "Vendedor".

Lemma other_speaker_name s : speaker_name client (other_speaker client s).
Proof. unfold other_speaker. destruct (String.eqb s "Vendedor"); [right|left]; reflexivity. Qed.

Lemma other_speaker_involutive s :
  speaker_name client s -> other_speaker client (other_speaker client s) = s.
Proof.
  intros [-> | ->]; unfold other_speaker.
  - simpl. destruct (String.eqb client "Vendedor") eqn:E; [|reflexivity].
    apply String.eqb_eq in E. contradiction.
  - destruct (String.eqb client "Vendedor") eqn:E.
    + apply String.eqb_eq in E. contradiction.
    + reflexivity.
Qed.

(** The loop, started in the state that follows a line of [previous],
    produces the lines of the rule. *)
Lemma label_segments_relabel : forall segments previous lines,
  speaker_name client previous ->
  snd (label_segments strip seller_pattern client segments
         (other_speaker client previous, lines))
    = lines ++ relabel strip seller_pattern client previous segments.
Proof.
  unfold label_segments.
  induction segments as [|[i segment] rest IH]; intros previous lines Hprev.
  - simpl. rewrite app_nil_r. reflexivity.
  - cbn [fold_left relabel]. unfold label_segment at 2.
    destruct (String.eqb (strip segment) "").
    + apply IH. exact Hprev.
    + destruct ((i =? 0)%nat || seller_pattern segment).
      * rewrite (IH (other_speaker client previous)) by apply other_speaker_name.
        rewrite <- app_assoc. reflexivity.
      * rewrite (other_speaker_involutive previous Hprev).
        rewrite (IH previous) by exact Hprev.
        rewrite <- app_assoc. reflexivity.
Qed.

(** Past index 0 and without a pattern match, every line repeats the
    speaker before it. *)
Lemma relabel_without_patterns : forall segments previous,
  (forall s, seller_pattern s = false) ->
  Forall (fun iseg => fst iseg <> 0%nat) segments ->
  Forall (fun line => fst line = previous)
    (relabel strip seller_pattern client previous segments).
Proof.
  induction segments as [|[i segment] rest IH]; intros previous Hno Hidx; simpl.
  - constructor.
  - inversion Hidx as [|? ? Hi Hrest]; subst. simpl in Hi.
    destruct (String.eqb (strip segment) ""); [apply IH; assumption|].
    rewrite Hno, orb_false_r.
    destruct (i =? 0)%nat eqn:E; [apply Nat.eqb_eq in E; contradiction|].
    constructor; [reflexivity|]. apply IH; assumption.
Qed.

End SpeakerFacts.

Lemma enumerate_from_positive {A} (l : list A) : forall n,
  Forall (fun kx => fst kx <> 0%nat) (combine (seq (S n) (List.length l)) l).
Proof.
  induction l as [|x l IH]; intros n; simpl; constructor.
  - simpl. discriminate.
  - apply IH.
Qed.

(** X15.  With a client name other than "Vendedor", the fallback labelling
    gives one line per non-blank segment, in order; the segment at index 0
    and every segment matching a seller pattern take the other speaker than
    the line before, and every other segment repeats the speaker of the
    line before.  So when no segment matches a pattern all lines carry one
    and the same speaker. *)
Theorem fallback_labelling_rule re_split strip seller_pattern transcript client_name :
  client_label client_name <> "Vendedor" ->
  let client := client_label client_name in
  let lines :=
    snd (label_segments strip seller_pattern client (enumerate (re_split transcript))
           ("Vendedor", [])) in
  simple_speaker_identification re_split strip seller_pattern transcript client_name
    = String.concat NEWLINE (map format_line lines) /\
  lines = relabel strip seller_pattern client client (enumerate (re_split transcript)) /\
  ((forall s, seller_pattern s = false) ->
   exists speaker, Forall (fun line => fst line = speaker) lines).
Proof.
  intros Hclient client lines.
  assert (Hstart : other_speaker client client = "Vendedor").
  { unfold other_speaker. destruct (String.eqb client "Vendedor") eqn:E; [|reflexivity].
    apply String.eqb_eq in E. contradiction. }
  assert (Hlines : lines
            = relabel strip seller_pattern client client (enumerate (re_split transcript))).
  { unfold lines. rewrite <- Hstart.
    rewrite (label_segments_relabel strip seller_pattern client Hclient
               (enumerate (re_split transcript)) client []); [reflexivity|].
    right. reflexivity. }
  split; [reflexivity|]. split; [exact Hlines|].
  intros Hno. rewrite Hlines. unfold enumerate.
  destruct (re_split transcript) as [|segment rest]; [exists client; constructor|].
  simpl combine. simpl relabel.
  destruct (String.eqb (strip segment) "").
  - exists client.
    apply relabel_without_patterns; [exact Hno|apply enumerate_from_positive].
  - rewrite Hstart. exists "Vendedor". constructor; [reflexivity|].
    apply relabel_without_patterns; [exact Hno|apply enumerate_from_positive].
Qed.

Lemma fallback_labelling_rule_witness :
  snd (label_segments (fun s => s) (fun _ => false) "Ana"
         (enumerate ["Bom dia."; "Bom dia!"; "Vamos comecar."]) ("Vendedor", []))
  = relabel (fun s => s) (fun _ => false) "Ana" "Ana"
      (enumerate ["Bom dia."; "Bom dia!"; "Vamos comecar."]).
Proof.
  refine (proj1 (proj2 (fallback_labelling_rule
            (fun _ => ["Bom dia."; "Bom dia!"; "Vamos comecar."])
            (fun s => s) (fun _ => false) "" (Some "Ana") _))).
  discriminate.
Defined.

(** ** The retry loops of the speaker and ROI calls *)

Section RetryFacts.

Context {A : Type}.
Variable attempt_body : chat_world -> chat_world * (A + string).
Variable last_resort : chat_world -> string -> A.
Variable b : nat.

(** A pass makes between one and [b] calls and does not sleep. *)
Hypothesis body_calls : forall c,
  slept (fst (attempt_body c)) = slept c /\
  (chat_calls c < chat_calls (fst (attempt_body c)) <= chat_calls c + b)%nat.

(** The loop over the remaining attempts [a, ..., max_retries - 1]. *)
Lemma retry_attempts_spec max_retries : forall k a retry_delay c,
  (a + k = max_retries)%nat -> (0 < k)%nat ->
  exists tries c' x,
    retry_attempts attempt_body last_resort max_retries (seq a k) retry_delay c
      = (c', Some x) /\
    (1 <= tries <= k)%nat /\
    (chat_calls c + tries <= chat_calls c' <= chat_calls c + b * tries)%nat /\
    slept c' = slept c ++ backoff retry_delay (tries - 1) /\
    ((exists c0 c1, attempt_body c0 = (c1, inl x)) \/
     (tries = k /\ exists c0 c1 e, attempt_body c0 = (c1, inr e) /\ x = last_resort c1 e)).
Proof.
  induction k as [|k IH]; intros a retry_delay c Hak Hk; [lia|].
  simpl seq. cbn [retry_attempts].
  pose proof (body_calls c) as [Hs Hc].
  destruct (attempt_body c) as [c1 [r|e]] eqn:Hbody; simpl in Hs, Hc.
  - exists 1%nat, c1, r. simpl. rewrite app_nil_r.
    repeat split; try lia; try assumption. left. eauto.
  - destruct (a <? max_retries - 1)%nat eqn:Elast.
    + apply Nat.ltb_lt in Elast.
      destruct (IH (S a) (retry_delay * 2)
                  (ChatWorld (chat_calls c1) (slept c1 ++ [retry_delay])))
        as (tries & c' & x & Hrun & Htries & Hcalls & Hslept & Hres); [lia|lia|].
      exists (S tries), c', x. simpl in Hcalls, Hslept.
      split; [exact Hrun|]. split; [lia|]. split; [nia|]. split.
      * rewrite Hslept, Hs, <- app_assoc. simpl. f_equal.
        destruct tries as [|tries]; [lia|].
        simpl. rewrite Nat.sub_0_r. symmetry. apply backoff_S.
      * destruct Hres as [Hok | [-> Hfail]]; [left; exact Hok|right; split; [reflexivity|exact Hfail]].
    + apply Nat.ltb_ge in Elast. assert (k = 0)%nat as -> by lia.
      exists 1%nat, c1, (last_resort c1 e). simpl. rewrite app_nil_r.
      repeat split; try lia; try assumption. right. split; [reflexivity|]. eauto.
Qed.

End RetryFacts.

Lemma backoff_5_at_most_2 tries :
  (1 <= tries <= 3)%nat -> backoff 5 (tries - 1) = firstn (tries - 1) [5; 10].
Proof. intros H. destruct tries as [|[|[|[|tries]]]]; try lia; reflexivity. Qed.

(** X16.  [identify_speakers] always returns a text and never raises: it
    makes between one and three calls, one per attempt, sleeping 5 s and
    then 10 s between them; the text is the tidied answer of a call, or,
    when all three calls failed, whatever the error, the fallback
    labelling of the transcript. *)
Theorem identify_speakers_falls_back
    chat re_split strip seller_pattern tidy transcript client_name c :
  exists calls c' text,
    identify_speakers chat re_split strip seller_pattern tidy transcript client_name c
      = (c', Some text) /\
    (1 <= calls <= 3)%nat /\
    chat_calls c' = (chat_calls c + calls)%nat /\
    slept c' = slept c ++ firstn (calls - 1) [5; 10] /\
    ((exists k content, chat k = ChatText content /\
        text = tidy transcript client_name content) \/
     (calls = 3%nat /\
      text = simple_speaker_identification re_split strip seller_pattern
               transcript client_name)).
Proof.
  unfold identify_speakers.
  destruct (retry_attempts_spec
              (speakers_attempt chat tidy transcript client_name)
              (fun _ _ => simple_speaker_identification re_split strip seller_pattern
                            transcript client_name) 1) with
    (max_retries := 3%nat) (k := 3%nat) (a := 0%nat) (retry_delay := 5) (c := c)
    as (tries & c' & x & Hrun & Htries & Hcalls & Hslept & Hres); [|reflexivity|lia|].
  { intros c0. unfold speakers_attempt.
    destruct (chat (chat_calls c0)); simpl; split; try reflexivity; lia. }
  exists tries, c', x.
  split; [exact Hrun|]. split; [exact Htries|]. split; [lia|].
  split; [rewrite Hslept, backoff_5_at_most_2 by exact Htries; reflexivity|].
  destruct Hres as [(c0 & c1 & Hok) | (-> & c0 & c1 & e & _ & ->)].
  - left. unfold speakers_attempt in Hok.
    destruct (chat (chat_calls c0)) as [content|e] eqn:Hchat; [|discriminate].
    exists (chat_calls c0), content. split; [exact Hchat|congruence].
  - right. split; reflexivity.
Qed.

(** Substring tests on appended texts. *)
Lemma prefix_app_l p : forall s t,
  String.prefix p s = true -> String.prefix p (s +:+ t) = true.
Proof.
  induction p as [|a p IH]; intros s t H; [destruct (s +:+ t); reflexivity|].
  destruct s as [|b s]; [discriminate|].
  simpl in H |- *. destruct (ascii_dec a b); [apply IH; exact H|discriminate].
Qed.

Lemma contains_app_l p t : forall s,
  contains p s = true -> contains p (s +:+ t) = true.
Proof.
  induction s as [|a s IH]; intros H.
  - simpl in H. rewrite orb_false_r in H.
    destruct p; [|discriminate]. destruct t; reflexivity.
  - cbn [contains] in H. apply orb_true_iff in H.
    change (String a s +:+ t) with (String a (s +:+ t)). cbn [contains].
    apply orb_true_iff. destruct H as [H|H].
    + left. apply (prefix_app_l p (String a s) t H).
    + right. apply IH, H.
Qed.

Lemma roi_heading_titled rest : titled (ROI_HEADING +:+ rest) = true.
Proof.
  unfold titled. rewrite (contains_app_l "Relatório de ROI" rest ROI_HEADING); reflexivity.
Qed.

Lemma with_header_titled current_date f roi_content :
  titled (with_header current_date f roi_content) = true.
Proof.
  unfold with_header.
  destruct (contains "Relatório de ROI" roi_content) eqn:E1.
  - simpl. unfold titled. rewrite E1. reflexivity.
  - destruct (contains "ROI - ClaxClub" roi_content) eqn:E2.
    + simpl. unfold titled. rewrite E2. apply orb_true_r.
    + simpl. unfold cabecalho, titled.
      rewrite (contains_app_l "Relatório de ROI" roi_content).
      * reflexivity.
      * apply (contains_app_l "Relatório de ROI" _ ROI_HEADING). reflexivity.
Qed.

Lemma roi_failure_report_titled current_date max_retries e :
  titled (roi_failure_report current_date max_retries e) = true.
Proof. unfold roi_failure_report. apply roi_heading_titled. Qed.

Lemma roi_attempt_report_fails strftime prepare f n delays :
  (forall content, prepare content = inl f) ->
  Nat.even n = true ->
  roi_attempt chat_report_fails strftime prepare (ChatWorld n delays)
    = (ChatWorld (S (S n)) delays, inr "timeout").
Proof.
  intros Hprep Heven. unfold roi_attempt, called, chat_report_fails.
  cbn [chat_calls slept]. rewrite Heven, Hprep.
  replace (Nat.even (S n)) with false; [reflexivity|].
  rewrite Nat.even_succ, <- Nat.negb_even, Heven. reflexivity.
Qed.

(** X17.  [generate_roi_report] always returns a report and never raises;
    the report names one of the two titles, whether it is the model's
    text, the text under the added header, or the failure report.  There
    are at most three attempts with sleeps of 5 s and 10 s between them,
    and since a retry repeats the extraction call, between one and six
    calls; six are made when each extraction is answered and each report
    call fails. *)
Theorem roi_report_always_titled :
  (forall chat strftime prepare c,
     exists tries c' report,
       generate_roi_report chat strftime prepare c = (c', Some report) /\
       titled report = true /\
       (1 <= tries <= 3)%nat /\
       (chat_calls c + tries <= chat_calls c' <= chat_calls c + 2 * tries)%nat /\
       slept c' = slept c ++ firstn (tries - 1) [5; 10]) /\
  (forall strftime prepare f,
     (forall content, prepare content = inl f) ->
     generate_roi_report chat_report_fails strftime prepare (ChatWorld 0 [])
       = (ChatWorld 6 [5; 10],
          Some (roi_failure_report (strftime (ChatWorld 6 [5; 10])) 3 "timeout"))).
Proof.
  split.
  - intros chat strftime prepare c. unfold generate_roi_report.
    destruct (retry_attempts_spec (roi_attempt chat strftime prepare)
                (fun c1 e => roi_failure_report (strftime c1) 3 e) 2) with
      (max_retries := 3%nat) (k := 3%nat) (a := 0%nat) (retry_delay := 5) (c := c)
      as (tries & c' & x & Hrun & Htries & Hcalls & Hslept & Hres); [|reflexivity|lia|].
    { intros c0. unfold roi_attempt.
      destruct (chat (chat_calls c0)); simpl; [|split; [reflexivity|lia]].
      destruct (prepare content); simpl; [|split; [reflexivity|lia]].
      destruct (chat (S (chat_calls c0))); simpl; split; try reflexivity; lia. }
    exists tries, c', x.
    split; [exact Hrun|]. split.
    { destruct Hres as [(c0 & c1 & Hok) | (_ & c0 & c1 & e & _ & ->)].
      - unfold roi_attempt in Hok.
        destruct (chat (chat_calls c0)); [|discriminate].
        destruct (prepare content); [|discriminate].
        destruct (chat (chat_calls (called c0))); [|discriminate].
        injection Hok as _ <-. apply with_header_titled.
      - apply roi_failure_report_titled. }
    split; [exact Htries|]. split; [exact Hcalls|].
    rewrite Hslept, backoff_5_at_most_2 by exact Htries. reflexivity.
  - intros strftime prepare f Hprep. unfold generate_roi_report.
    cbn [seq retry_attempts].
    rewrite (roi_attempt_report_fails strftime prepare f 0 [] Hprep eq_refl).
    cbn [Nat.ltb Nat.leb Nat.sub chat_calls slept app].
    rewrite (roi_attempt_report_fails strftime prepare f 2 [5] Hprep eq_refl).
    cbn [Nat.ltb Nat.leb Nat.sub chat_calls slept app].
    rewrite (roi_attempt_report_fails strftime prepare f 4 [5; 5 * 2] Hprep eq_refl).
    reflexivity.
Qed.

Lemma roi_report_always_titled_witness :
  generate_roi_report chat_report_fails (fun _ => "03/11/2026")
    (fun _ => inl (RoiFields "Ana" "Cursos")) (ChatWorld 0 [])
  = (ChatWorld 6 [5; 10], Some (roi_failure_report "03/11/2026" 3 "timeout")).
Proof.
  exact (proj2 roi_report_always_titled (fun _ => "03/11/2026")
           (fun _ => inl (RoiFields "Ana" "Cursos")) (RoiFields "Ana" "Cursos")
           (fun _ => eq_refl)).
Defined.

(** ** The client name read off the file name *)

Lemma append_nil_r s : s +:+ "" = s.
Proof.
  induction s as [|a s IH]; [reflexivity|].
  change (String a (s +:+ "") = String a s). f_equal. exact IH.
Qed.

Lemma append_assoc s t u : (s +:+ t) +:+ u = s +:+ t +:+ u.
Proof.
  induction s as [|a s IH]; [reflexivity|].
  change (String a ((s +:+ t) +:+ u) = String a (s +:+ t +:+ u)). f_equal. exact IH.
Qed.

Lemma contains_app_r p s : forall t,
  contains p s = true -> contains p (t +:+ s) = true.
Proof.
  induction t as [|a t IH]; intros H; [exact H|].
  change (String a t +:+ s) with (String a (t +:+ s)). cbn [contains].
  rewrite (IH H). apply orb_true_r.
Qed.

Lemma substring_of_refl s : substring_of s s.
Proof. exists "", "". simpl. rewrite append_nil_r. reflexivity. Qed.

Lemma substring_of_trans a b c : substring_of a b -> substring_of b c -> substring_of a c.
Proof.
  intros (l1 & r1 & ->) (l2 & r2 & ->).
  exists (l2 +:+ l1), (r1 +:+ r2). rewrite !append_assoc. reflexivity.
Qed.

Lemma contains_substring_of p inner s :
  substring_of inner s -> contains p inner = true -> contains p s = true.
Proof.
  intros (l & r & ->) H. apply contains_app_r, contains_app_l, H.
Qed.

Lemma free_of_substring_of p inner s :
  substring_of inner s -> contains p s = false -> contains p inner = false.
Proof.
  intros Hsub Hs. destruct (contains p inner) eqn:E; [|reflexivity].
  rewrite (contains_substring_of p inner s Hsub E) in Hs. discriminate.
Qed.

Lemma before_is_prefix sep : forall s, exists r, s = before sep s +:+ r.
Proof.
  induction s as [|a s [r IH]].
  - exists "". cbn [before]. destruct (String.prefix sep ""); reflexivity.
  - cbn [before]. destruct (String.prefix sep (String a s)).
    + exists (String a s). reflexivity.
    + exists r. change (String a s = String a (before sep s +:+ r)). f_equal. exact IH.
Qed.

Lemma before_substring_of sep s : substring_of (before sep s) s.
Proof. destruct (before_is_prefix sep s) as [r Hr]. exists "", r. exact Hr. Qed.

(** The text before a separator does not hold the separator. *)
Lemma before_free sep : forall s,
  sep <> "" -> contains sep (before sep s) = false.
Proof.
  intros s Hsep. induction s as [|a s IH].
  - cbn [before].
    replace (if String.prefix sep "" then "" else "") with ""
      by (destruct (String.prefix sep ""); reflexivity).
    destruct sep; [contradiction|reflexivity].
  - cbn [before]. destruct (String.prefix sep (String a s)) eqn:E.
    + destruct sep; [contradiction|reflexivity].
    + cbn [contains]. rewrite IH, orb_false_r.
      destruct (String.prefix sep (String a (before sep s))) eqn:E'; [|reflexivity].
      destruct (before_is_prefix sep s) as [r Hr].
      pose proof (prefix_app_l sep (String a (before sep s)) r E') as H.
      change (String a (before sep s) +:+ r) with (String a (before sep s +:+ r)) in H.
      rewrite <- Hr, E in H. discriminate.
Qed.

Lemma drop_chars_prefix : forall p s,
  String.prefix p s = true -> s = p +:+ drop_chars (String.length p) s.
Proof.
  induction p as [|a p IH]; intros s H; [reflexivity|].
  destruct s as [|b s]; [discriminate|].
  cbn [String.prefix] in H. destruct (ascii_dec a b) as [->|]; [|discriminate].
  change (String b s = String b (p +:+ drop_chars (String.length p) s)).
  f_equal. apply IH, H.
Qed.

Lemma after_is_suffix sep : forall s rest,
  after sep s = Some rest -> s = before sep s +:+ sep +:+ rest.
Proof.
  induction s as [|a s IH]; intros rest H.
  - cbn [after before] in *. destruct (String.prefix sep "") eqn:E; [|discriminate].
    injection H as <-. apply (drop_chars_prefix sep "" E).
  - cbn [after before] in *. destruct (String.prefix sep (String a s)) eqn:E.
    + injection H as <-. apply (drop_chars_prefix sep (String a s) E).
    + change (String a s = String a (before sep s +:+ sep +:+ rest)).
      f_equal. apply IH, H.
Qed.

Lemma after_substring_of sep s rest : after sep s = Some rest -> substring_of rest s.
Proof.
  intros H. exists (before sep s +:+ sep), "".
  rewrite append_nil_r, append_assoc. apply after_is_suffix, H.
Qed.

(** X18.  Whatever the file name, [extract_client_name_from_filename]
    returns a name holding neither [" - "] nor an opening parenthesis, as
    long as [strip] only removes characters at the two ends; and the name
    is either "Cliente Não Identificado" or a piece of a file name whose
    lower-cased form starts with "claxclub". *)
Theorem client_name_from_filename_is_clean strip filename :
  (forall s, substring_of (strip s) s) ->
  let name := extract_client_name_from_filename strip filename in
  contains " - " name = false /\
  contains "(" name = false /\
  (name = CLIENT_UNKNOWN \/
   (String.prefix "claxclub" (lower filename) = true /\ substring_of name filename)).
Proof.
  intros Hstrip name. unfold name, extract_client_name_from_filename.
  assert (Hdefault : contains " - " CLIENT_UNKNOWN = false /\
                     contains "(" CLIENT_UNKNOWN = false /\
                     (CLIENT_UNKNOWN = CLIENT_UNKNOWN \/
                      (String.prefix "claxclub" (lower filename) = true /\
                       substring_of CLIENT_UNKNOWN filename))).
  { repeat split; try reflexivity. left. reflexivity. }
  destruct (contains " - " filename); simpl negb; cbv iota; [|exact Hdefault].
  destruct (String.prefix "claxclub" (lower filename)) eqn:Hclax; [|exact Hdefault].
  unfold split_once. destruct (after " - " filename) as [rest|] eqn:Hafter;
    [|exact Hdefault].
  cbn [List.length Nat.leb nth].
  pose proof (after_substring_of " - " filename rest Hafter) as Hrest.
  set (part1 := if contains " - " rest then before " - " rest else rest).
  assert (Hfree1 : contains " - " part1 = false).
  { unfold part1. destruct (contains " - " rest) eqn:E; [|exact E].
    apply before_free. discriminate. }
  assert (Hsub1 : substring_of part1 filename).
  { unfold part1. destruct (contains " - " rest); [|exact Hrest].
    exact (substring_of_trans _ _ _ (before_substring_of " - " rest) Hrest). }
  destruct (contains "(" part1) eqn:Hparen.
  - assert (Hsub2 : substring_of (strip (before "(" part1)) part1).
    { exact (substring_of_trans _ _ _ (Hstrip _) (before_substring_of "(" part1)). }
    split; [exact (free_of_substring_of _ _ _ Hsub2 Hfree1)|].
    split.
    + apply (free_of_substring_of "(" _ (before "(" part1) (Hstrip _)).
      apply before_free. discriminate.
    + right. split; [reflexivity|]. exact (substring_of_trans _ _ _ Hsub2 Hsub1).
  - split; [exact Hfree1|]. split; [exact Hparen|]. right. split; [reflexivity|exact Hsub1].
Qed.

Lemma client_name_from_filename_is_clean_witness :
  contains " - " (extract_client_name_from_filename (fun s => s)
                    "ClaxClub - Ana Lima (2) - 03-11.mp4") = false.
Proof.
  exact (proj1 (client_name_from_filename_is_clean (fun s => s)
                  "ClaxClub - Ana Lima (2) - 03-11.mp4" substring_of_refl)).
Defined.
